(** * rpage: run execution, event stream and output retention

    A shallow embedding of the run pipeline of rpage:

    - the SQLite tables of [src/db/database.cjs] as finite maps keyed by
      their [id TEXT PRIMARY KEY] column;
    - the models [AutomationModel], [LogModel] and [OutputModel]
      ([src/db/models/*.cjs]);
    - the handlers [GET /api/outputs] and [POST /api/run-automation] of
      [server.cjs];
    - the client helpers [fetchAPI] and [runAutomationById] ([src/utils/api.ts])
      and the output store ([src/stores/outputStore.ts]).

    Conventions.  A JavaScript value that the code only tests for truthiness
    is a Rocq value together with a [truthy] test; the empty string stands
    for an absent or empty text.  [Date.now()] and [new Date()] are inputs: a
    reading is a number of milliseconds since the epoch (a [Z]), and a
    stored timestamp is kept as that number.  Where the code compares the
    ISO-8601 text of a timestamp with another text (the cutoff of the
    retention sweep), the texts are built by [Iso.toISOString] and compared
    byte by byte, as SQLite compares them.  An exception is a value of a sum type. *)

From stdpp Require Import gmap strings list sorting fin_maps.
From Stdlib Require Import ZArith DecimalString Ascii.

Set Warnings "-register-all,-clear-no-such-hyp".

Local Open Scope string_scope.
Local Open Scope list_scope.
Local Open Scope Z_scope.

(** ** Shared data *)

(** [status] of an automation and of a log entry (src/types). *)
Inductive Status := Idle | Running | Completed | Failed.

#[global] Instance Status_eq_dec : EqDecision Status.
Proof. solve_decision. Defined.

(** [Date.now().toString()]: the decimal text of a clock reading. *)
Definition id_of_ms (ms : Z) : string := NilZero.string_of_int (Z.to_int ms).

(** What a statement that hits the storage engine can raise. *)
Inductive SqlError :=
| UniqueViolation      (* the PRIMARY KEY already exists *)
| ForeignKeyViolation  (* automationId names no automation *)
| StorageFault.        (* any other failure of the engine (disk, lock) *)

(** ** The tables (src/db/database.cjs)

    Each table has [id TEXT PRIMARY KEY]; a table is the finite map from that
    key to the other columns.  Of an automation the pipeline reads [name] and
    writes [status]. *)

Record AutomationRow := { a_name : string; a_status : Status }.

Record LogRow := {
  l_automationId : string;
  l_automationName : string;
  l_status : Status;
  l_output : string;
  l_timestamp : Z
}.

(** The [data] column of an output holds JSON text: either text handed in by
    the caller, or the rendering of the descriptor
    [{name, timestamp, format: 'png', source}] built in server.cjs. *)
Inductive ArtifactData :=
| JsonText (text : string)
| ShotDescriptor (name : string) (timestamp : Z) (source : string).

Record OutputRow := {
  o_automationId : string;
  o_name : string;
  o_type : string;
  o_data : ArtifactData;
  o_timestamp : Z
}.

(** A row as a query returns it: the key and the other columns. *)
Abbreviation Output := (string * OutputRow)%type.

Record Database := {
  automations : gmap string AutomationRow;
  logs : gmap string LogRow;
  outputs : gmap string OutputRow
}.

Definition with_automations (db : Database) (t : gmap string AutomationRow) : Database :=
  {| automations := t; logs := logs db; outputs := outputs db |}.
Definition with_logs (db : Database) (t : gmap string LogRow) : Database :=
  {| automations := automations db; logs := t; outputs := outputs db |}.
Definition with_outputs (db : Database) (t : gmap string OutputRow) : Database :=
  {| automations := automations db; logs := logs db; outputs := t |}.

(** ** Dates as JavaScript renders them

    [Date.prototype.toISOString] after ECMAScript 21.4.1: a time value is
    a number of milliseconds since 1970-01-01T00:00:00Z in a calendar
    without leap seconds. *)
Module Iso.

Definition msPerDay : Z := 86400000.

(** [Day(t)] and [TimeWithinDay(t)]. *)
Definition Day (t : Z) : Z := t / msPerDay.
Definition TimeWithinDay (t : Z) : Z := t mod msPerDay.

(** [DayFromYear(y)]: the day number of the first day of year [y]. *)
Definition DayFromYear (y : Z) : Z :=
  365 * (y - 1970) + (y - 1969) / 4 - (y - 1901) / 100 + (y - 1601) / 400.

(** [InLeapYear]: 1 in a year of 366 days, 0 otherwise. *)
Definition InLeapYear (y : Z) : Z :=
  if (y mod 4 =? 0) && (negb (y mod 100 =? 0) || (y mod 400 =? 0)) then 1 else 0.

(** [YearFromTime]: the largest [y] with [DayFromYear(y) <= Day(t)],
    found from the mean length of a year, which is off by one at most. *)
Definition YearFromDay (d : Z) : Z :=
  let y := 1970 + (400 * d) / 146097 in
  if d <? DayFromYear y then y - 1
  else if DayFromYear (y + 1) <=? d then y + 1
  else y.

(** [MonthFromTime] (0 for January) and [DateFromTime], from the day
    within the year [dw] and the leap flag. *)
Definition MonthFromDay (dw leap : Z) : Z :=
  if dw <? 31 then 0
  else if dw <? 59 + leap then 1
  else if dw <? 90 + leap then 2
  else if dw <? 120 + leap then 3
  else if dw <? 151 + leap then 4
  else if dw <? 181 + leap then 5
  else if dw <? 212 + leap then 6
  else if dw <? 243 + leap then 7
  else if dw <? 273 + leap then 8
  else if dw <? 304 + leap then 9
  else if dw <? 334 + leap then 10
  else 11.

Definition DateFromDay (dw leap : Z) : Z :=
  if dw <? 31 then dw + 1
  else if dw <? 59 + leap then dw - 30
  else if dw <? 90 + leap then dw - 58 - leap
  else if dw <? 120 + leap then dw - 89 - leap
  else if dw <? 151 + leap then dw - 119 - leap
  else if dw <? 181 + leap then dw - 150 - leap
  else if dw <? 212 + leap then dw - 180 - leap
  else if dw <? 243 + leap then dw - 211 - leap
  else if dw <? 273 + leap then dw - 242 - leap
  else if dw <? 304 + leap then dw - 272 - leap
  else if dw <? 334 + leap then dw - 303 - leap
  else dw - 333 - leap.

Definition HourFromTime (t : Z) : Z := (t / 3600000) mod 24.
Definition MinFromTime (t : Z) : Z := (t / 60000) mod 60.
Definition SecFromTime (t : Z) : Z := (t / 1000) mod 60.
Definition msFromTime (t : Z) : Z := t mod 1000.

Definition digit (k : Z) : ascii := ascii_of_N (48 + Z.to_N k).

(** [n] in decimal, with zeros in front up to [w] digits ([n] below
    [10 ^ w]). *)
Fixpoint pad (w : nat) (n : Z) : string :=
  match w with
  | O => ""
  | S w' => String (digit (n / 10 ^ Z.of_nat w')) (pad w' (n mod 10 ^ Z.of_nat w'))
  end.

(** The year: four digits from 0 to 9999, otherwise a sign and six
    digits. *)
Definition year_text (y : Z) : string :=
  if (0 <=? y) && (y <=? 9999) then pad 4 y
  else (if y <? 0 then "-" else "+") +:+ pad 6 (Z.abs y).

(** [YYYY-MM-DDTHH:mm:ss.sssZ]. *)
Definition toISOString (t : Z) : string :=
  let y := YearFromDay (Day t) in
  let dw := Day t - DayFromYear y in
  year_text y
  +:+ "-" +:+ pad 2 (MonthFromDay dw (InLeapYear y) + 1)
  +:+ "-" +:+ pad 2 (DateFromDay dw (InLeapYear y))
  +:+ "T" +:+ pad 2 (HourFromTime t)
  +:+ ":" +:+ pad 2 (MinFromTime t)
  +:+ ":" +:+ pad 2 (SecFromTime t)
  +:+ "." +:+ pad 3 (msFromTime t)
  +:+ "Z".

(** [TimeClip]: a time value is a date up to 8.64e15 ms from the epoch;
    beyond, the date is invalid and [toISOString] raises a RangeError. *)
Definition TIME_CLIP : Z := 8640000000000000.
Definition valid (t : Z) : bool := Z.abs t <=? TIME_CLIP.

(** The time values of the years 0000 to 9999, which are rendered with
    four digits. *)
Definition YEAR_0000 : Z := -62167219200000.
Definition YEAR_10000 : Z := 253402300800000.
Definition plain (t : Z) : Prop := YEAR_0000 <= t < YEAR_10000.

#[global] Instance plain_dec t : Decision (plain t).
Proof. unfold plain. apply _. Defined.

(** How SQLite orders TEXT (collation BINARY): byte by byte, a proper
    prefix first. *)
Definition text_lt (a b : string) : Prop := String.ltb a b = true.

#[global] Instance text_lt_dec a b : Decision (text_lt a b).
Proof. unfold text_lt. apply _. Defined.

End Iso.

(** ** AutomationModel (src/db/models/automation.cjs) *)
Module AutomationModel.

(** [getById]: [SELECT * FROM automations WHERE id = ?]. *)
Definition getById (db : Database) (id : string) : option AutomationRow :=
  automations db !! id.

(** [updateStatus]: [UPDATE automations SET status = ? WHERE id = ?]; a
    missing id updates no row and raises nothing. *)
Definition updateStatus (db : Database) (id : string) (s : Status) : Database :=
  with_automations db
    (alter (fun a => {| a_name := a_name a; a_status := s |}) id (automations db)).

End AutomationModel.

(** ** LogModel (src/db/models/log.cjs) *)
Module LogModel.

(** [create]: a plain INSERT; nothing is caught here, so a failing
    statement raises to the caller.  [fault] is the engine failing for a
    reason of its own. *)
Definition create (db : Database) (fault : bool) (id : string) (row : LogRow)
  : SqlError + Database :=
  if fault then inl StorageFault
  else if decide (is_Some (logs db !! id)) then inl UniqueViolation
  else if decide (is_Some (automations db !! l_automationId row))
       then inr (with_logs db (<[id := row]> (logs db)))
       else inl ForeignKeyViolation.

End LogModel.

(** ** OutputModel (src/db/models/output.cjs) *)
Module OutputModel.

Definition newer_first (a b : Output) : Prop := o_timestamp b.2 <= o_timestamp a.2.

#[global] Instance newer_first_dec : RelDecision newer_first.
Proof. intros a b. unfold newer_first. apply _. Defined.

(** [SELECT * FROM outputs ORDER BY timestamp DESC]. *)
Definition ordered (db : Database) : list Output :=
  merge_sort newer_first (map_to_list (outputs db)).

(** [LIMIT ? OFFSET ?] as SQLite reads them: a negative OFFSET is 0 and a
    negative LIMIT is no limit. *)
Definition limit_offset {A} (limit offset : Z) (rows : list A) : list A :=
  let rest := drop (Z.to_nat offset) rows in
  if limit <? 0 then rest else take (Z.to_nat limit) rest.

Record Page := {
  files : list Output;
  total : Z;
  page : Z;
  limit : Z
}.

(** [getAll(page = 1, limit = 20, skip = 0)]. *)
Definition getAll (db : Database) (page limit skip : Z) : Page :=
  let offset := (page - 1) * limit + skip in
  let totalCount := Z.of_nat (size (outputs db)) in
  let results := limit_offset limit offset (ordered db) in
  {| files := results; total := totalCount; page := page; limit := limit |}.

Definition getById (db : Database) (id : string) : option OutputRow :=
  outputs db !! id.

(** [create]: INSERT, then read the row back; an error is logged and
    raised again. *)
Definition create (db : Database) (fault : bool) (id : string) (row : OutputRow)
  : SqlError + Database :=
  if fault then inl StorageFault
  else if decide (is_Some (outputs db !! id)) then inl UniqueViolation
  else if decide (is_Some (automations db !! o_automationId row))
       then inr (with_outputs db (<[id := row]> (outputs db)))
       else inl ForeignKeyViolation.

(** [delete]: [null] (here [None]) when the id is absent, [{ id }]
    otherwise. *)
Definition delete (db : Database) (id : string) : Database * option string :=
  match getById db id with
  | None => (db, None)
  | Some _ => (with_outputs db (base.delete id (outputs db)), Some id)
  end.

(** [saveOutput(automationId, data, name, type)]: the id is
    [Date.now().toString()], the timestamp [new Date().toISOString()];
    every error is caught and [null] returned in place of the saved row. *)
Definition saveOutput (db : Database) (fault : bool) (now_id now_ts : Z)
    (automationId : string) (data : ArtifactData) (name type : string)
  : Database * option Output :=
  let id := id_of_ms now_id in
  let output := {| o_automationId := automationId; o_name := name;
                   o_type := type; o_data := data; o_timestamp := now_ts |} in
  match create db fault id output with
  | inr db' => (db', Some (id, output))
  | inl _ => (db, None)
  end.

Definition MS_PER_DAY : Z := 86400000.

(** The time zone of the process, as ECMAScript's [LocalTZA] reads it: the
    offset of local time from UTC, in milliseconds, at a UTC time value and
    at a local one. *)
Record Zone := {
  offset_at_utc : Z → Z;      (* LocalTZA(t, true) *)
  offset_at_local : Z → Z     (* LocalTZA(t, false) *)
}.

(** [cutoffDate.setDate(cutoffDate.getDate() - days)] on [new Date()], read
    at [now]: [setDate] takes the local time [now + LocalTZA(now, true)],
    moves its day number back by [days] and keeps the time within the day,
    and turns the local time it gets into a UTC time value with the offset
    that applies there.  [days] is a whole number. *)
Definition cutoffDate (zone : Zone) (now days : Z) : Z :=
  let local := now + offset_at_utc zone now in
  let stepped := local - days * MS_PER_DAY in
  stepped - offset_at_local zone stepped.

Definition RANGE_ERROR : string := "Invalid time value".

(** [cutoffDate.toISOString()]: the text, or the RangeError it raises when
    [setDate] left an invalid date. *)
Definition cutoffTimestamp (zone : Zone) (now days : Z) : string + string :=
  let u := cutoffDate zone now days in
  if Iso.valid u then inr (Iso.toISOString u) else inl RANGE_ERROR.

(** [WHERE timestamp < ?]: the column holds the ISO text of the instant of
    the row, and SQLite compares the two texts. *)
Definition is_old (cutoff : string) (o : Output) : Prop :=
  Iso.text_lt (Iso.toISOString (o_timestamp o.2)) cutoff.
Definition not_screenshot (o : Output) : Prop := o_type o.2 ≠ "screenshot".

#[global] Instance is_old_dec cutoff o : Decision (is_old cutoff o).
Proof. unfold is_old. apply _. Defined.
#[global] Instance not_screenshot_dec o : Decision (not_screenshot o).
Proof. unfold not_screenshot. apply _. Defined.

(** The rows the sweep is after. *)
Definition doomed (cutoff : string) (o : Output) : Prop :=
  is_old cutoff o ∨ not_screenshot o.

#[global] Instance doomed_dec cutoff o : Decision (doomed cutoff o).
Proof. unfold doomed. apply _. Defined.

(** [new Set()] filled with [add]: the ids in first-insertion order. *)
Definition set_add (s : list string) (id : string) : list string :=
  if decide (id ∈ s) then s else s ++ [id].

Record Cleanup := {
  deleted : Z;
  oldOutputsRemoved : Z;
  nonScreenshotsRemoved : Z
}.

(** One turn of [outputIdsToDelete.forEach]: delete, then count. *)
Definition delete_and_count (acc : Database * Z) (id : string) : Database * Z :=
  ((delete acc.1 id).1, acc.2 + 1).

(** The statements of [cleanupOldOutputs] that follow the computation of
    the cutoff text. *)
Definition sweep (db : Database) (cutoff : string) : Database * Cleanup :=
  let oldOutputsToDelete := filter (is_old cutoff) (map_to_list (outputs db)) in
  let nonScreenshotOutputs := filter not_screenshot (map_to_list (outputs db)) in
  let outputsToDelete := oldOutputsToDelete ++ nonScreenshotOutputs in
  let outputIdsToDelete := foldl set_add [] (outputsToDelete.*1) in
  let '(db', deletedCount) := foldl delete_and_count (db, 0) outputIdsToDelete in
  (db', {| deleted := deletedCount;
           oldOutputsRemoved := Z.of_nat (length oldOutputsToDelete);
           nonScreenshotsRemoved := Z.of_nat (length nonScreenshotOutputs) |}).

(** [cleanupOldOutputs(days)] run at the instant [now] in the zone [zone];
    the RangeError of [toISOString] is raised before any statement ran. *)
Definition cleanupOldOutputs (zone : Zone) (db : Database) (now days : Z)
  : string + (Database * Cleanup) :=
  match cutoffTimestamp zone now days with
  | inl e => inl e
  | inr cutoff => inr (sweep db cutoff)
  end.

(** "Older than [days] days" in the words of the specification, a day
    being 24 hours: more than [days] times 24 hours before [now]. *)
Definition older_than_days (now days stamp : Z) : Prop :=
  stamp < now - days * MS_PER_DAY.

#[global] Instance older_than_days_dec now days stamp : Decision (older_than_days now days stamp).
Proof. unfold older_than_days. apply _. Defined.

(** The timestamps of a table are texts of the years 0000 to 9999. *)
Definition stamps_plain (db : Database) : Prop :=
  map_Forall (fun _ row => Iso.plain (o_timestamp row)) (outputs db).

#[global] Instance stamps_plain_dec db : Decision (stamps_plain db).
Proof. unfold stamps_plain. apply _. Defined.

End OutputModel.

(** ** Text helpers for the two regular expressions of server.cjs *)
Module Text.

Definition nl : string := String (ascii_of_nat 10) "".

(** [a.join(sep)]. *)
Definition join (sep : string) (parts : list string) : string := String.concat sep parts.

Fixpoint skip (n : nat) (s : string) : string :=
  match n, s with
  | O, _ => s
  | S n', String _ rest => skip n' rest
  | S _, EmptyString => EmptyString
  end.

(** [hay.includes(needle)]. *)
Fixpoint includes (needle hay : string) : bool :=
  String.prefix needle hay ||
  match hay with
  | EmptyString => false
  | String _ rest => includes needle rest
  end.

(** The class [[^\/\\]]. *)
Definition in_name_class (c : ascii) : bool :=
  negb (bool_decide (c = "/"%char)) && negb (bool_decide (c = "\"%char)).

(** What [.] refuses. *)
Definition is_line_terminator (c : ascii) : bool :=
  bool_decide (c = ascii_of_nat 10) || bool_decide (c = ascii_of_nat 13).

(** [([^\/\\]+\.png)] anchored at the head of [s]: the greedy [+] first
    tries to take one more character and gives characters back until
    [.png] follows. *)
Fixpoint name_png (s : string) : option string :=
  match s with
  | EmptyString => None
  | String c rest =>
      if in_name_class c then
        match name_png rest with
        | Some cap => Some (String c cap)
        | None => if String.prefix ".png" rest then Some (String c ".png") else None
        end
      else None
  end.

(** [.*?([^\/\\]+\.png)] anchored at the head of [s]: the lazy star
    tries the group first and swallows one character only when that
    fails. *)
Fixpoint lazy_then_name_png (s : string) : option string :=
  match name_png s with
  | Some cap => Some cap
  | None =>
      match s with
      | EmptyString => None
      | String c rest => if is_line_terminator c then None else lazy_then_name_png rest
      end
  end.

Definition SHOT_MARKER : string := "Taking screenshot and saving to:".

(** [logMessage.match(/Taking screenshot and saving to:.*?([^\/\\]+\.png)/)],
    group 1 of the leftmost match. *)
Fixpoint match_screenshot_log (s : string) : option string :=
  match (if String.prefix SHOT_MARKER s
         then lazy_then_name_png (skip (String.length SHOT_MARKER) s)
         else None) with
  | Some cap => Some cap
  | None =>
      match s with
      | EmptyString => None
      | String _ rest => match_screenshot_log rest
      end
  end.

Fixpoint all_in_name_class (s : string) : bool :=
  match s with
  | EmptyString => true
  | String c rest => in_name_class c && all_in_name_class rest
  end.

(** [path.match(/([^\/\\]+)$/)], group 1: the leftmost non-empty run of
    name characters that reaches the end of the text. *)
Fixpoint match_last_segment (s : string) : option string :=
  match s with
  | EmptyString => None
  | String _ rest => if all_in_name_class s then Some s else match_last_segment rest
  end.

End Text.

(** ** server.cjs *)
Module Server.

(** *** GET /api/outputs *)

(** [parseInt(req.query.x) || d]: [None] is NaN (absent or not a
    number); NaN and 0 are falsy. *)
Definition or_default (q : option Z) (d : Z) : Z :=
  match q with
  | Some n => if n =? 0 then d else n
  | None => d
  end.

Record OutputsResponse := {
  success : bool;
  files : list Output;
  count : Z;
  total : Z;
  page : Z;
  limit : Z;
  hasMore : bool
}.

Definition get_outputs (db : Database) (qpage qlimit qskip : option Z) : OutputsResponse :=
  let page := or_default qpage 1 in
  let limit := or_default qlimit 20 in
  let skip := or_default qskip 0 in
  let result := OutputModel.getAll db page limit skip in
  {| success := true;
     files := OutputModel.files result;
     count := Z.of_nat (length (OutputModel.files result));
     total := OutputModel.total result;
     page := OutputModel.page result;
     limit := OutputModel.limit result;
     hasMore := OutputModel.page result * OutputModel.limit result <? OutputModel.total result |}.

(** *** POST /api/run-automation: what a script hands back *)

(** [result.screenshot]. *)
Inductive Shot :=
| ShotText (s : string)                    (* typeof 'string' *)
| ShotObject (name : string) (json : string)
    (* an object: its [name] field ('' when falsy) and its JSON text *)
| ShotOther (is_truthy : bool).            (* undefined, null, a number, a boolean *)

Definition shot_truthy (s : Shot) : bool :=
  match s with
  | ShotText s => negb (bool_decide (s = ""))
  | ShotObject _ _ => true
  | ShotOther b => b
  end.

Record ResultObject := {
  screenshot : Shot;
  screenshotName : string;   (* '' when absent *)
  screenshotPath : string    (* '' when absent *)
}.

(** The value [run()] resolves to. *)
Inductive JsResult :=
| RFalsy                      (* undefined, null, false, 0, '' *)
| RPrimitive                  (* a truthy primitive: none of the fields *)
| RObject (o : ResultObject).

Definition truthy (r : JsResult) : bool :=
  match r with RFalsy => false | _ => true end.

Definition no_fields : ResultObject :=
  {| screenshot := ShotOther false; screenshotName := ""; screenshotPath := "" |}.

Definition fields (r : JsResult) : ResultObject :=
  match r with RObject o => o | _ => no_fields end.

(** How [await scriptFunction({...})] ends.  [json] is
    [JSON.stringify(result, null, 2)]. *)
Inductive Settlement :=
| Resolves (result : JsResult) (json : string)
| Rejects (message : string)
| Pending.                    (* the promise never settles *)

(** A submitted script: its text, whether [new Function] accepts the
    wrapped text, the calls it makes on the injected [console] (each call
    with its arguments already turned into text), and how it settles. *)
Record Script := {
  source : string;
  compiles : bool;
  console_calls : list (list string);
  settlement : Settlement
}.

Record RunRequest := { id : string; name : string; script : Script }.

(** The readings the handler takes from its environment during one run. *)
Record Env := {
  executionTime : string;      (* ((Date.now() - startTime) / 1000).toFixed(2) *)
  locale_now : string;         (* new Date().toLocaleString() *)
  descriptor_now : Z;          (* new Date() for a generated descriptor *)
  artifact_now_id : Z;         (* Date.now() in saveOutput *)
  artifact_now_ts : Z;         (* new Date() in saveOutput *)
  artifact_fault : bool;       (* the INSERT into outputs fails in the engine *)
  log_now_id : Z;              (* Date.now() for the 'completed' log entry *)
  log_now_ts : Z;
  log_fault : bool;            (* the INSERT of the 'completed' entry fails *)
  failure_now_id : Z;          (* Date.now() for the 'failed' log entry *)
  failure_now_ts : Z;
  failure_fault : bool         (* the INSERT of the 'failed' entry fails *)
}.

(** *** The event stream *)

(** The two shapes of the [complete] event. *)
Inductive Complete :=
| Succeeded (output : string) (result : JsResult)
            (screenshotFilename : option string) (executionTime : string)
| Errored (error : string) (output : string).

Inductive Event :=
| EvStatus (status : Status) (message : string)
| EvLog (message : string)
| EvComplete (c : Complete).

Definition complete_success (c : Complete) : bool :=
  match c with Succeeded _ _ _ _ => true | Errored _ _ => false end.

(** What became of the response once the handler stopped. *)
Inductive Fate :=
| Ended        (* res.end() ran *)
| LeftOpen     (* the handler returned, or still awaits, and res.end() never ran *)
| SetupError (message : string).
    (* the outer catch ran res.status(500).json(...) on the stream *)

Inductive Reply :=
| BadRequest                                   (* 400, no stream *)
| Streamed (events : list Event) (fate : Fate).

Record RunResult := { reply : Reply; db_after : Database }.

(** *** logCapture *)

Record Capture := {
  captured : list string;                (* logs *)
  hint : option string;                  (* screenshotFilename *)
  sent : list Event                      (* what sendEvent wrote so far *)
}.

Definition scrape (logMessage : string) : option string :=
  if Text.includes "Taking screenshot and saving to:" logMessage
  then Text.match_screenshot_log logMessage
  else None.

Definition logCapture (st : Capture) (args : list string) : Capture :=
  let logMessage := Text.join " " args in
  {| captured := captured st ++ [logMessage];
     hint := match scrape logMessage with
             | Some f => Some f
             | None => hint st
             end;
     sent := sent st ++ [EvLog logMessage] |}.

(** *** The handler *)

Definition TYPE_ERROR_NAME : string :=
  "Cannot read properties of undefined (reading 'name')".

Definition sql_message (e : SqlError) : string :=
  match e with
  | UniqueViolation => "UNIQUE constraint failed"
  | ForeignKeyViolation => "FOREIGN KEY constraint failed"
  | StorageFault => "storage failure"
  end.

(** The [catch (error)] block of the run: status, log entry, event, end.
    What raises inside it reaches the outer catch. *)
Definition fail_run (db : Database) (id : string) (env : Env) (st : Capture)
    (message : string) : RunResult :=
  let db1 := AutomationModel.updateStatus db id Failed in
  match AutomationModel.getById db1 id with
  | None => {| reply := Streamed (sent st) (SetupError TYPE_ERROR_NAME); db_after := db1 |}
  | Some automation =>
      let entry := {| l_automationId := id;
                      l_automationName := a_name automation;
                      l_status := Failed;
                      l_output := "Error: " +:+ message +:+ Text.nl +:+ Text.nl
                                  +:+ Text.join Text.nl (captured st);
                      l_timestamp := failure_now_ts env |} in
      match LogModel.create db1 (failure_fault env) (id_of_ms (failure_now_id env)) entry with
      | inl e => {| reply := Streamed (sent st) (SetupError (sql_message e)); db_after := db1 |}
      | inr db2 =>
          {| reply := Streamed
               (sent st ++ [EvComplete (Errored message ("Error: " +:+ message))]) Ended;
             db_after := db2 |}
      end
  end.

(** The name the artifact is saved under. *)
Definition screenshot_name (o : ResultObject) (automation : AutomationRow) (env : Env) : string :=
  if negb (bool_decide (screenshotName o = "")) then screenshotName o
  else match screenshot o with
       | ShotObject n _ =>
           if negb (bool_decide (n = "")) then n
           else "Screenshot for " +:+ a_name automation +:+ " at " +:+ locale_now env
       | ShotText s => s
       | ShotOther _ => "Screenshot for " +:+ a_name automation +:+ " at " +:+ locale_now env
       end.

(** [JSON.stringify(screenshotData)]. *)
Definition screenshot_data (o : ResultObject) (automation : AutomationRow) (env : Env)
  : ArtifactData :=
  match screenshot o with
  | ShotObject _ json => JsonText json
  | _ => ShotDescriptor (screenshot_name o automation env) (descriptor_now env)
                        (a_name automation)
  end.

(** The block [if (result.screenshot) { ... }]: only this writes an
    output, with type ['screenshot']; a failed write is logged. *)
Definition save_screenshot (db : Database) (id : string) (env : Env)
    (o : ResultObject) (automation : AutomationRow) : Database :=
  if shot_truthy (screenshot o) then
    (OutputModel.saveOutput db (artifact_fault env)
       (artifact_now_id env) (artifact_now_ts env)
       id (screenshot_data o automation env) (screenshot_name o automation env)
       "screenshot").1
  else db.

(** The filename reported at the end: the one scraped from the logs, or,
    when none was scraped, the last segment of [result.screenshotPath]. *)
Definition final_filename (st : Capture) (result : JsResult) : option string :=
  match hint st with
  | Some f => Some f
  | None =>
      if truthy result && negb (bool_decide (screenshotPath (fields result) = ""))
      then Text.match_last_segment (screenshotPath (fields result))
      else None
  end.

(** [logs.join('\n') + `\nTotal execution time: ...` + `Returned result: ...`]. *)
Definition format_output (st : Capture) (env : Env) (json : string) : string :=
  Text.join Text.nl (captured st)
  +:+ Text.nl +:+ "Total execution time: " +:+ executionTime env
  +:+ " seconds" +:+ Text.nl +:+ Text.nl
  +:+ "Returned result: " +:+ json.

(** The end of the [try] block: status, log entry, complete event,
    [res.end()].  What raises here is caught by the [catch] of the run. *)
Definition complete_run (db : Database) (id : string) (env : Env) (st : Capture)
    (result : JsResult) (json : string) : RunResult :=
  let output := format_output st env json in
  let db2 := AutomationModel.updateStatus db id Completed in
  match AutomationModel.getById db2 id with
  | None => fail_run db2 id env st TYPE_ERROR_NAME
  | Some automation =>
      let entry := {| l_automationId := id;
                      l_automationName := a_name automation;
                      l_status := Completed;
                      l_output := output;
                      l_timestamp := log_now_ts env |} in
      match LogModel.create db2 (log_fault env) (id_of_ms (log_now_id env)) entry with
      | inl e => fail_run db2 id env st (sql_message e)
      | inr db3 =>
          {| reply := Streamed
               (sent st ++ [EvComplete (Succeeded output result (final_filename st result)
                                              (executionTime env))]) Ended;
             db_after := db3 |}
      end
  end.

(** The block [if (result) { ... }]: [None] when it leaves the handler
    through [return;] because no automation has the id, otherwise the
    database after the screenshot, if any, was saved. *)
Definition store_result (db : Database) (id : string) (env : Env) (result : JsResult)
  : option Database :=
  if truthy result then
    match AutomationModel.getById db id with
    | None => None
    | Some automation => Some (save_screenshot db id env (fields result) automation)
    end
  else Some db.

(** After [await scriptFunction(...)] resolved with [result]. *)
Definition finish_run (db : Database) (id : string) (env : Env) (st : Capture)
    (result : JsResult) (json : string) : RunResult :=
  match store_result db id env result with
  | None => {| reply := Streamed (sent st) LeftOpen; db_after := db |}
  | Some db1 => complete_run db1 id env st result json
  end.

Definition SYNTAX_ERROR : string := "SyntaxError".

(** The state after the first [sendEvent]. *)
Definition started : Capture :=
  {| captured := []; hint := None;
     sent := [EvStatus Running "Starting automation..."] |}.

(** [app.post('/api/run-automation', ...)]. *)
Definition run_automation (db : Database) (req : RunRequest) (env : Env) : RunResult :=
  if bool_decide (source (script req) = "") then
    {| reply := BadRequest; db_after := db |}
  else
    if negb (compiles (script req)) then
      {| reply := Streamed (sent started) (SetupError SYNTAX_ERROR); db_after := db |}
    else
      let db1 := AutomationModel.updateStatus db (id req) Running in
      let st := foldl logCapture started (console_calls (script req)) in
      match settlement (script req) with
      | Pending => {| reply := Streamed (sent st) LeftOpen; db_after := db1 |}
      | Rejects message => fail_run db1 (id req) env st message
      | Resolves result json => finish_run db1 (id req) env st result json
      end.

(** *** Reading a run's result *)

Definition events_of (r : RunResult) : list Event :=
  match reply r with BadRequest => [] | Streamed evs _ => evs end.

Definition is_complete (e : Event) : bool :=
  match e with EvComplete _ => true | _ => false end.

(** The [success] field of the terminal event, if there is one. *)
Definition terminal_success (r : RunResult) : option bool :=
  match last (events_of r) with
  | Some (EvComplete c) => Some (complete_success c)
  | _ => None
  end.

(** The filename in the terminal event of a run that succeeded. *)
Definition reported_filename (r : RunResult) : option string :=
  match last (events_of r) with
  | Some (EvComplete (Succeeded _ _ f _)) => f
  | _ => None
  end.

Definition final_status (r : RunResult) (id : string) : option Status :=
  a_status <$> automations (db_after r) !! id.

(** The hint the log lines give: that of the last line that has one. *)
Definition last_hint (calls : list (list string)) : option string :=
  last (omap (fun args => scrape (Text.join " " args)) calls).

(** The events a script's console calls put on the stream. *)
Definition log_events (calls : list (list string)) : list Event :=
  (fun args => EvLog (Text.join " " args)) <$> calls.

(** An environment with other readings for the write of the artifact. *)
Definition with_artifact (env : Env) (now_id now_ts : Z) (fault : bool) : Env :=
  {| executionTime := executionTime env; locale_now := locale_now env;
     descriptor_now := descriptor_now env;
     artifact_now_id := now_id; artifact_now_ts := now_ts; artifact_fault := fault;
     log_now_id := log_now_id env; log_now_ts := log_now_ts env;
     log_fault := log_fault env;
     failure_now_id := failure_now_id env; failure_now_ts := failure_now_ts env;
     failure_fault := failure_fault env |}.

(** An environment in which the write of the 'completed' entry fails or
    not. *)
Definition with_log_fault (env : Env) (fault : bool) : Env :=
  {| executionTime := executionTime env; locale_now := locale_now env;
     descriptor_now := descriptor_now env;
     artifact_now_id := artifact_now_id env; artifact_now_ts := artifact_now_ts env;
     artifact_fault := artifact_fault env;
     log_now_id := log_now_id env; log_now_ts := log_now_ts env;
     log_fault := fault;
     failure_now_id := failure_now_id env; failure_now_ts := failure_now_ts env;
     failure_fault := failure_fault env |}.

(** Two databases with the same automations and the same log entries. *)
Definition same_core (db db' : Database) : Prop :=
  automations db = automations db' ∧ logs db = logs db'.

(** Two runs that wrote the same stream, ended it the same way and left
    the same automations and log entries. *)
Definition same_verdict (r r' : RunResult) : Prop :=
  reply r = reply r' ∧ same_core (db_after r) (db_after r').

(** [status · log* · complete] *)
Definition is_status (e : Event) : bool :=
  match e with EvStatus Running _ => true | _ => false end.
Definition is_log (e : Event) : bool :=
  match e with EvLog _ => true | _ => false end.

Definition protocol_ok (evs : list Event) : bool :=
  match evs with
  | e :: rest =>
      is_status e &&
      match reverse rest with
      | c :: logs_rev => is_complete c && forallb is_log logs_rev
      | [] => false
      end
  | [] => false
  end.

End Server.

(** ** JSON values as the client inspects them *)
Module Js.

Inductive Json :=
| JNull
| JBool (b : bool)
| JNum (n : Z)
| JStr (s : string)
| JArr (items : list Json)
| JObj (members : list (string * Json)).

(** [!!v]. *)
Definition truthy (v : Json) : bool :=
  match v with
  | JNull => false
  | JBool b => b
  | JNum n => negb (n =? 0)
  | JStr s => negb (bool_decide (s = ""))
  | JArr _ | JObj _ => true
  end.

(** [typeof v === 'object'] (which [null] and arrays satisfy). *)
Definition typeof_object (v : Json) : bool :=
  match v with
  | JNull | JArr _ | JObj _ => true
  | _ => false
  end.

Fixpoint assoc (k : string) (members : list (string * Json)) : option Json :=
  match members with
  | [] => None
  | (k', v) :: rest => if bool_decide (k = k') then Some v else assoc k rest
  end.

(** [v.k], [None] being [undefined]. *)
Definition get (v : Json) (k : string) : option Json :=
  match v with
  | JObj members => assoc k members
  | _ => None
  end.

Definition truthy_opt (v : option Json) : bool :=
  match v with Some v => truthy v | None => false end.

(** [v === true]. *)
Definition is_true (v : option Json) : bool :=
  match v with Some (JBool true) => true | _ => false end.

(** A promise once it settled. *)
Inductive Outcome (A : Type) :=
| Fulfilled (v : A)
| Rejected (message : string).
Arguments Fulfilled {A} v.
Arguments Rejected {A} message.

(** The two kinds of store of svelte/store: [writable(...)] gives an object
    with [subscribe], [set] and [update]; [derived(...)] gives a readable
    one, with [subscribe] only. *)
Inductive StoreKind := Writable | Derived.

Definition has_update (k : StoreKind) : bool :=
  match k with Writable => true | Derived => false end.

(** [store.update(fn)] as a call: calling a member that is [undefined]
    raises a TypeError. *)
Definition call_update (k : StoreKind) : string + unit :=
  if has_update k then inr tt else inl "TypeError: update is not a function".

End Js.

(** ** src/utils/api.ts *)
Module Api.
Import Js.

Definition CACHE_EXPIRY : Z := 30000.

(** What [fetch] and the body reader do for one request. *)
Inductive Transport :=
| Answered (ok : bool) (status : string) (body : option Json)
    (* a response came; [body] is [None] when it is not JSON *)
| NetworkDown (message : string)         (* fetch rejected *)
| Aborted.                               (* the 10 s controller fired *)

Record CacheEntry := { data : Json; timestamp : Z }.

(** The [try] block of fetchAPI after the cache check: the value, or the
    message of the error it throws. *)
Definition attempt (endpoint : string) (t : Transport) : string + Json :=
  match t with
  | Answered true _ (Some d) => inr d
  | Answered true _ None => inl "Unexpected token in JSON"
  | Answered false status _ => inl ("HTTP error " +:+ status)
  | NetworkDown message => inl message
  | Aborted => inl ("Request to " +:+ endpoint +:+ " timed out")
  end.

Definition MOCK_SETTINGS : Json :=
  JObj [("notificationsEnabled", JBool true); ("darkTheme", JBool true);
        ("keepOutputDays", JNum 7)].

(** The [catch] block of fetchAPI. *)
Definition fallback (endpoint message : string) : Json :=
  if bool_decide (endpoint = "/logs") || bool_decide (endpoint = "/logs-direct") then JArr []
  else if bool_decide (endpoint = "/outputs") || bool_decide (endpoint = "/outputs-direct")
  then JArr []
  else if bool_decide (endpoint = "/settings") then MOCK_SETTINGS
  else JObj [("success", JBool false);
             ("error", JStr (if bool_decide (message = "") then "Unknown API error" else message));
             ("isErrorResponse", JBool true)].

(** [fetchAPI(endpoint, options)] at the instant [now]; [is_get] is
    [!options.method || options.method === 'GET']. *)
Definition fetchAPI (cache : gmap string CacheEntry) (now : Z) (endpoint : string)
    (is_get : bool) (t : Transport) : Outcome Json * gmap string CacheEntry :=
  let cached :=
    if is_get then
      match cache !! endpoint with
      | Some e => if now - timestamp e <? CACHE_EXPIRY then Some (data e) else None
      | None => None
      end
    else None in
  match cached with
  | Some d => (Fulfilled d, cache)
  | None =>
      match attempt endpoint t with
      | inr d =>
          (Fulfilled d,
           if is_get then <[endpoint := {| data := d; timestamp := now |}]> cache else cache)
      | inl message => (Fulfilled (fallback endpoint message), cache)
      end
  end.

(** *** runAutomationById: consuming the event stream *)

(** A decoded frame, by its [type]. *)
Inductive SseData :=
| DLog (message : string)
| DComplete (success : bool) (output : string) (error : string)
| DOther.                                  (* 'status' and any other type *)

(** What the run looks like to the caller. *)
Record RunOutcome := { success : bool; output : string }.

Definition is_lf (c : ascii) : bool := bool_decide (c = ascii_of_nat 10).

(** [buffer.split('\n\n')] followed by [events.pop()]: the complete
    frames and the trailing partial one.  [cur] is the frame being read. *)
Fixpoint split_frames (cur : string) (s : string) : list string * string :=
  match s with
  | EmptyString => ([], cur)
  | String c rest =>
      match rest with
      | String c' rest' =>
          if is_lf c && is_lf c' then
            let '(frames, tail) := split_frames "" rest' in
            (cur :: frames, tail)
          else split_frames (cur +:+ String c "") rest
      | EmptyString => ([], cur +:+ String c "")
      end
  end.

(** What [reader.read()] yields after the last chunk. *)
Inductive Ending :=
| EndOfStream (at_ms : Z)                   (* done = true *)
| ReadError (at_ms : Z) (message : string)  (* read() rejects *)
| Stalled.                                  (* no more data, never closed *)

(** The body of the response: chunks of text, each with the time (in ms
    since the timeout was armed) at which it arrives. *)
Record Wire := { chunks : list (Z * string); ending : Ending }.

(** When and how [completionPromise] settles. *)
Inductive Settled :=
| SettledAt (at_ms : Z) (o : Outcome RunOutcome)
| Never.

Record Consumed := {
  settled : Settled;
  cancelled : bool;       (* reader.cancel() ran *)
  shown : string          (* what appendOutput added to currentOutput *)
}.

(** The frames the reading loop gets to see, in order: each chunk is
    appended to what was left of the buffer and split. *)
Fixpoint all_frames (cs : list (Z * string)) (buffer : string) : list string :=
  match cs with
  | [] => []
  | (_, text) :: rest =>
      let '(frames, tail) := split_frames "" (buffer +:+ text) in
      frames ++ all_frames rest tail
  end.

Section Consumer.

(** Decoding one frame: [event.trim()] is not empty,
    [/^data: (.+)$/m] matches, [JSON.parse] succeeds; the frames that
    fail any of these are skipped ([None]). *)
Variable decode : string -> option SseData.

(** What a complete frame resolves the promise with. *)
Definition verdict (ok : bool) (out err : string) : RunOutcome :=
  if ok then {| success := true; output := out |}
  else {| success := false;
          output := if bool_decide (out = "") then "Error: " +:+ err else out |}.

(** [for (const event of events)]: log frames are appended to the
    live output; the first complete frame resolves and leaves the loop. *)
Fixpoint dispatch (frames : list string) (shown : string) : option RunOutcome * string :=
  match frames with
  | [] => (None, shown)
  | f :: rest =>
      match decode f with
      | Some (DLog m) => dispatch rest (shown +:+ m +:+ Text.nl)
      | Some (DComplete ok out err) => (Some (verdict ok out err), shown)
      | Some DOther | None => dispatch rest shown
      end
  end.

(** A frame that decodes to a complete event. *)
Definition is_complete_frame (f : string) : Prop :=
  ∃ ok out err, decode f = Some (DComplete ok out err).

(** [processChunks]: the [while (true)] loop over [reader.read()]. *)
Fixpoint processChunks (cs : list (Z * string)) (e : Ending) (buffer shown : string)
  : Consumed :=
  match cs with
  | [] =>
      match e with
      | EndOfStream t =>
          {| settled := SettledAt t (Rejected "Server stream ended without completion");
             cancelled := false; shown := shown |}
      | ReadError t m =>
          {| settled := SettledAt t (Rejected m); cancelled := false; shown := shown |}
      | Stalled => {| settled := Never; cancelled := false; shown := shown |}
      end
  | (t, text) :: rest =>
      let '(frames, tail) := split_frames "" (buffer +:+ text) in
      match dispatch frames shown with
      | (Some o, shown') =>
          {| settled := SettledAt t (Fulfilled o); cancelled := true; shown := shown' |}
      | (None, shown') => processChunks rest e tail shown'
      end
  end.

Definition TIMEOUT_MS : Z := 120000.
Definition TIMEOUT_MESSAGE : string := "Automation timed out after 2 minutes".

(** [Promise.race([completionPromise, timeoutPromise])]: the timer
    rejects once [TIMEOUT_MS] have passed. *)
Definition race (c : Settled) : Outcome RunOutcome :=
  match c with
  | SettledAt t o => if t <? TIMEOUT_MS then o else Rejected TIMEOUT_MESSAGE
  | Never => Rejected TIMEOUT_MESSAGE
  end.

(** What came back from the POST to /api/run-automation. *)
Inductive ServerReply :=
| Unreachable (message : string)           (* fetch rejected *)
| EventStream (w : Wire)                   (* Content-Type: text/event-stream *)
| JsonReply (ok : bool) (out error : string).
    (* any other body: its [success], [output] and [error] fields *)

(** The inner [try] block. *)
Definition ask_server (r : ServerReply) : Outcome RunOutcome :=
  match r with
  | Unreachable m => Rejected m
  | EventStream w => race (settled (processChunks (chunks w) (ending w) "" ""))
  | JsonReply true out _ =>
      Fulfilled {| success := true;
                   output := if bool_decide (out = "")
                             then "Automation completed successfully" else out |}
  | JsonReply false _ err =>
      Rejected (if bool_decide (err = "") then "Unknown server error" else err)
  end.

(** [runAutomation] of src/utils/playwright.ts: the simulated run in
    the browser, which plays fixed steps and reports success;
    [transcript] is the text it captured. *)
Definition runAutomation (transcript : string) : RunOutcome :=
  {| success := true; output := transcript |}.

(** [result] after the inner try/catch: the server's verdict, or, when
    anything was raised, the simulation ([catch (serverError)]). *)
Definition run_result (r : ServerReply) (transcript : string) : RunOutcome :=
  match ask_server r with
  | Fulfilled o => o
  | Rejected _ => runAutomation transcript
  end.

(** What runAutomationById hands to its caller for a known automation:
    [{ success: true, data: { id, success, output } }], and the status
    it writes to the automations store. *)
Record Answer := {
  api_success : bool;
  data_id : string;
  data_success : bool;
  data_output : string;
  store_status : Status
}.

Definition runAutomationById (id : string) (r : ServerReply) (transcript : string) : Answer :=
  let result := run_result r transcript in
  {| api_success := true;
     data_id := id;
     data_success := success result;
     data_output := output result;
     store_status := if success result then Completed else Failed |}.

(** Whether the reader was cancelled while consuming [r]. *)
Definition reader_cancelled (r : ServerReply) : bool :=
  match r with
  | EventStream w => cancelled (processChunks (chunks w) (ending w) "" "")
  | _ => false
  end.

End Consumer.

End Api.

(** ** src/stores/outputStore.ts *)
Module OutputStore.

Record OutputFile := {
  id : string;
  automationId : string;
  name : string;
  type : string;
  data : string;
  timestamp : Z
}.

#[global] Instance OutputFile_eq_dec : EqDecision OutputFile.
Proof. solve_decision. Defined.

Definition PAGE_SIZE : Z := 30.
Definition PRIORITY_FILES_COUNT : Z := 5.
Definition CACHE_TTL : Z := 3000.

(** [Record<string, OutputFile[]>], its keys in insertion order. *)
Abbreviation Grouping := (list (string * list OutputFile)).

(** The stores of the module, [outputsByTypeCache], the keys of
    [parsedDataCache], and the value the derived store [outputsByType]
    currently holds. *)
Record State := {
  outputFiles : list OutputFile;
  priorityOutputFiles : list OutputFile;
  isLoadingOutputs : bool;
  isPriorityLoaded : bool;
  hasMoreOutputs : bool;
  currentPage : Z;
  totalOutputCount : Z;
  parsedDataCache : gset string;
  cache_data : option Grouping;      (* outputsByTypeCache.data *)
  cache_timestamp : Z;               (* outputsByTypeCache.timestamp *)
  outputsByType : Grouping
}.

(** [outputsByType] is made by [derived(...)]. *)
Definition outputsByType_kind : Js.StoreKind := Js.Derived.

Definition type_key (f : OutputFile) : string :=
  if bool_decide (type f = "") then "other" else type f.

(** [if (!grouped[type]) grouped[type] = []; grouped[type].push(file)]. *)
Fixpoint push (g : Grouping) (f : OutputFile) : Grouping :=
  match g with
  | [] => [(type_key f, [f])]
  | (k, fs) :: rest =>
      if bool_decide (k = type_key f) then (k, fs ++ [f]) :: rest
      else (k, fs) :: push rest f
  end.

Definition latest_first (a b : OutputFile) : Prop := timestamp b <= timestamp a.

#[global] Instance latest_first_dec : RelDecision latest_first.
Proof. intros a b. unfold latest_first. apply _. Defined.

(** The grouping the derived callback computes when it does not answer
    from the cache, as the list of its groups in the order in which their
    keys were made.  This is the callback on files whose types are ordinary
    words such as "screenshot"; what the plain object [grouped = {}] does
    with a type that names a member of [Object.prototype] or is an array
    index is [group_object] below, which agrees with this list on all other
    types ([GroupingFacts.group_object_ordinary]). *)
Definition group_outputs (files priority : list OutputFile) : Grouping :=
  let grouped := foldl push [] priority in
  let priorityIds := id <$> priority in
  let remainingFiles := take 50 (filter (fun f => id f ∉ priorityIds) files) in
  let grouped := foldl push grouped remainingFiles in
  (fun kv : string * list OutputFile => (kv.1, merge_sort latest_first kv.2)) <$> grouped.

(** The callback of [derived([outputFiles, priorityOutputFiles], ...)],
    run at the instant [now]. *)
Definition recalculate (now : Z) (st : State) : State :=
  let answer (g : Grouping) (c : option Grouping) (t : Z) :=
    {| outputFiles := outputFiles st;
       priorityOutputFiles := priorityOutputFiles st;
       isLoadingOutputs := isLoadingOutputs st;
       isPriorityLoaded := isPriorityLoaded st;
       hasMoreOutputs := hasMoreOutputs st;
       currentPage := currentPage st;
       totalOutputCount := totalOutputCount st;
       parsedDataCache := parsedDataCache st;
       cache_data := c; cache_timestamp := t; outputsByType := g |} in
  let fresh := group_outputs (outputFiles st) (priorityOutputFiles st) in
  match cache_data st with
  | Some g =>
      if now - cache_timestamp st <? CACHE_TTL
      then answer g (cache_data st) (cache_timestamp st)
      else answer fresh (Some fresh) now
  | None => answer fresh (Some fresh) now
  end.

(** [outputFiles.set(fs)] / [outputFiles.update(...)]: the store takes
    the value and the derived store runs its callback. *)
Definition set_outputFiles (now : Z) (fs : list OutputFile) (st : State) : State :=
  recalculate now
    {| outputFiles := fs;
       priorityOutputFiles := priorityOutputFiles st;
       isLoadingOutputs := isLoadingOutputs st;
       isPriorityLoaded := isPriorityLoaded st;
       hasMoreOutputs := hasMoreOutputs st;
       currentPage := currentPage st;
       totalOutputCount := totalOutputCount st;
       parsedDataCache := parsedDataCache st;
       cache_data := cache_data st; cache_timestamp := cache_timestamp st;
       outputsByType := outputsByType st |}.

Definition set_priorityOutputFiles (now : Z) (fs : list OutputFile) (st : State) : State :=
  recalculate now
    {| outputFiles := outputFiles st;
       priorityOutputFiles := fs;
       isLoadingOutputs := isLoadingOutputs st;
       isPriorityLoaded := isPriorityLoaded st;
       hasMoreOutputs := hasMoreOutputs st;
       currentPage := currentPage st;
       totalOutputCount := totalOutputCount st;
       parsedDataCache := parsedDataCache st;
       cache_data := cache_data st; cache_timestamp := cache_timestamp st;
       outputsByType := outputsByType st |}.

(** [outputsByTypeCache.data = null; outputsByTypeCache.timestamp = 0]. *)
Definition invalidate (st : State) : State :=
  {| outputFiles := outputFiles st;
     priorityOutputFiles := priorityOutputFiles st;
     isLoadingOutputs := isLoadingOutputs st;
     isPriorityLoaded := isPriorityLoaded st;
     hasMoreOutputs := hasMoreOutputs st;
     currentPage := currentPage st;
     totalOutputCount := totalOutputCount st;
     parsedDataCache := parsedDataCache st;
     cache_data := None; cache_timestamp := 0;
     outputsByType := outputsByType st |}.

(** [resetOutputPagination()]. *)
Definition resetOutputPagination (now : Z) (st : State) : State :=
  let st := set_outputFiles now [] st in
  let st := set_priorityOutputFiles now [] st in
  invalidate
    {| outputFiles := outputFiles st;
       priorityOutputFiles := priorityOutputFiles st;
       isLoadingOutputs := isLoadingOutputs st;
       isPriorityLoaded := false;
       hasMoreOutputs := true;
       currentPage := 1;
       totalOutputCount := totalOutputCount st;
       parsedDataCache := parsedDataCache st;
       cache_data := cache_data st; cache_timestamp := cache_timestamp st;
       outputsByType := outputsByType st |}.

(** The three shapes a listing comes in, already told apart:
    [{success, files, total}], a bare array, or anything else, in which
    case /outputs-direct is asked and may give an array. *)
Inductive Listing :=
| Wrapped (files : list OutputFile) (total : Z)
| Bare (files : list OutputFile)
| Unusable (direct : option (list OutputFile)).

Definition listing_files (l : Listing) : list OutputFile :=
  match l with
  | Wrapped fs _ | Bare fs | Unusable (Some fs) => fs
  | Unusable None => []
  end.

(** The query loadMoreOutputs sends: [(page, limit, skip)]. *)
Definition loadMore_query (st : State) : Z * Z * Z :=
  (currentPage st, PAGE_SIZE, if isPriorityLoaded st then PRIORITY_FILES_COUNT else 0).

(** The timer callback of loadMoreOutputs, run at [now] with the listing
    that arrived: pagination state, then the append to [outputFiles]. *)
Definition loadMore_arrived (now : Z) (response : Listing) (st : State) : State :=
  let newOutputs := listing_files response in
  let short := Z.of_nat (length newOutputs) <? PAGE_SIZE in
  let st1 :=
    {| outputFiles := outputFiles st;
       priorityOutputFiles := priorityOutputFiles st;
       isLoadingOutputs := isLoadingOutputs st;
       isPriorityLoaded := isPriorityLoaded st;
       hasMoreOutputs := if short then false else hasMoreOutputs st;
       currentPage := if short then currentPage st else currentPage st + 1;
       totalOutputCount := match response with
                           | Wrapped _ t => if t =? 0 then totalOutputCount st else t
                           | _ => totalOutputCount st
                           end;
       parsedDataCache := parsedDataCache st;
       cache_data := cache_data st; cache_timestamp := cache_timestamp st;
       outputsByType := outputsByType st |} in
  let st2 :=
    match newOutputs with
    | [] => st1
    | _ =>
        let priorityIds := id <$> priorityOutputFiles st1 in
        let kept := filter (fun f => id f ∉ priorityIds) newOutputs in
        set_outputFiles now (outputFiles st1 ++ kept) st1
    end in
  {| outputFiles := outputFiles st2;
     priorityOutputFiles := priorityOutputFiles st2;
     isLoadingOutputs := false;
     isPriorityLoaded := isPriorityLoaded st2;
     hasMoreOutputs := hasMoreOutputs st2;
     currentPage := currentPage st2;
     totalOutputCount := totalOutputCount st2;
     parsedDataCache := parsedDataCache st2;
     cache_data := cache_data st2; cache_timestamp := cache_timestamp st2;
     outputsByType := outputsByType st2 |}.

(** The part of deleteOutputFile that runs before the request: both
    lists lose the id, then the parsed data and the grouping cache are
    dropped. *)
Definition remove_locally (now : Z) (id0 : string) (st : State) : State :=
  let st := set_outputFiles now (filter (fun f => id f ≠ id0) (outputFiles st)) st in
  let st := set_priorityOutputFiles now
              (filter (fun f => id f ≠ id0) (priorityOutputFiles st)) st in
  invalidate
    {| outputFiles := outputFiles st;
       priorityOutputFiles := priorityOutputFiles st;
       isLoadingOutputs := isLoadingOutputs st;
       isPriorityLoaded := isPriorityLoaded st;
       hasMoreOutputs := hasMoreOutputs st;
       currentPage := currentPage st;
       totalOutputCount := totalOutputCount st;
       parsedDataCache := parsedDataCache st ∖ {[id0]};
       cache_data := cache_data st; cache_timestamp := cache_timestamp st;
       outputsByType := outputsByType st |}.

(** The test on the response at the end of the [try] block. *)
Definition looks_deleted (response : Js.Json) : bool :=
  if Js.truthy response &&
     (Js.is_true (Js.get response "success") ||
      match Js.get response "data" with
      | Some d => Js.truthy d && Js.truthy_opt (Js.get d "id")
      | None => false
      end)
  then true
  else Js.typeof_object response.

(** [deleteOutputFile(id)]: called at [now], the answer of the server
    arriving at [later]. *)
Definition deleteOutputFile (now later : Z) (id0 : string) (t : Api.Transport)
    (st : State) : State * bool :=
  let st1 := remove_locally now id0 st in
  match (Api.fetchAPI ∅ later ("/outputs/" +:+ id0) false t).1 with
  | Js.Rejected _ => (st1, false)
  | Js.Fulfilled response =>
      let st2 := set_outputFiles later (outputFiles st1) st1 in
      let st3 := set_priorityOutputFiles later (priorityOutputFiles st2) st2 in
      match Js.call_update outputsByType_kind with
      | inl _ => (st3, false)                       (* catch (error) *)
      | inr _ => (st3, looks_deleted response)
      end
  end.

End OutputStore.

(** ** Sample data used by the examples below *)
Module Samples.
Import Server.

Definition wiki : AutomationRow := {| a_name := "Wikipedia search"; a_status := Idle |}.

Definition shot (automation : string) (ts : Z) : OutputRow :=
  {| o_automationId := automation; o_name := "shot"; o_type := "screenshot";
     o_data := JsonText "{}"; o_timestamp := ts |}.

Definition note (automation : string) (ts : Z) : OutputRow :=
  {| o_automationId := automation; o_name := "note"; o_type := "text";
     o_data := JsonText "{}"; o_timestamp := ts |}.

(** One automation, no log, no output. *)
Definition db_fresh : Database :=
  {| automations := {["a1" := wiki]}; logs := ∅; outputs := ∅ |}.

(** One automation and three outputs: a recent screenshot, an old
    screenshot and a recent text output. *)
Definition db_three : Database :=
  {| automations := {["a1" := wiki]};
     logs := ∅;
     outputs := {["1000" := shot "a1" 1000; "5000" := shot "a1" 5000;
                  "6000" := note "a1" 6000]} |}.

(** The same automation, with a log entry and an output that another run
    wrote under the ids 7001 and 7000. *)
Definition db_busy : Database :=
  {| automations := {["a1" := wiki]};
     logs := {["7001" := {| l_automationId := "a1"; l_automationName := "Wikipedia search";
                            l_status := Completed; l_output := "earlier run";
                            l_timestamp := 7001 |}]};
     outputs := {["7000" := shot "a1" 7000]} |}.

Definition env_quiet : Env :=
  {| executionTime := "0.10"; locale_now := "1/1/2025, 12:00:00 AM";
     descriptor_now := 7000;
     artifact_now_id := 7000; artifact_now_ts := 7000; artifact_fault := false;
     log_now_id := 7001; log_now_ts := 7001; log_fault := false;
     failure_now_id := 7002; failure_now_ts := 7002; failure_fault := false |}.

(** A run that saves its artifact in millisecond 7000 and writes its log
    entry a second later. *)
Definition env_slow : Env :=
  {| executionTime := "1.00"; locale_now := "1/1/2025, 12:00:00 AM";
     descriptor_now := 7000;
     artifact_now_id := 7000; artifact_now_ts := 7000; artifact_fault := false;
     log_now_id := 8001; log_now_ts := 8001; log_fault := false;
     failure_now_id := 8002; failure_now_ts := 8002; failure_fault := false |}.

(** [async function run(){ console.log('hi'); return {ok:true}; }] *)
Definition script_ok : Script :=
  {| source := "async function run(){ console.log('hi'); return {ok:true}; }";
     compiles := true;
     console_calls := [["hi"]];
     settlement := Resolves (RObject no_fields) "{ ok: true }" |}.

(** A script that logs where it saves a screenshot and returns both the
    payload and another path. *)
Definition script_shot : Script :=
  {| source := "async function run(){ /* takes a screenshot */ }";
     compiles := true;
     console_calls := [["Taking screenshot and saving to:"; "/out/a.png"]];
     settlement :=
       Resolves (RObject {| screenshot := ShotText "front page";
                            screenshotName := "";
                            screenshotPath := "/out/b.png" |})
                "{ screenshot: 'front page', screenshotPath: '/out/b.png' }" |}.

(** [async function run(){ throw new Error('boom'); }] *)
Definition script_boom : Script :=
  {| source := "async function run(){ throw new Error('boom'); }";
     compiles := true;
     console_calls := [];
     settlement := Rejects "boom" |}.

Definition request (id : string) (s : Script) : RunRequest :=
  {| id := id; name := "Wikipedia search"; script := s |}.

(** A decoder for the three frames the client examples use. *)
Definition decode (frame : string) : option Api.SseData :=
  if bool_decide (frame = "data: {log hi}") then Some (Api.DLog "hi")
  else if bool_decide (frame = "data: {complete ok}")
  then Some (Api.DComplete true "hi" "")
  else if bool_decide (frame = "data: {complete boom}")
  then Some (Api.DComplete false "" "boom")
  else None.

(** A stream whose complete event arrives 130 s after the request. *)
Definition slow_wire : Api.Wire :=
  {| Api.chunks := [(1000, "data: {log hi}" +:+ Text.nl +:+ Text.nl);
                    (130000, "data: {complete ok}" +:+ Text.nl +:+ Text.nl)];
     Api.ending := Api.EndOfStream 130001 |}.

(** The same events, the complete one arriving after 2 s and followed
    by a second complete frame. *)
Definition quick_wire : Api.Wire :=
  {| Api.chunks := [(1000, "data: {log hi}" +:+ Text.nl +:+ Text.nl);
                    (2000, "data: {complete ok}" +:+ Text.nl +:+ Text.nl
                           +:+ "data: {complete boom}" +:+ Text.nl +:+ Text.nl)];
     Api.ending := Api.EndOfStream 2001 |}.

Definition file (id type : string) (ts : Z) : OutputStore.OutputFile :=
  {| OutputStore.id := id; OutputStore.automationId := "a1";
     OutputStore.name := "shot"; OutputStore.type := type;
     OutputStore.data := "{}"; OutputStore.timestamp := ts |}.

(** The output store before anything was loaded. *)
Definition store_empty : OutputStore.State :=
  {| OutputStore.outputFiles := [];
     OutputStore.priorityOutputFiles := [];
     OutputStore.isLoadingOutputs := false;
     OutputStore.isPriorityLoaded := false;
     OutputStore.hasMoreOutputs := true;
     OutputStore.currentPage := 1;
     OutputStore.totalOutputCount := 0;
     OutputStore.parsedDataCache := ∅;
     OutputStore.cache_data := None;
     OutputStore.cache_timestamp := 0;
     OutputStore.outputsByType := [] |}.

(** The store once the priority slice, one screenshot, arrived at
    instant 1000: the grouping was computed and cached then. *)
Definition store_priority : OutputStore.State :=
  OutputStore.set_priorityOutputFiles 1000 [file "9" "screenshot" 900] store_empty.

(** The answer of the server to a successful DELETE. *)
Definition deleted_reply (id : string) : Api.Transport :=
  Api.Answered true "200"
    (Some (Js.JObj [("success", Js.JBool true);
                    ("data", Js.JObj [("id", Js.JStr id)])])).

(** A process that runs in UTC. *)
Definition utc : OutputModel.Zone :=
  {| OutputModel.offset_at_utc := fun _ => 0; OutputModel.offset_at_local := fun _ => 0 |}.

(** America/New_York around 10 March 2024: UTC-5 until 2024-03-10T07:00Z
    (02:00 on the local clock, which then jumps to 03:00), UTC-4 after. *)
Definition new_york : OutputModel.Zone :=
  {| OutputModel.offset_at_utc := fun t => if t <? 1710054000000 then -18000000 else -14400000;
     OutputModel.offset_at_local :=
       fun t => if t <? 1710039600000 then -18000000 else -14400000 |}.

(** One screenshot, taken on 2024-03-09 at 16:30 UTC. *)
Definition db_march : Database :=
  {| automations := {["a1" := wiki]};
     logs := ∅;
     outputs := {["1710001800000" := shot "a1" 1710001800000]} |}.

(** The store with a priority screenshot and two listed files. *)
Definition store_mixed : OutputStore.State :=
  OutputStore.set_outputFiles 1100
    [file "8" "data" 800; file "9" "screenshot" 900; file "7" "screenshot" 700]
    store_priority.

End Samples.


(** * More of the code *)

(** ** The rest of AutomationModel (src/db/models/automation.cjs) *)
Module AutomationRows.

(** [delete]: [null] when no automation has the id; otherwise the row is
    deleted, and with it the logs and outputs that refer to it
    ([FOREIGN KEY (automationId) REFERENCES automations(id) ON DELETE
    CASCADE] in database.cjs). *)
Definition delete (db : Database) (id : string) : Database * option string :=
  match AutomationModel.getById db id with
  | None => (db, None)
  | Some _ =>
      ({| automations := base.delete id (automations db);
          logs := filter (fun kv : string * LogRow => l_automationId kv.2 ≠ id) (logs db);
          outputs := filter (fun kv : string * OutputRow => o_automationId kv.2 ≠ id)
                            (outputs db) |},
       Some id)
  end.

End AutomationRows.

(** ** The rest of LogModel (src/db/models/log.js) *)
Module LogQueries.

Abbreviation Log := (string * LogRow)%type.

Definition newer_first (a b : Log) : Prop := l_timestamp b.2 <= l_timestamp a.2.

#[global] Instance newer_log_first_dec : RelDecision newer_first.
Proof. intros a b. unfold newer_first. apply _. Defined.

(** [getAll]: [SELECT * FROM logs ORDER BY timestamp DESC]. *)
Definition getAll (db : Database) : list Log :=
  merge_sort newer_first (map_to_list (logs db)).

Definition getById (db : Database) (id : string) : option LogRow := logs db !! id.

(** [getByAutomationId]:
    [SELECT * FROM logs WHERE automationId = ? ORDER BY timestamp DESC]. *)
Definition getByAutomationId (db : Database) (automationId : string) : list Log :=
  merge_sort newer_first
    (filter (fun kv : Log => l_automationId kv.2 = automationId) (map_to_list (logs db))).

(** [delete]: [null] when the id is absent, [{ id }] otherwise. *)
Definition delete (db : Database) (id : string) : Database * option string :=
  match getById db id with
  | None => (db, None)
  | Some _ => (with_logs db (base.delete id (logs db)), Some id)
  end.

(** [clearAll]: [DELETE FROM logs]. *)
Definition clearAll (db : Database) : Database := with_logs db ∅.

End LogQueries.

(** ** The rest of OutputModel (src/db/models/output.cjs) *)
Module OutputQueries.

(** [getByAutomationId]:
    [SELECT * FROM outputs WHERE automationId = ? ORDER BY timestamp DESC]. *)
Definition getByAutomationId (db : Database) (automationId : string) : list Output :=
  merge_sort OutputModel.newer_first
    (filter (fun kv : Output => o_automationId kv.2 = automationId)
            (map_to_list (outputs db))).

(** [getByType]:
    [SELECT * FROM outputs WHERE type = ? ORDER BY timestamp DESC]. *)
Definition getByType (db : Database) (type : string) : list Output :=
  merge_sort OutputModel.newer_first
    (filter (fun kv : Output => o_type kv.2 = type) (map_to_list (outputs db))).

(** The pages [1 .. n] of [getAll] with one limit and one skip, one after
    the other. *)
Definition pages (db : Database) (limit skip : Z) (n : nat) : list Output :=
  concat ((fun p => OutputModel.files (OutputModel.getAll db p limit skip))
            <$> seqZ 1 (Z.of_nat n)).

End OutputQueries.

(** ** Referential integrity of the store

    Every output and every log entry names an automation that exists. *)
Definition refs_ok (db : Database) : Prop :=
  map_Forall (fun _ row => is_Some (automations db !! o_automationId row)) (outputs db) ∧
  map_Forall (fun _ row => is_Some (automations db !! l_automationId row)) (logs db).

(** ** The other handlers of server.cjs that change the store *)
Module Endpoints.

Inductive Http := Ok200 | NotFound404.

(** [app.delete('/api/outputs/:id')]. *)
Definition delete_output (db : Database) (id : string) : Database * Http :=
  match OutputModel.delete db id with
  | (db', Some _) => (db', Ok200)
  | (db', None) => (db', NotFound404)
  end.

(** [app.delete('/api/automations/:id')]. *)
Definition delete_automation (db : Database) (id : string) : Database * Http :=
  match AutomationRows.delete db id with
  | (db', Some _) => (db', Ok200)
  | (db', None) => (db', NotFound404)
  end.

(** [app.delete('/api/logs')]. *)
Definition delete_logs (db : Database) : Database * Http :=
  (LogQueries.clearAll db, Ok200).

End Endpoints.

(** ** The framing of the event stream (sendEvent in server.cjs) *)
Module Framing.

(** [res.write(`data: ${JSON.stringify(data)}\n\n`)]: what one event puts
    on the wire, [payload] being the JSON text. *)
Definition frame (payload : string) : string :=
  "data: " +:+ payload +:+ Text.nl +:+ Text.nl.

(** The wire after a sequence of events. *)
Definition wire (payloads : list string) : string :=
  String.concat "" (frame <$> payloads).

(** A text without a line feed; [JSON.stringify] escapes line feeds, so
    every payload is one. *)
Fixpoint no_lf (s : string) : bool :=
  match s with
  | EmptyString => true
  | String c rest => negb (Api.is_lf c) && no_lf rest
  end.

(** The text of a sequence of chunks. *)
Definition chunk_text (cs : list (Z * string)) : string :=
  String.concat "" (cs.*2).

(** A text in which no two line feeds are adjacent: one without a
    separator of frames. *)
Fixpoint no_blank_line (s : string) : bool :=
  match s with
  | String c rest =>
      match rest with
      | String c' _ => negb (Api.is_lf c && Api.is_lf c') && no_blank_line rest
      | EmptyString => true
      end
  | EmptyString => true
  end.

(** The first character of a text, as a text. *)
Definition first_char (s : string) : string :=
  match s with
  | String c _ => String c ""
  | EmptyString => ""
  end.

End Framing.

(** ** The cache of fetchAPI (src/utils/api.ts) *)
Module ApiCache.

Definition about_outputs (key : string) : Prop :=
  Text.includes "output" key = true ∨ Text.includes "Output" key = true.

#[global] Instance about_outputs_dec key : Decision (about_outputs key).
Proof. unfold about_outputs. apply _. Defined.

(** [clearOutputsCache()]: every key that contains 'output' or 'Output'
    is deleted. *)
Definition clearOutputsCache (cache : gmap string Api.CacheEntry) : gmap string Api.CacheEntry :=
  filter (fun kv : string * Api.CacheEntry => ¬ about_outputs kv.1) cache.

End ApiCache.

(** ** The automations of the client (src/utils/api.ts) *)
Module ClientAutomations.

Record Automation := {
  id : string;
  name : string;
  description : string;
  script : string;
  status : Status;
  createdAt : Z;
  updatedAt : Z;
  output : option string
}.

(** [Omit<Automation, 'id' | 'createdAt' | 'updatedAt'>]. *)
Record Draft := {
  d_name : string;
  d_description : string;
  d_script : string;
  d_status : Status;
  d_output : option string
}.

(** [Partial<Automation>]: [None] for a field that is not given. *)
Record Updates := {
  u_id : option string;
  u_name : option string;
  u_description : option string;
  u_script : option string;
  u_status : option Status;
  u_createdAt : option Z;
  u_output : option (option string)
}.

(** [ApiResponse<T>]: [{success: false, error}] or [{success: true, data}]. *)
Abbreviation ApiResponse A := (string + A)%type.

(** [items.find(a => a.id === id)]. *)
Fixpoint find (items : list Automation) (id0 : string) : option Automation :=
  match items with
  | [] => None
  | a :: rest => if bool_decide (id a = id0) then Some a else find rest id0
  end.

Definition getAutomationById (items : list Automation) (id0 : string)
  : ApiResponse Automation :=
  match find items id0 with
  | None => inl "Automation not found"
  | Some a => inr a
  end.

(** [createAutomation]: [uuid] is [crypto.randomUUID()], [now] the
    instant. *)
Definition createAutomation (items : list Automation) (uuid : string) (now : Z) (d : Draft)
  : list Automation * ApiResponse Automation :=
  let newAutomation :=
    {| id := uuid; name := d_name d; description := d_description d;
       script := d_script d; status := d_status d;
       createdAt := now; updatedAt := now; output := d_output d |} in
  (items ++ [newAutomation], inr newAutomation).

(** [{ ...item, ...updates, updatedAt: now }]. *)
Definition merge (a : Automation) (u : Updates) (now : Z) : Automation :=
  {| id := default (id a) (u_id u);
     name := default (name a) (u_name u);
     description := default (description a) (u_description u);
     script := default (script a) (u_script u);
     status := default (status a) (u_status u);
     createdAt := default (createdAt a) (u_createdAt u);
     updatedAt := now;
     output := default (output a) (u_output u) |}.

(** [items[index] = updatedAutomation] at the first index whose id
    matches. *)
Fixpoint replace_first (items : list Automation) (id0 : string) (u : Updates) (now : Z)
  : list Automation :=
  match items with
  | [] => []
  | a :: rest =>
      if bool_decide (id a = id0) then merge a u now :: rest
      else a :: replace_first rest id0 u now
  end.

Definition updateAutomation (items : list Automation) (id0 : string) (u : Updates) (now : Z)
  : list Automation * ApiResponse Automation :=
  match find items id0 with
  | None => (items, inl "Automation not found")
  | Some a => (replace_first items id0 u now, inr (merge a u now))
  end.

Definition deleteAutomation (items : list Automation) (id0 : string)
  : list Automation * ApiResponse string :=
  let filtered := filter (fun a => id a ≠ id0) items in
  if bool_decide (length filtered < length items)%nat
  then (filtered, inr id0)
  else (filtered, inl "Automation not found").

End ClientAutomations.

(** ** The log store of the client (src/stores/logsStore.ts) *)
Module LogsStore.

Record LogEntry := {
  id : string;
  automationId : string;
  automationName : string;
  status : Status;
  output : string;
  timestamp : Z
}.

Definition MAX_LOG_LENGTH : Z := 5000.
Definition MAX_STORED_LENGTH : Z := 10000.

(** [s.length] and [s.substring(0, n)]. *)
Definition js_length (s : string) : Z := Z.of_nat (String.length s).
Definition js_prefix (n : Z) (s : string) : string := String.substring 0 (Z.to_nat n) s.

Definition DISPLAY_NOTICE : string :=
  Text.nl +:+ Text.nl
  +:+ "[Log output truncated for performance. Full log available via API]".

Definition STORAGE_NOTICE : string :=
  Text.nl +:+ Text.nl +:+ "[Log truncated due to size limits]".

(** [getTruncatedLogOutput(log)].  The WeakMap of the module remembers,
    per entry, the text computed here; entries are never changed once built,
    so what it remembers is what this computes. *)
Definition getTruncatedLogOutput (log : LogEntry) : string :=
  if bool_decide (output log = "") then ""
  else if bool_decide (MAX_LOG_LENGTH < js_length (output log))
       then js_prefix MAX_LOG_LENGTH (output log) +:+ DISPLAY_NOTICE
       else output log.

(** [addLogEntry(automation, status)], up to the update of the [logs]
    store: nothing for an automation without output; otherwise the new entry,
    its output cut to [MAX_STORED_LENGTH], goes in front.  The second
    component is the entry that is then posted to /logs. *)
Definition addLogEntry (now_id now_ts : Z) (automation : ClientAutomations.Automation)
    (st : Status) (logs : list LogEntry) : list LogEntry * option LogEntry :=
  match ClientAutomations.output automation with
  | None => (logs, None)
  | Some text =>
      if bool_decide (text = "") then (logs, None)
      else
        let outputToStore :=
          if bool_decide (MAX_STORED_LENGTH < js_length text)
          then js_prefix MAX_STORED_LENGTH text +:+ STORAGE_NOTICE
          else text in
        let newEntry :=
          {| id := id_of_ms now_id;
             automationId := ClientAutomations.id automation;
             automationName := ClientAutomations.name automation;
             status := st;
             output := outputToStore;
             timestamp := now_ts |} in
        (newEntry :: logs, Some newEntry)
  end.

End LogsStore.

(** ** What a handler may do to the store

    For the automation [id]: every log entry and every output stays, at
    most [nl] log entries and [no] outputs are added, and of the automations
    nothing changes but the status of [id]. *)
Definition only_adds (id : string) (nl no : nat) (db db' : Database) : Prop :=
  logs db ⊆ logs db' ∧
  outputs db ⊆ outputs db' ∧
  (size (logs db') ≤ size (logs db) + nl)%nat ∧
  (size (outputs db') ≤ size (outputs db) + no)%nat ∧
  (∀ k, k ≠ id → automations db' !! k = automations db !! k) ∧
  a_name <$> automations db' !! id = a_name <$> automations db !! id.

(** A run that ended its stream with the verdict [b]: the stream is
    [status · log* · complete], the complete event carries [b], the
    automation has the matching status, and the logs gained one entry, for
    this automation and with that status. *)
Definition ended_with (db : Database) (id : string) (b : bool) (r : Server.RunResult) : Prop :=
  let s := if b then Completed else Failed in
  Server.protocol_ok (Server.events_of r) = true ∧
  Server.terminal_success r = Some b ∧
  Server.final_status r id = Some s ∧
  ∃ k entry,
    logs db !! k = None ∧
    logs (Server.db_after r) = <[k := entry]> (logs db) ∧
    l_automationId entry = id ∧ l_status entry = s ∧
    a_name <$> automations db !! id = Some (l_automationName entry).

(** A run that did not end its stream: no complete event, no log entry,
    and the automation is not 'completed' unless nothing was written. *)
Definition not_ended (db : Database) (id : string) (r : Server.RunResult) : Prop :=
  Server.terminal_success r = None ∧
  logs (Server.db_after r) = logs db ∧
  (Server.final_status r id = Some Completed → Server.db_after r = db).

#[global] Instance refs_ok_dec (db : Database) : Decision (refs_ok db).
Proof. unfold refs_ok. apply _. Defined.

(** ** Groupings of the output store

    [g] groups the files [l]: its keys are distinct, every group is not
    empty and holds only files of its key, and the groups together hold the
    files of [l], each as often as [l] does. *)
Definition grouping_of (g : OutputStore.Grouping) (l : list OutputStore.OutputFile) : Prop :=
  NoDup g.*1 ∧
  Forall (fun kv : string * list OutputStore.OutputFile =>
            kv.2 ≠ [] ∧ Forall (fun f => OutputStore.type_key f = kv.1) kv.2) g ∧
  concat g.*2 ≡ₚ l.

(** The files the grouped view shows: the priority files, then the first
    50 of the other files that are not among them. *)
Definition shown_files (files priority : list OutputStore.OutputFile)
  : list OutputStore.OutputFile :=
  priority ++
  take 50 (filter (fun f => OutputStore.id f ∉ OutputStore.id <$> priority) files).
(** ** The object behind the grouped view

    The callback of [outputsByType] collects the groups in a plain object,
    [grouped = {}], under the key [file.type || 'other'].  A key that names
    a member every object inherits from [Object.prototype] reads as that
    member before anything was stored under it: [!grouped[type]] is false,
    no array is made, and [grouped[type].push(file)] raises a TypeError.
    The keys of an object are listed with the array indices first, in
    ascending order, and the other keys after them in the order in which
    they were made. *)
Definition OBJECT_PROTOTYPE_KEYS : list string :=
  ["constructor"; "__proto__"; "hasOwnProperty"; "isPrototypeOf";
   "propertyIsEnumerable"; "toLocaleString"; "toString"; "valueOf";
   "__defineGetter__"; "__defineSetter__"; "__lookupGetter__"; "__lookupSetter__"].

Definition PUSH_TYPE_ERROR : string := "TypeError: grouped[type].push is not a function".

(** The number a text of decimal digits stands for. *)
Fixpoint decimal_value (s : string) (acc : N) : option N :=
  match s with
  | EmptyString => Some acc
  | String c rest =>
      let n := N_of_ascii c in
      if ((48 <=? n) && (n <=? 57))%N
      then decimal_value rest (10 * acc + (n - 48))%N
      else None
  end.

(** An array index: the canonical decimal text of an integer up to
    [2^32 - 2]. *)
Definition index_of (k : string) : option N :=
  match k with
  | EmptyString => None
  | String c rest =>
      match decimal_value k 0 with
      | Some v =>
          if (negb (bool_decide (c = "0"%char)) || bool_decide (rest = ""))
             && (v <=? 4294967294)%N
          then Some v else None
      | None => None
      end
  end.

Definition index_le (a b : string * list OutputStore.OutputFile) : Prop :=
  (default 0 (index_of a.1) <= default 0 (index_of b.1))%N.

#[global] Instance index_le_dec : RelDecision index_le.
Proof. intros a b. unfold index_le. apply _. Defined.

(** The order in which [Object.values] and [Object.entries] list the
    groups. *)
Definition own_keys_order (g : OutputStore.Grouping) : OutputStore.Grouping :=
  merge_sort index_le
    (filter (fun kv : string * list OutputStore.OutputFile => is_Some (index_of kv.1)) g)
  ++ filter (fun kv : string * list OutputStore.OutputFile => ¬ is_Some (index_of kv.1)) g.

(** One turn of a [forEach] of the callback. *)
Definition grouped_push (g : OutputStore.Grouping) (f : OutputStore.OutputFile)
  : string + OutputStore.Grouping :=
  if bool_decide (OutputStore.type_key f ∈ OBJECT_PROTOTYPE_KEYS)
  then inl PUSH_TYPE_ERROR
  else inr (OutputStore.push g f).

Fixpoint grouped_push_all (g : OutputStore.Grouping) (fs : list OutputStore.OutputFile)
  : string + OutputStore.Grouping :=
  match fs with
  | [] => inr g
  | f :: rest =>
      match grouped_push g f with
      | inl e => inl e
      | inr g' => grouped_push_all g' rest
      end
  end.

(** The grouping as the callback computes it on the object, or the
    TypeError it raises. *)
Definition group_object (files priority : list OutputStore.OutputFile)
  : string + OutputStore.Grouping :=
  match grouped_push_all [] priority with
  | inl e => inl e
  | inr grouped =>
      let priorityIds := OutputStore.id <$> priority in
      let remainingFiles :=
        take 50 (filter (fun f => OutputStore.id f ∉ priorityIds) files) in
      match grouped_push_all grouped remainingFiles with
      | inl e => inl e
      | inr grouped =>
          inr (own_keys_order
                 ((fun kv : string * list OutputStore.OutputFile =>
                     (kv.1, merge_sort OutputStore.latest_first kv.2)) <$> grouped))
      end
  end.

(** A file whose type is neither a member of [Object.prototype] nor an
    array index: on such files [OutputStore.group_outputs] is what the
    callback computes. *)
Definition ordinary_type (f : OutputStore.OutputFile) : Prop :=
  (OutputStore.type_key f ∉ OBJECT_PROTOTYPE_KEYS) ∧
  index_of (OutputStore.type_key f) = None.

#[global] Instance ordinary_type_dec f : Decision (ordinary_type f).
Proof. unfold ordinary_type. apply _. Defined.

(** * Properties *)

(** ** The ISO rendering is ordered like the instants *)
Module IsoFacts.
Import Iso.

Lemma DayFromYear_bounds (y : Z) :
  146097 * (y - 1970) - 607 <= 400 * DayFromYear y <= 146097 * (y - 1970) + 593.
Proof. unfold DayFromYear. Z.div_mod_to_equations. lia. Qed.

Lemma DayFromYear_step (y : Z) : 365 <= DayFromYear (y + 1) - DayFromYear y <= 366.
Proof. unfold DayFromYear. Z.div_mod_to_equations. lia. Qed.

Lemma DayFromYear_mono (y y' : Z) : y <= y' → DayFromYear y <= DayFromYear y'.
Proof. unfold DayFromYear. intros H. Z.div_mod_to_equations. lia. Qed.

(** [YearFromDay] is the year of the day. *)
Lemma YearFromDay_spec (d : Z) :
  DayFromYear (YearFromDay d) <= d < DayFromYear (YearFromDay d + 1).
Proof.
  unfold YearFromDay. set (y := 1970 + 400 * d / 146097).
  assert (Hy : 146097 * (y - 1970) <= 400 * d < 146097 * (y - 1970) + 146097).
  { unfold y. Z.div_mod_to_equations. lia. }
  pose proof (DayFromYear_bounds (y - 1)). pose proof (DayFromYear_bounds (y + 2)).
  destruct (d <? DayFromYear y) eqn:E1.
  - apply Z.ltb_lt in E1. replace (y - 1 + 1) with y by lia. lia.
  - apply Z.ltb_ge in E1. destruct (DayFromYear (y + 1) <=? d) eqn:E2.
    + apply Z.leb_le in E2. replace (y + 1 + 1) with (y + 2) by lia. lia.
    + apply Z.leb_gt in E2. lia.
Qed.

Lemma year_unique (d d' y y' : Z) :
  DayFromYear y <= d < DayFromYear (y + 1) →
  DayFromYear y' <= d' < DayFromYear (y' + 1) →
  d <= d' → y <= y'.
Proof.
  intros H H' Hd. destruct (decide (y <= y')) as [|Hn]; [done|]. exfalso.
  pose proof (DayFromYear_mono (y' + 1) y ltac:(lia)). lia.
Qed.

Lemma plain_year (t : Z) : plain t → 0 <= YearFromDay (Day t) <= 9999.
Proof.
  unfold plain, YEAR_0000, YEAR_10000. intros Ht.
  pose proof (YearFromDay_spec (Day t)) as Hs.
  assert (Hd : DayFromYear 0 <= Day t < DayFromYear 10000).
  { change (DayFromYear 0) with (-719528). change (DayFromYear 10000) with 2932897.
    unfold Day, msPerDay. Z.div_mod_to_equations. lia. }
  split.
  - destruct (decide (0 <= YearFromDay (Day t))) as [|Hn]; [done|]. exfalso.
    pose proof (DayFromYear_mono (YearFromDay (Day t) + 1) 0 ltac:(lia)). lia.
  - destruct (decide (YearFromDay (Day t) <= 9999)) as [|Hn]; [done|]. exfalso.
    pose proof (DayFromYear_mono 10000 (YearFromDay (Day t)) ltac:(lia)). lia.
Qed.

Lemma year_plain (t : Z) : 0 <= YearFromDay (Day t) <= 9999 → plain t.
Proof.
  intros Hy. pose proof (YearFromDay_spec (Day t)) as Hs.
  pose proof (DayFromYear_mono 0 (YearFromDay (Day t)) ltac:(lia)) as H0.
  pose proof (DayFromYear_mono (YearFromDay (Day t) + 1) 10000 ltac:(lia)) as H1.
  change (DayFromYear 0) with (-719528) in H0.
  change (DayFromYear 10000) with 2932897 in H1.
  assert (Hd : -719528 <= Day t < 2932897) by lia. clear - Hd.
  unfold plain, YEAR_0000, YEAR_10000. unfold Day, msPerDay in Hd.
  Z.div_mod_to_equations. lia.
Qed.

Lemma InLeapYear_range (y : Z) : 0 <= InLeapYear y <= 1.
Proof. unfold InLeapYear. destruct (_ && _); lia. Qed.

Ltac split_table :=
  repeat (match goal with
          | |- context [if ?a <? ?b then _ else _] => destruct (Z.ltb_spec a b)
          end; cbv iota).

Lemma month_date_range (leap dw : Z) :
  0 <= leap <= 1 → 0 <= dw <= 365 →
  0 <= MonthFromDay dw leap <= 11 ∧ 1 <= DateFromDay dw leap <= 32.
Proof. intros Hl Hd. unfold MonthFromDay, DateFromDay. split_table; lia. Qed.

Lemma month_date_mono (leap dw1 dw2 : Z) :
  0 <= leap <= 1 → 0 <= dw1 <= dw2 →
  MonthFromDay dw1 leap < MonthFromDay dw2 leap ∨
  (MonthFromDay dw1 leap = MonthFromDay dw2 leap ∧
   DateFromDay dw2 leap - DateFromDay dw1 leap = dw2 - dw1).
Proof. intros Hl Hd. unfold MonthFromDay, DateFromDay. split_table; lia. Qed.

Lemma time_fields (t : Z) :
  0 <= HourFromTime t < 24 ∧ 0 <= MinFromTime t < 60 ∧ 0 <= SecFromTime t < 60 ∧
  0 <= msFromTime t < 1000 ∧
  t = Day t * 86400000 + HourFromTime t * 3600000 + MinFromTime t * 60000
      + SecFromTime t * 1000 + msFromTime t.
Proof.
  unfold HourFromTime, MinFromTime, SecFromTime, msFromTime, Day, msPerDay.
  Z.div_mod_to_equations. lia.
Qed.

(** *** Comparing the rendered fields *)

Lemma compare_digit (a b : Z) :
  0 <= a <= 9 → 0 <= b <= 9 → Ascii.compare (digit a) (digit b) = (a ?= b).
Proof.
  intros Ha Hb. unfold Ascii.compare, digit.
  rewrite !N_ascii_embedding by lia.
  destruct (Z.compare_spec a b) as [E|E|E].
  - subst. apply N.compare_refl.
  - apply N.compare_lt_iff. lia.
  - apply N.compare_gt_iff. lia.
Qed.

Lemma compare_same_char (c : ascii) (r1 r2 : string) :
  String.compare (String c r1) (String c r2) = String.compare r1 r2.
Proof.
  cbn [String.compare]. unfold Ascii.compare. by rewrite N.compare_refl.
Qed.

Lemma compare_refl_string (s : string) : String.compare s s = Eq.
Proof. induction s as [|c s IH]; [done|]. by rewrite compare_same_char. Qed.

Lemma compare_pad (w : nat) :
  ∀ x y r1 r2, 0 <= x < 10 ^ Z.of_nat w → 0 <= y < 10 ^ Z.of_nat w →
    String.compare (pad w x +:+ r1) (pad w y +:+ r2) =
      match x ?= y with Eq => String.compare r1 r2 | c => c end.
Proof.
  induction w as [|w IH]; intros x y r1 r2 Hx Hy.
  - change (10 ^ Z.of_nat 0) with 1 in *. assert (x = 0) as -> by lia.
    assert (y = 0) as -> by lia. done.
  - rewrite Nat2Z.inj_succ, Z.pow_succ_r in Hx, Hy by lia.
    cbn [pad]. set (P := 10 ^ Z.of_nat w) in *.
    assert (HP : 0 < P) by (apply Z.pow_pos_nonneg; lia).
    pose proof (Z.div_mod x P ltac:(lia)) as Ex.
    pose proof (Z.div_mod y P ltac:(lia)) as Ey.
    pose proof (Z.mod_pos_bound x P HP) as Bx.
    pose proof (Z.mod_pos_bound y P HP) as By.
    assert (Qx : 0 <= x / P <= 9).
    { split; [apply Z.div_pos; lia|]. apply Z.lt_succ_r, Z.div_lt_upper_bound; lia. }
    assert (Qy : 0 <= y / P <= 9).
    { split; [apply Z.div_pos; lia|]. apply Z.lt_succ_r, Z.div_lt_upper_bound; lia. }
    change (String (digit (x / P)) (pad w (x mod P)) +:+ r1)
      with (String (digit (x / P)) (pad w (x mod P) +:+ r1)).
    change (String (digit (y / P)) (pad w (y mod P)) +:+ r2)
      with (String (digit (y / P)) (pad w (y mod P) +:+ r2)).
    cbn [String.compare]. rewrite compare_digit by done.
    rewrite IH by done.
    destruct (Z.compare_spec (x / P) (y / P)) as [E|E|E].
    + rewrite E in Ex. destruct (Z.compare_spec (x mod P) (y mod P)) as [F|F|F].
      * assert (x = y) as -> by lia. by rewrite Z.compare_refl.
      * assert (x < y) as ->%Z.compare_lt_iff by lia. done.
      * assert (y < x) as ->%Z.compare_gt_iff by lia. done.
    + assert (x < y) as ->%Z.compare_lt_iff by nia. done.
    + assert (y < x) as ->%Z.compare_gt_iff by nia. done.
Qed.

Lemma sep (c : ascii) (r : string) : String c "" +:+ r = String c r.
Proof. reflexivity. Qed.

(** The text of the years 0000 to 9999 is ordered as the instants are. *)
Lemma toISOString_compare_lt (t1 t2 : Z) :
  plain t1 → plain t2 → t1 < t2 →
  String.compare (toISOString t1) (toISOString t2) = Lt.
Proof.
  intros P1 P2 Hlt.
  pose proof (plain_year t1 P1) as Y1. pose proof (plain_year t2 P2) as Y2.
  pose proof (YearFromDay_spec (Day t1)) as S1.
  pose proof (YearFromDay_spec (Day t2)) as S2.
  pose proof (time_fields t1) as (Hh1 & Hm1 & Hs1 & Hms1 & E1).
  pose proof (time_fields t2) as (Hh2 & Hm2 & Hs2 & Hms2 & E2).
  assert (Hd : Day t1 <= Day t2).
  { unfold Day, msPerDay. apply Z.div_le_mono; lia. }
  pose proof (year_unique _ _ _ _ S1 S2 Hd) as Hy.
  pose proof (DayFromYear_step (YearFromDay (Day t1))) as St1.
  pose proof (DayFromYear_step (YearFromDay (Day t2))) as St2.
  pose proof (InLeapYear_range (YearFromDay (Day t1))) as L1.
  pose proof (InLeapYear_range (YearFromDay (Day t2))) as L2.
  unfold toISOString.
  set (y1 := YearFromDay (Day t1)) in *. set (y2 := YearFromDay (Day t2)) in *.
  set (dw1 := Day t1 - DayFromYear y1). set (dw2 := Day t2 - DayFromYear y2).
  assert (R1 : 0 <= dw1 <= 365) by (unfold dw1; lia).
  assert (R2 : 0 <= dw2 <= 365) by (unfold dw2; lia).
  pose proof (month_date_range _ _ L1 R1) as [M1 D1].
  pose proof (month_date_range _ _ L2 R2) as [M2 D2].
  unfold year_text.
  rewrite (proj2 (andb_true_iff _ _)) by (split; [apply Z.leb_le | apply Z.leb_le]; lia).
  rewrite (proj2 (andb_true_iff (0 <=? y2) _))
    by (split; [apply Z.leb_le | apply Z.leb_le]; lia).
  rewrite !sep.
  rewrite compare_pad by (change (10 ^ Z.of_nat 4) with 10000; lia).
  destruct (Z.compare_spec y1 y2) as [Ey|Ey|Ey]; [|done|lia].
  rewrite compare_same_char.
  rewrite compare_pad by (change (10 ^ Z.of_nat 2) with 100; lia).
  assert (Hdw : dw1 <= dw2) by (unfold dw1, dw2; rewrite Ey; lia).
  pose proof (month_date_mono (InLeapYear y1) dw1 dw2 L1 ltac:(lia)) as Hmd.
  assert (Hdfy : DayFromYear y1 = DayFromYear y2) by (by rewrite Ey).
  rewrite <- Ey. rewrite <- Ey in M2, D2.
  destruct (Z.compare_spec (MonthFromDay dw1 (InLeapYear y1) + 1)
                           (MonthFromDay dw2 (InLeapYear y1) + 1)) as [Em|Em|Em];
    [|done|lia].
  rewrite compare_same_char.
  rewrite compare_pad by (change (10 ^ Z.of_nat 2) with 100; lia).
  destruct (Z.compare_spec (DateFromDay dw1 (InLeapYear y1))
                           (DateFromDay dw2 (InLeapYear y1))) as [Ed|Ed|Ed];
    [|done|lia].
  assert (Hday : Day t1 = Day t2) by (unfold dw1, dw2 in *; lia).
  rewrite compare_same_char.
  rewrite compare_pad by (change (10 ^ Z.of_nat 2) with 100; lia).
  destruct (Z.compare_spec (HourFromTime t1) (HourFromTime t2)) as [Eh|Eh|Eh];
    [|done|lia].
  rewrite compare_same_char.
  rewrite compare_pad by (change (10 ^ Z.of_nat 2) with 100; lia).
  destruct (Z.compare_spec (MinFromTime t1) (MinFromTime t2)) as [Emi|Emi|Emi];
    [|done|lia].
  rewrite compare_same_char.
  rewrite compare_pad by (change (10 ^ Z.of_nat 2) with 100; lia).
  destruct (Z.compare_spec (SecFromTime t1) (SecFromTime t2)) as [Es|Es|Es];
    [|done|lia].
  rewrite compare_same_char.
  rewrite compare_pad by (change (10 ^ Z.of_nat 3) with 1000; lia).
  destruct (Z.compare_spec (msFromTime t1) (msFromTime t2)) as [Ems|Ems|Ems];
    [lia|done|lia].
Qed.

(** Between texts of the years 0000 to 9999 the order of SQLite is the
    order of the instants. *)
Lemma text_lt_plain (t1 t2 : Z) :
  plain t1 → plain t2 → (text_lt (toISOString t1) (toISOString t2) ↔ t1 < t2).
Proof.
  intros P1 P2. unfold text_lt, String.ltb. split.
  - intros H. destruct (decide (t1 < t2)) as [|Hn]; [done|]. exfalso.
    destruct (decide (t1 = t2)) as [->|Hne].
    + by rewrite compare_refl_string in H.
    + rewrite String.compare_antisym in H.
      rewrite (toISOString_compare_lt t2 t1) in H by (done || lia). done.
  - intros H. by rewrite toISOString_compare_lt.
Qed.

(** A text with an expanded year begins with a sign, which sorts before
    every digit: no text of the years 0000 to 9999 is before it. *)
Lemma text_lt_expanded (t1 t2 : Z) :
  plain t1 → ¬ plain t2 → ¬ text_lt (toISOString t1) (toISOString t2).
Proof.
  intros P1 P2. unfold text_lt, String.ltb, toISOString, year_text.
  pose proof (plain_year t1 P1) as Y1.
  assert (Y2 : ¬ 0 <= YearFromDay (Day t2) <= 9999) by (intros H; by apply P2, year_plain).
  rewrite (proj2 (andb_true_iff _ _)) by (split; [apply Z.leb_le | apply Z.leb_le]; lia).
  destruct ((0 <=? YearFromDay (Day t2)) && (YearFromDay (Day t2) <=? 9999)) eqn:E.
  { apply andb_true_iff in E as [?%Z.leb_le ?%Z.leb_le]. lia. }
  set (y1 := YearFromDay (Day t1)) in *.
  assert (Q : 0 <= y1 / 1000 <= 9).
  { split; [apply Z.div_pos; lia|]. apply Z.lt_succ_r, Z.div_lt_upper_bound; lia. }
  assert (Hdigit : ∀ c r1 r2, (c = "+"%char ∨ c = "-"%char) →
             String.compare (pad 4 y1 +:+ r1) (String c r2) = Gt).
  { intros c r1 r2 Hc. cbn [pad]. change (10 ^ Z.of_nat 3) with 1000.
    change (String (digit (y1 / 1000)) ?s +:+ r1)
      with (String (digit (y1 / 1000)) (s +:+ r1)).
    cbn [String.compare]. unfold Ascii.compare, digit.
    rewrite N_ascii_embedding by lia.
    assert (Hgt : (48 + Z.to_N (y1 / 1000) ?= N_of_ascii c)%N = Gt).
    { apply N.compare_gt_iff. destruct Hc as [-> | ->]; cbn; lia. }
    by rewrite Hgt. }
  destruct (YearFromDay (Day t2) <? 0).
  - change (("-" +:+ ?p) +:+ ?r) with (String "-" (p +:+ r)).
    rewrite (Hdigit "-"%char); [done | by right].
  - change (("+" +:+ ?p) +:+ ?r) with (String "+" (p +:+ r)).
    rewrite (Hdigit "+"%char); [done | by left].
Qed.

End IsoFacts.

(** ** Retention sweep *)
Module OutputModelFacts.
Import OutputModel.

Lemma elem_of_set_add (s : list string) (x y : string) :
  x ∈ set_add s y ↔ x ∈ s ∨ x = y.
Proof.
  unfold set_add. case_decide; set_solver.
Qed.

Lemma elem_of_foldl_set_add (l s : list string) (x : string) :
  x ∈ foldl set_add s l ↔ x ∈ s ∨ x ∈ l.
Proof.
  revert s. induction l as [|y l IH]; intros s; simpl.
  - set_solver.
  - rewrite IH, elem_of_set_add. set_solver.
Qed.

Lemma NoDup_set_add (s : list string) (y : string) : NoDup s → NoDup (set_add s y).
Proof.
  intros Hs. unfold set_add. case_decide; [done|].
  apply NoDup_app. split_and!; [done | set_solver | apply NoDup_singleton].
Qed.

Lemma NoDup_foldl_set_add (l s : list string) : NoDup s → NoDup (foldl set_add s l).
Proof.
  revert s. induction l as [|y l IH]; intros s Hs; simpl; [done|].
  apply IH, NoDup_set_add, Hs.
Qed.

(** The loop [outputIdsToDelete.forEach(...)]: only the outputs table
    changes, every listed id is gone, every other row stays, and the
    counter advances once per id. *)
(** One [OutputModel.delete(id)]. *)
Lemma delete_lookup (db : Database) (i : string) :
  automations (delete db i).1 = automations db ∧
  logs (delete db i).1 = logs db ∧
  ∀ k, outputs (delete db i).1 !! k = if decide (k = i) then None else outputs db !! k.
Proof.
  unfold delete, getById. destruct (outputs db !! i) eqn:E; cbn.
  - split_and!; [done | done |]. intros k. destruct (decide (k = i)) as [->|Hk].
    + apply lookup_delete_eq.
    + by apply lookup_delete_ne.
  - split_and!; [done | done |]. intros k. destruct (decide (k = i)) as [->|Hk]; done.
Qed.

(** The loop [outputIdsToDelete.forEach(...)]: only the outputs table
    changes, every listed id is gone, every other row stays, and the
    counter advances once per id. *)
Lemma foldl_delete_and_count (ids : list string) (db : Database) (n : Z) :
  let r := foldl delete_and_count (db, n) ids in
  automations r.1 = automations db ∧
  logs r.1 = logs db ∧
  (∀ k, outputs r.1 !! k = if decide (k ∈ ids) then None else outputs db !! k) ∧
  r.2 = n + Z.of_nat (length ids).
Proof.
  cbv zeta. revert db n. induction ids as [|i ids IH]; intros db n.
  - cbn [foldl fst snd]. split_and!; [done | done | | cbn; lia].
    intros k. rewrite decide_False; [done | set_solver].
  - cbn [foldl]. unfold delete_and_count at 2 4 6 8. cbn [fst snd].
    destruct (IH (delete db i).1 (n + 1)) as (Ha & Hl & Ho & Hn).
    destruct (delete_lookup db i) as (Ha' & Hl' & Ho').
    split_and!.
    + by rewrite Ha.
    + by rewrite Hl.
    + intros k. rewrite Ho, Ho'.
      destruct (decide (k = i)) as [->|Hne].
      * rewrite (decide_True (P := i ∈ i :: ids)) by set_solver. by case_decide.
      * destruct (decide (k ∈ ids)).
        -- by rewrite decide_True by set_solver.
        -- by rewrite decide_False by set_solver.
    + rewrite Hn. cbn [length]. lia.
Qed.

Lemma NoDup_fst_filter {A} (P : string * A → Prop) `{!∀ x, Decision (P x)}
    (l : list (string * A)) :
  NoDup l.*1 → NoDup (filter P l).*1.
Proof.
  intros Hnd. eapply sublist_NoDup; [exact Hnd |].
  apply fmap_sublist, sublist_filter.
Qed.

(** Counting the rows a [SELECT ... WHERE] returns. *)
Lemma length_filter_map_to_list {A} (P : string * A → Prop) `{!∀ x, Decision (P x)}
    (m : gmap string A) :
  length (filter P (map_to_list m)) = size (filter P m).
Proof.
  rewrite map_filter_alt, map_size_list_to_map; [done|].
  apply NoDup_fst_filter, NoDup_fst_map_to_list.
Qed.

(** The ids collected in [outputIdsToDelete] are those of the doomed
    rows. *)
Lemma elem_of_outputIdsToDelete (m : gmap string OutputRow) (cutoff : string) (k : string) :
  k ∈ foldl set_add []
        ((filter (is_old cutoff) (map_to_list m) ++ filter not_screenshot (map_to_list m)).*1)
  ↔ ∃ row, m !! k = Some row ∧ doomed cutoff (k, row).
Proof.
  rewrite elem_of_foldl_set_add, list_elem_of_fmap. split.
  - intros [Hnil | ([k' row] & -> & Hin)]; [set_solver|].
    exists row. rewrite elem_of_app, !list_elem_of_filter, !elem_of_map_to_list in Hin.
    unfold doomed. cbn. naive_solver.
  - intros (row & Hk & Hd). right. exists (k, row). split; [done|].
    rewrite elem_of_app, !list_elem_of_filter, !elem_of_map_to_list.
    unfold doomed in Hd. naive_solver.
Qed.

Lemma length_outputIdsToDelete (m : gmap string OutputRow) (cutoff : string) :
  length (foldl set_add []
        ((filter (is_old cutoff) (map_to_list m) ++ filter not_screenshot (map_to_list m)).*1))
  = size (filter (doomed cutoff) m).
Proof.
  rewrite <- length_map_to_list, <- (length_fmap fst (map_to_list _)).
  apply Permutation_length, NoDup_Permutation.
  - apply NoDup_foldl_set_add, NoDup_nil_2.
  - apply NoDup_fst_map_to_list.
  - intros k. rewrite elem_of_outputIdsToDelete, list_elem_of_fmap. split.
    + intros (row & Hk & Hd). exists (k, row). split; [done|].
      by rewrite elem_of_map_to_list, map_lookup_filter_Some.
    + intros ([k' row] & -> & Hin).
      rewrite elem_of_map_to_list, map_lookup_filter_Some in Hin. by exists row.
Qed.

(** What the statements after the cutoff do, for any cutoff text: a stored
    row is gone exactly when its text is before the cutoff or its type is
    not "screenshot", the other rows stay as they were, nothing is added,
    and the three counters are the numbers of such rows. *)
Lemma sweep_rows (db : Database) (cutoff : string) :
  let r := sweep db cutoff in
  (∀ id row, outputs db !! id = Some row →
     (outputs r.1 !! id = None ↔ is_old cutoff (id, row) ∨ not_screenshot (id, row)) ∧
     (outputs r.1 !! id = Some row ↔
        ¬ is_old cutoff (id, row) ∧ o_type row = "screenshot")) ∧
  (∀ id, outputs db !! id = None → outputs r.1 !! id = None) ∧
  deleted r.2 = Z.of_nat (size (filter (doomed cutoff) (outputs db))) ∧
  oldOutputsRemoved r.2 = Z.of_nat (size (filter (is_old cutoff) (outputs db))) ∧
  nonScreenshotsRemoved r.2 = Z.of_nat (size (filter not_screenshot (outputs db))).
Proof.
  cbv zeta. unfold sweep.
  set (ids := foldl set_add [] _).
  pose proof (foldl_delete_and_count ids db 0) as Hloop. cbv zeta in Hloop.
  destruct (foldl delete_and_count (db, 0) ids) as [db' n] eqn:E.
  cbn [fst snd] in *. destruct Hloop as (_ & _ & Ho & Hn).
  cbn [deleted oldOutputsRemoved nonScreenshotsRemoved].
  split_and!.
  - intros id row Hrow. rewrite Ho.
    destruct (decide (id ∈ ids)) as [Hin|Hnin].
    + apply elem_of_outputIdsToDelete in Hin as (row' & Hrow' & Hd).
      assert (row' = row) as -> by congruence.
      unfold doomed, not_screenshot in Hd. cbn in Hd.
      split; [tauto|]. split; [congruence|]. intros [? ?]. tauto.
    + assert (¬ doomed cutoff (id, row)) as Hnd.
      { intros Hd. apply Hnin, elem_of_outputIdsToDelete. eauto. }
      unfold doomed, not_screenshot in Hnd. cbn in Hnd.
      split; [split; [congruence | tauto]|].
      split; [|done]. intros _. split; [tauto|].
      destruct (decide (o_type row = "screenshot")); tauto.
  - intros id Hnone. rewrite Ho, Hnone. by case_decide.
  - rewrite Hn. subst ids. rewrite length_outputIdsToDelete. lia.
  - by rewrite length_filter_map_to_list.
  - by rewrite length_filter_map_to_list.
Qed.

(** The comparison of the two texts is the comparison of the instants,
    for a row of the years 0000 to 9999 and a cutoff before the year
    10000. *)
Lemma is_old_instant (cutoff : Z) (id : string) (row : OutputRow) :
  Iso.plain (o_timestamp row) → cutoff < Iso.YEAR_10000 →
  (is_old (Iso.toISOString cutoff) (id, row) ↔ o_timestamp row < cutoff).
Proof.
  intros Hp Hc. unfold is_old. cbn [snd].
  destruct (decide (Iso.plain cutoff)) as [Hpc|Hnp].
  - by apply IsoFacts.text_lt_plain.
  - split.
    + intros H. by apply IsoFacts.text_lt_expanded in H.
    + intros Hlt. exfalso. apply Hnp. unfold Iso.plain in *. lia.
Qed.




(** A cutoff of the year 10000 or later is rendered with a sign and six
    digits of year, and no text of the years 0000 to 9999 sorts before such
    a text: with negative [days] far enough in the future the sweep finds
    no row old, and removes by type only. *)
Lemma cleanupOldOutputs_expanded_cutoff (zone : Zone) (db : Database) (now days : Z) :
  Iso.YEAR_10000 <= cutoffDate zone now days <= Iso.TIME_CLIP →
  stamps_plain db →
  ∃ r, cleanupOldOutputs zone db now days = inr r ∧
    oldOutputsRemoved r.2 = 0 ∧
    ∀ id row, outputs db !! id = Some row →
      (outputs r.1 !! id = None ↔ o_type row ≠ "screenshot").
Proof.
  intros Hrange Hplain.
  set (u := cutoffDate zone now days) in *.
  assert (Hvalid : Iso.valid u = true).
  { unfold Iso.valid. apply Z.leb_le.
    unfold Iso.TIME_CLIP, Iso.YEAR_10000 in *. lia. }
  unfold cleanupOldOutputs, cutoffTimestamp. fold u. rewrite Hvalid.
  eexists. split; [reflexivity|].
  destruct (sweep_rows db (Iso.toISOString u)) as (Hrows & _ & _ & Ho & _).
  assert (Hold : ∀ id row, outputs db !! id = Some row →
             ¬ is_old (Iso.toISOString u) (id, row)).
  { intros id row Hrow. unfold is_old. cbn [snd].
    apply IsoFacts.text_lt_expanded; [by apply (Hplain id)|].
    unfold Iso.plain. lia. }
  split.
  - rewrite Ho.
    replace (filter (is_old (Iso.toISOString u)) (outputs db)) with (∅ : gmap string OutputRow);
      [done|].
    symmetry. apply map_empty_filter_2. intros id row Hrow. by apply Hold.
  - intros id row Hrow. destruct (Hrows id row Hrow) as [H1 _].
    rewrite H1. unfold not_screenshot. cbn [snd].
    pose proof (Hold id row Hrow). tauto.
Qed.

(** A cutoff outside the range of [Date] makes [toISOString] raise, on
    every store. *)
Lemma cleanupOldOutputs_invalid_cutoff (zone : Zone) (db : Database) (now days : Z) :
  Iso.TIME_CLIP < Z.abs (cutoffDate zone now days) →
  cleanupOldOutputs zone db now days = inl RANGE_ERROR.
Proof.
  intros Hout. unfold cleanupOldOutputs, cutoffTimestamp, Iso.valid.
  by rewrite (proj2 (Z.leb_gt _ _) Hout).
Qed.

End OutputModelFacts.

(** ** Paginated listing *)
Module ListingFacts.
Import OutputModel.

#[global] Instance newer_first_total : Total newer_first.
Proof. intros a b. unfold newer_first. lia. Qed.

#[global] Instance newer_first_trans : Transitive newer_first.
Proof. intros a b c. unfold newer_first. lia. Qed.

Lemma StronglySorted_sublist {A} (R : relation A) (k l : list A) :
  k `sublist_of` l → StronglySorted R l → StronglySorted R k.
Proof.
  induction 1 as [|x k l Hsub IH|x k l Hsub IH]; intros Hl.
  - constructor.
  - apply StronglySorted_inv in Hl as [Hl Hx]. constructor; [by apply IH|].
    eapply Forall_forall. intros y Hy. eapply Forall_forall in Hx; [exact Hx|].
    eapply elem_of_sublist; [exact Hy|exact Hsub].
  - apply StronglySorted_inv in Hl as [Hl _]. by apply IH.
Qed.

Lemma limit_offset_sublist {A} (limit offset : Z) (rows : list A) :
  limit_offset limit offset rows `sublist_of` rows.
Proof.
  unfold limit_offset. destruct (limit <? 0).
  - apply sublist_drop.
  - etrans; [apply sublist_take | apply sublist_drop].
Qed.

(** What a page holds is in timestamp-descending order, and nothing but
    stored rows. *)
Lemma getAll_descending (db : Database) (page limit skip : Z) :
  StronglySorted newer_first (files (getAll db page limit skip)) ∧
  ∀ o, o ∈ files (getAll db page limit skip) → outputs db !! o.1 = Some o.2.
Proof.
  cbn. split.
  - eapply StronglySorted_sublist; [apply limit_offset_sublist|].
    apply StronglySorted_merge_sort; apply _.
  - intros o Ho. apply elem_of_map_to_list'.
    rewrite <- (merge_sort_Permutation newer_first).
    eapply elem_of_sublist; [exact Ho | apply limit_offset_sublist].
Qed.

(** With the offsets in range a page is the window of [limit] rows that
    starts [(page - 1) * limit + skip] rows into the ordered table. *)
Lemma getAll_window (db : Database) (page limit skip : Z) :
  1 <= page → 0 <= limit → 0 <= skip →
  files (getAll db page limit skip) =
    take (Z.to_nat limit) (drop (Z.to_nat ((page - 1) * limit + skip)) (ordered db)).
Proof.
  intros Hp Hl Hs. cbn. unfold limit_offset.
  destruct (limit <? 0) eqn:E; [lia | done].
Qed.

(** Page 1 followed by page 2 (same limit, no skip) is the first [2 L]
    rows of the ordered table: contiguous and without a repeat. *)
Lemma first_two_pages (db : Database) (L : Z) :
  0 <= L →
  files (getAll db 1 L 0) ++ files (getAll db 2 L 0) =
    take (Z.to_nat (2 * L)) (ordered db) ∧
  NoDup (files (getAll db 1 L 0) ++ files (getAll db 2 L 0)).
Proof.
  intros HL.
  assert (Heq : files (getAll db 1 L 0) ++ files (getAll db 2 L 0) =
                take (Z.to_nat (2 * L)) (ordered db)).
  { rewrite !getAll_window by lia.
    replace (Z.to_nat ((1 - 1) * L + 0)) with 0%nat by lia.
    replace (Z.to_nat ((2 - 1) * L + 0)) with (Z.to_nat L) by lia.
    replace (Z.to_nat (2 * L)) with (Z.to_nat L + Z.to_nat L)%nat by lia.
    cbn [drop]. apply take_take_drop. }
  split; [done|]. rewrite Heq.
  eapply sublist_NoDup; [|apply sublist_take].
  unfold ordered. rewrite merge_sort_Permutation. apply NoDup_map_to_list.
Qed.

(** Without [skip], a page that starts at or past the total is empty and
    is reported as the last one. *)
Lemma get_outputs_past_total_no_skip (db : Database) (page limit : Z) :
  1 <= page → 1 <= limit →
  Z.of_nat (size (outputs db)) <= (page - 1) * limit →
  let r := Server.get_outputs db (Some page) (Some limit) None in
  Server.files r = [] ∧ Server.hasMore r = false.
Proof.
  intros Hp Hl Hpast. cbv zeta. unfold Server.get_outputs, Server.or_default.
  rewrite !(proj2 (Z.eqb_neq _ 0)) by lia. cbn [Server.files Server.hasMore].
  split.
  - rewrite getAll_window by lia. rewrite drop_ge; [by rewrite take_nil|].
    unfold ordered. rewrite merge_sort_Permutation, length_map_to_list. lia.
  - cbn. apply Z.ltb_ge. nia.
Qed.

(** C5, at the request [page=1, limit=2, skip=5] on a store of three
    artifacts.  The offset [(1-1)*2+5 = 5] is past the total [3] and the
    files list is empty, yet [hasMore] is [true]: the handler computes it
    as [page * limit < total], which leaves [skip] out. *)
Theorem get_outputs_skip_past_total_reports_more :
  let r := Server.get_outputs Samples.db_three (Some 1) (Some 2) (Some 5) in
  Server.total r = 3 ∧ Server.files r = [] ∧ Server.hasMore r = true.
Proof. vm_compute. done. Qed.

End ListingFacts.

(** ** The run handler *)
Module RunFacts.
Import Server.

(** *** What logCapture accumulates *)

Lemma sent_foldl_logCapture (calls : list (list string)) (st : Capture) :
  sent (foldl logCapture st calls) = sent st ++ log_events calls.
Proof.
  revert st. induction calls as [|c calls IH]; intros st; cbn [foldl].
  - by rewrite app_nil_r.
  - rewrite IH. cbn. by rewrite <- app_assoc.
Qed.

Lemma hint_foldl_logCapture (calls : list (list string)) (st : Capture) :
  hint (foldl logCapture st calls) =
    match last_hint calls with Some f => Some f | None => hint st end.
Proof.
  revert st. induction calls as [|c calls IH]; intros st; cbn [foldl]; [done|].
  rewrite IH. unfold last_hint. cbn [omap list_omap logCapture hint].
  destruct (scrape (Text.join " " c)) as [f|] eqn:E; [|done].
  destruct (omap _ calls) as [|g rest] eqn:E'; [done|].
  rewrite last_cons_cons.
  destruct (last (g :: rest)) eqn:El; [done|]. by apply last_None in El.
Qed.

Lemma last_log_events_not_complete (evs : list Event) (calls : list (list string)) :
  match last evs with Some (EvComplete _) => False | _ => True end →
  match last (evs ++ log_events calls) with Some (EvComplete _) => False | _ => True end.
Proof.
  intros H. induction calls as [|c calls IH] using rev_ind.
  - by rewrite app_nil_r.
  - unfold log_events. rewrite fmap_app. cbn [fmap list_fmap].
    rewrite app_assoc, last_snoc. done.
Qed.

(** While the script runs the stream holds the status event and the log
    events, and never a complete event. *)
Lemma last_sent_not_complete (calls : list (list string)) :
  match last (sent (foldl logCapture started calls)) with
  | Some (EvComplete _) => False
  | _ => True
  end.
Proof.
  rewrite sent_foldl_logCapture. by apply last_log_events_not_complete.
Qed.

(** *** The failure handler *)

(** It ends in one of two ways: the outer catch with nothing added to the
    stream, or a failed log entry, a complete event with success=false and
    the end of the stream. *)
Lemma fail_run_cases (db : Database) (id : string) (env : Env) (st : Capture)
    (message : string) :
  (∃ m db', fail_run db id env st message =
             {| reply := Streamed (sent st) (SetupError m); db_after := db' |}) ∨
  (∃ db', fail_run db id env st message =
          {| reply := Streamed
               (sent st ++ [EvComplete (Errored message ("Error: " +:+ message))]) Ended;
             db_after := db' |}).
Proof.
  unfold fail_run. destruct (AutomationModel.getById _ id); [|eauto].
  destruct (LogModel.create _ _ _ _); eauto.
Qed.

Lemma fail_run_not_success (db : Database) (id : string) (env : Env) (st : Capture)
    (message : string) :
  match last (sent st) with Some (EvComplete _) => False | _ => True end →
  terminal_success (fail_run db id env st message) ≠ Some true.
Proof.
  intros Hst.
  destruct (fail_run_cases db id env st message) as [(m & db' & ->) | (db' & ->)];
    unfold terminal_success; cbn.
  - destruct (last (sent st)) as [[]|]; done.
  - by rewrite last_snoc.
Qed.

(** *** Errors while persisting *)

Lemma same_verdict_outcome (r r' : RunResult) (id : string) :
  same_verdict r r' →
  terminal_success r = terminal_success r' ∧ final_status r id = final_status r' id.
Proof.
  intros (Hr & Ha & _). unfold terminal_success, events_of, final_status.
  by rewrite Hr, Ha.
Qed.

Lemma create_log_same_core (db db' : Database) (fault : bool) (k : string) (row : LogRow) :
  same_core db db' →
  match LogModel.create db fault k row, LogModel.create db' fault k row with
  | inl e, inl e' => e = e'
  | inr d, inr d' => same_core d d'
  | _, _ => False
  end.
Proof.
  intros [Ha Hl]. unfold LogModel.create. rewrite <- Ha, <- Hl.
  repeat case_match; simplify_eq; done.
Qed.

Lemma fail_run_same_core (db db' : Database) (id : string) (env : Env) (st : Capture)
    (message : string) (i t : Z) (f : bool) :
  same_core db db' →
  same_verdict (fail_run db id env st message)
               (fail_run db' id (with_artifact env i t f) st message).
Proof.
  intros [Ha Hl]. unfold fail_run.
  assert (Hst : same_core (AutomationModel.updateStatus db id Failed)
                          (AutomationModel.updateStatus db' id Failed)).
  { split; cbn; [by rewrite Ha | done]. }
  unfold AutomationModel.getById. rewrite <- (proj1 Hst).
  destruct (automations _ !! id) as [automation|]; [|by split].
  cbn [failure_fault failure_now_id failure_now_ts with_artifact].
  match goal with
  | |- context [LogModel.create ?d ?fl ?k ?row] =>
      pose proof (create_log_same_core d (AutomationModel.updateStatus db' id Failed)
                    fl k row Hst) as Hc
  end.
  repeat case_match; simplify_eq; done.
Qed.

Lemma complete_run_same_core (db db' : Database) (id : string) (env : Env) (st : Capture)
    (result : JsResult) (json : string) (i t : Z) (f : bool) :
  same_core db db' →
  same_verdict (complete_run db id env st result json)
               (complete_run db' id (with_artifact env i t f) st result json).
Proof.
  intros [Ha Hl]. unfold complete_run.
  assert (Hst : same_core (AutomationModel.updateStatus db id Completed)
                          (AutomationModel.updateStatus db' id Completed)).
  { split; cbn; [by rewrite Ha | done]. }
  unfold AutomationModel.getById. rewrite <- (proj1 Hst).
  destruct (automations _ !! id) as [automation|]; [|by apply fail_run_same_core].
  unfold format_output.
  cbn [log_fault log_now_id log_now_ts with_artifact executionTime].
  match goal with
  | |- context [LogModel.create ?d ?fl ?k ?row] =>
      pose proof (create_log_same_core d (AutomationModel.updateStatus db' id Completed)
                    fl k row Hst) as Hc
  end.
  repeat case_match; simplify_eq; try done.
  all: by apply fail_run_same_core.
Qed.

Lemma save_screenshot_same_core (db : Database) (id : string) (env : Env)
    (o : ResultObject) (automation : AutomationRow) :
  same_core (save_screenshot db id env o automation) db.
Proof.
  unfold save_screenshot, OutputModel.saveOutput, OutputModel.create.
  repeat case_match; simplify_eq; by split.
Qed.



(** *** What is persisted as an artifact *)

Lemma fail_run_outputs (db : Database) (id : string) (env : Env) (st : Capture)
    (message : string) :
  outputs (db_after (fail_run db id env st message)) = outputs db.
Proof.
  unfold fail_run, LogModel.create. repeat case_match; simplify_eq; done.
Qed.

Lemma complete_run_outputs (db : Database) (id : string) (env : Env) (st : Capture)
    (result : JsResult) (json : string) :
  outputs (db_after (complete_run db id env st result json)) = outputs db.
Proof.
  unfold complete_run, LogModel.create.
  repeat case_match; simplify_eq; try done; by rewrite fail_run_outputs.
Qed.

(** A run whose terminal event says success went through the whole [try]
    block: the script text is there and compiles, and an automation has the
    id. *)
Lemma successful_run_inv (db : Database) (req : RunRequest) (env : Env)
    (result : JsResult) (json : string) :
  settlement (script req) = Resolves result json →
  terminal_success (run_automation db req env) = Some true →
  let db1 := AutomationModel.updateStatus db (id req) Running in
  let st := foldl logCapture started (console_calls (script req)) in
  ∃ db2, store_result db1 (id req) env result = Some db2 ∧
         run_automation db req env = complete_run db2 (id req) env st result json ∧
         (truthy result = true → is_Some (automations db1 !! id req)).
Proof.
  intros Hs Hok. cbv zeta. revert Hok. unfold run_automation.
  case_bool_decide; [done|].
  destruct (compiles (script req)); cbn [negb]; [|done].
  rewrite Hs. unfold finish_run.
  destruct (store_result _ _ _ _) as [db2|] eqn:E.
  - intros _. exists db2. split_and!; [done | done |].
    intros Ht. unfold store_result in E. rewrite Ht in E.
    unfold AutomationModel.getById in E. by destruct (automations _ !! id req).
  - unfold terminal_success, events_of. cbn [reply].
    pose proof (last_sent_not_complete (console_calls (script req))) as Hl.
    by destruct (last _) as [[]|].
Qed.

(** C6, as the code has it.  In a run that ends with success=true, the
    outputs table gains a row exactly when the result carries a truthy
    [screenshot] and the write goes through (the engine does not fail and
    the id, the clock reading in decimal, is free); that row has type
    "screenshot", belongs to the automation of the run and sits under the
    fresh id; in every other case the outputs table is left as it was. *)
Theorem screenshot_saved_iff_payload_and_write_succeeds
    (db : Database) (req : RunRequest) (env : Env) (result : JsResult) (json : string) :
  settlement (script req) = Resolves result json →
  terminal_success (run_automation db req env) = Some true →
  let aid := id_of_ms (artifact_now_id env) in
  let r := run_automation db req env in
  if shot_truthy (screenshot (fields result)) && negb (artifact_fault env)
     && bool_decide (outputs db !! aid = None)
  then ∃ row, outputs (db_after r) = <[aid := row]> (outputs db) ∧
              o_type row = "screenshot" ∧ o_automationId row = id req ∧
              o_timestamp row = artifact_now_ts env
  else outputs (db_after r) = outputs db.
Proof.
  intros Hs Hok. cbv zeta.
  destruct (successful_run_inv db req env result json Hs Hok) as (db2 & Hst & -> & Hfk).
  rewrite complete_run_outputs.
  unfold store_result in Hst. destruct (truthy result) eqn:Ht.
  - specialize (Hfk eq_refl). unfold AutomationModel.getById in Hst.
    destruct (automations _ !! id req) as [automation|] eqn:Ea; [|done].
    simplify_eq. unfold save_screenshot.
    destruct (shot_truthy _); cbn [andb]; [|done].
    unfold OutputModel.saveOutput, OutputModel.create.
    destruct (artifact_fault env); cbn [negb andb fst]; [done|].
    cbn [outputs AutomationModel.updateStatus with_automations].
    case_bool_decide as Hfree.
    + rewrite decide_False by (rewrite Hfree; by intros [? ?]).
      cbn [o_automationId]. rewrite decide_True by (by rewrite Ea).
      cbn. eexists. split_and!; done.
    + rewrite decide_True; [done|].
      destruct (outputs db !! _); [by eexists | done].
  - simplify_eq. destruct result; [|done|done].
    cbn. done.
Qed.

(** A successful run of the script that returns a screenshot: the
    artifact is stored under the id 7000 with type "screenshot". *)
Lemma screenshot_saved_iff_payload_and_write_succeeds_witness :
  ∃ row, outputs (db_after (run_automation Samples.db_fresh
                              (Samples.request "a1" Samples.script_shot)
                              Samples.env_quiet))
         = <["7000" := row]> ∅ ∧
         o_type row = "screenshot" ∧ o_automationId row = "a1" ∧ o_timestamp row = 7000.
Proof.
  exact (screenshot_saved_iff_payload_and_write_succeeds
           Samples.db_fresh (Samples.request "a1" Samples.script_shot) Samples.env_quiet
           _ _ eq_refl eq_refl).
Defined.

(** C6, counterexample to the claim as stated.  The run ends with
    success=true and its result carries a screenshot, but the INSERT into
    outputs fails: nothing is persisted.  In the second run the INSERT fails
    because the id, the clock reading 7000, is that of an output written in
    the same millisecond: the table keeps the earlier row only. *)
Lemma payload_without_artifact_when_write_fails :
  let r := run_automation Samples.db_fresh (Samples.request "a1" Samples.script_shot)
             (with_artifact Samples.env_quiet 7000 7000 true) in
  let clash := run_automation Samples.db_busy (Samples.request "a1" Samples.script_shot)
                 Samples.env_slow in
  settlement Samples.script_shot =
    Resolves (RObject {| screenshot := ShotText "front page"; screenshotName := "";
                         screenshotPath := "/out/b.png" |})
             "{ screenshot: 'front page', screenshotPath: '/out/b.png' }" ∧
  shot_truthy (ShotText "front page") = true ∧
  terminal_success r = Some true ∧
  outputs (db_after r) = ∅ ∧
  terminal_success clash = Some true ∧
  outputs (db_after clash) = outputs Samples.db_busy.
Proof. vm_compute. done. Qed.

(** *** The filename in the terminal event *)

Lemma complete_run_success_event (db : Database) (id : string) (env : Env) (st : Capture)
    (result : JsResult) (json : string) :
  match last (sent st) with Some (EvComplete _) => False | _ => True end →
  terminal_success (complete_run db id env st result json) = Some true →
  last (events_of (complete_run db id env st result json)) =
    Some (EvComplete (Succeeded (format_output st env json) result
                                (final_filename st result) (executionTime env))).
Proof.
  intros Hst. unfold complete_run.
  destruct (AutomationModel.getById _ id);
    [|intros Hok; by apply fail_run_not_success in Hok].
  destruct (LogModel.create _ _ _ _);
    [intros Hok; by apply fail_run_not_success in Hok|].
  intros _. unfold events_of. cbn [reply]. by rewrite last_snoc.
Qed.

(** C7, as the code has it.  In a run that ends with success=true the
    terminal event carries the filename scraped from the log lines whenever
    one was scraped (the last such line wins); the last segment of
    [result.screenshotPath] is reported only when no log line gave a
    hint. *)
Theorem reported_filename_prefers_log_hint
    (db : Database) (req : RunRequest) (env : Env) (result : JsResult) (json : string) :
  settlement (script req) = Resolves result json →
  terminal_success (run_automation db req env) = Some true →
  reported_filename (run_automation db req env) =
    match last_hint (console_calls (script req)) with
    | Some scraped => Some scraped
    | None =>
        if truthy result && negb (bool_decide (screenshotPath (fields result) = ""))
        then Text.match_last_segment (screenshotPath (fields result))
        else None
    end.
Proof.
  intros Hs Hok.
  destruct (successful_run_inv db req env result json Hs Hok) as (db2 & _ & Hrun & _).
  rewrite Hrun in Hok |- *. unfold reported_filename.
  rewrite (complete_run_success_event _ _ _ _ _ _
             (last_sent_not_complete (console_calls (script req))) Hok).
  unfold final_filename. rewrite hint_foldl_logCapture. cbn [hint started].
  by destruct (last_hint _).
Qed.

(** The sample script logs ".../out/a.png" and returns the path
    "/out/b.png": the event reports "a.png". *)
Lemma reported_filename_prefers_log_hint_witness :
  reported_filename (run_automation Samples.db_fresh
                       (Samples.request "a1" Samples.script_shot) Samples.env_quiet)
  = Some "a.png".
Proof.
  exact (reported_filename_prefers_log_hint
           Samples.db_fresh (Samples.request "a1" Samples.script_shot) Samples.env_quiet
           _ _ eq_refl eq_refl).
Defined.

(** C7, counterexample to the claim as stated.  A log line gives the hint
    "a.png" and the result carries the path "/out/b.png", whose filename is
    "b.png"; the terminal event of the successful run reports "a.png". *)
Lemma log_hint_overrides_result_path :
  let r := run_automation Samples.db_fresh (Samples.request "a1" Samples.script_shot)
             Samples.env_quiet in
  last_hint (console_calls Samples.script_shot) = Some "a.png" ∧
  Text.match_last_segment "/out/b.png" = Some "b.png" ∧
  terminal_success r = Some true ∧
  reported_filename r = Some "a.png" ∧
  reported_filename r ≠ Text.match_last_segment "/out/b.png".
Proof. vm_compute. split_and!; done. Qed.

(** *** The shape of the stream *)

(** Every stream that was opened starts with status(running), goes on with
    the log events in the order of the calls, and holds at most one complete
    event, which is then the last event and is followed by [res.end()]. *)
Lemma run_stream_shape (db : Database) (req : RunRequest) (env : Env) :
  source (script req) ≠ "" →
  ∃ calls tail fate,
    reply (run_automation db req env) =
      Streamed (EvStatus Running "Starting automation..." :: log_events calls ++ tail) fate ∧
    (tail = [] ∧ fate ≠ Ended ∨ ∃ c, tail = [EvComplete c] ∧ fate = Ended).
Proof.
  intros Hsrc. unfold run_automation. rewrite bool_decide_eq_false_2 by done.
  destruct (compiles (script req)); cbn [negb].
  - set (st := foldl logCapture started (console_calls (script req))).
    assert (Hsent : sent st = EvStatus Running "Starting automation..."
                              :: log_events (console_calls (script req))).
    { unfold st. by rewrite sent_foldl_logCapture. }
    exists (console_calls (script req)).
    assert (Hfail : ∀ d m, ∃ tail fate,
               reply (fail_run d (id req) env st m) =
                 Streamed (EvStatus Running "Starting automation..."
                           :: log_events (console_calls (script req)) ++ tail) fate ∧
               (tail = [] ∧ fate ≠ Ended ∨ ∃ c, tail = [EvComplete c] ∧ fate = Ended)).
    { intros d m. destruct (fail_run_cases d (id req) env st m)
        as [(m' & d' & ->) | (d' & ->)]; cbn [reply]; rewrite Hsent.
      - exists [], (SetupError m'). rewrite app_nil_r. split; [done|]. by left.
      - eexists [_], Ended. split; [done|]. right. eauto. }
    destruct (settlement (script req)) as [result json|message|].
    + unfold finish_run. destruct (store_result _ _ _ _) as [db2|].
      * unfold complete_run. destruct (AutomationModel.getById _ _); [|apply Hfail].
        destruct (LogModel.create _ _ _ _); [apply Hfail|].
        cbn [reply]. rewrite Hsent. eexists [_], Ended. split; [done|]. right. eauto.
      * cbn [reply]. rewrite Hsent. exists [], LeftOpen. rewrite app_nil_r.
        split; [done|]. by left.
    + apply Hfail.
    + cbn [reply]. rewrite Hsent. exists [], LeftOpen. rewrite app_nil_r.
      split; [done|]. by left.
  - exists [], [], (SetupError SYNTAX_ERROR). split; [done|]. by left.
Qed.

Lemma protocol_ok_complete (calls : list (list string)) (c : Complete) :
  protocol_ok (sent (foldl logCapture started calls) ++ [EvComplete c]) = true.
Proof.
  rewrite sent_foldl_logCapture. cbn [sent started app protocol_ok is_status].
  rewrite reverse_snoc. cbn [is_complete andb].
  apply Is_true_true_1, forallb_True. rewrite Forall_reverse. unfold log_events.
  apply Forall_fmap, Forall_true. done.
Qed.

(** When an automation has the id and the log entry can be written, a
    script that resolves gets the stream [status · log* · complete] with
    success=true, the stream is ended, the automation is 'completed' and the
    logs table gains exactly one entry, with status 'completed'. *)
Lemma resolved_run_follows_protocol (db : Database) (req : RunRequest) (env : Env)
    (result : JsResult) (json : string) :
  source (script req) ≠ "" →
  compiles (script req) = true →
  settlement (script req) = Resolves result json →
  is_Some (automations db !! id req) →
  log_fault env = false →
  logs db !! id_of_ms (log_now_id env) = None →
  let r := run_automation db req env in
  ∃ evs entry,
    reply r = Streamed evs Ended ∧ protocol_ok evs = true ∧
    terminal_success r = Some true ∧
    final_status r (id req) = Some Completed ∧
    logs (db_after r) = <[id_of_ms (log_now_id env) := entry]> (logs db) ∧
    l_automationId entry = id req ∧ l_status entry = Completed.
Proof.
  intros Hsrc Hc Hs [a Ha] Hf Hfree. cbv zeta.
  unfold run_automation. rewrite bool_decide_eq_false_2 by done.
  rewrite Hc, Hs. cbn [negb]. unfold finish_run.
  set (db1 := AutomationModel.updateStatus db (id req) Running).
  set (st := foldl logCapture started (console_calls (script req))).
  assert (H1 : automations db1 !! id req = Some {| a_name := a_name a; a_status := Running |}).
  { unfold db1. cbn. by rewrite lookup_alter_eq, Ha. }
  assert (Hst : ∃ db2, store_result db1 (id req) env result = Some db2 ∧ same_core db2 db1).
  { unfold store_result, AutomationModel.getById. rewrite H1.
    destruct (truthy result); eexists; (split; [done|]);
      [apply save_screenshot_same_core | by split]. }
  destruct Hst as (db2 & -> & Ha2 & Hl2).
  unfold complete_run, AutomationModel.getById, AutomationModel.updateStatus,
    with_automations, LogModel.create.
  cbn [automations logs outputs l_automationId].
  rewrite !lookup_alter_eq, Ha2, H1, Hl2, Hf.
  cbn [fmap option_fmap option_map a_name logs db1 AutomationModel.updateStatus
       with_automations].
  rewrite Hfree. rewrite decide_False by (by intros [? ?]).
  rewrite decide_True by done.
  eexists _, _. unfold terminal_success, final_status, events_of.
  cbn [reply db_after automations logs with_logs].
  rewrite last_snoc, lookup_alter_eq, H1. cbn.
  split_and!; try done. apply protocol_ok_complete.
Qed.

(** With the same provisos, a script that throws gets the stream
    [status · log* · complete] with success=false and the error message,
    the automation is 'failed' and the logs table gains exactly one entry,
    'failed', whose output is the error message followed by the captured
    lines. *)
Lemma rejected_run_follows_protocol (db : Database) (req : RunRequest) (env : Env)
    (message : string) :
  source (script req) ≠ "" →
  compiles (script req) = true →
  settlement (script req) = Rejects message →
  is_Some (automations db !! id req) →
  failure_fault env = false →
  logs db !! id_of_ms (failure_now_id env) = None →
  let r := run_automation db req env in
  let st := foldl logCapture started (console_calls (script req)) in
  ∃ evs entry,
    reply r = Streamed evs Ended ∧ protocol_ok evs = true ∧
    terminal_success r = Some false ∧
    final_status r (id req) = Some Failed ∧
    logs (db_after r) = <[id_of_ms (failure_now_id env) := entry]> (logs db) ∧
    l_automationId entry = id req ∧ l_status entry = Failed ∧
    l_output entry = "Error: " +:+ message +:+ Text.nl +:+ Text.nl
                     +:+ Text.join Text.nl (captured st).
Proof.
  intros Hsrc Hc Hs [a Ha] Hf Hfree. cbv zeta.
  unfold run_automation. rewrite bool_decide_eq_false_2 by done.
  rewrite Hc, Hs. cbn [negb].
  unfold fail_run, AutomationModel.getById, AutomationModel.updateStatus,
    with_automations, LogModel.create.
  cbn [automations logs outputs l_automationId].
  rewrite !lookup_alter_eq, Ha, Hf.
  cbn [fmap option_fmap option_map a_name].
  rewrite Hfree. rewrite decide_False by (by intros [? ?]).
  rewrite decide_True by done.
  eexists _, _. unfold terminal_success, final_status, events_of.
  cbn [reply db_after automations logs with_logs].
  rewrite last_snoc, !lookup_alter_eq, Ha. cbn.
  split_and!; try done. apply protocol_ok_complete.
Qed.

(** *** The guard on the automation row *)

(** Whenever the script resolves with a truthy value and no automation has
    the id of the request, the handler stops at the guard: the stream holds
    the status and log events only and is not ended, and the automations and
    the logs are as they were. *)
Lemma run_stops_at_guard (db : Database) (req : RunRequest) (env : Env)
    (result : JsResult) (json : string) :
  source (script req) ≠ "" →
  compiles (script req) = true →
  settlement (script req) = Resolves result json →
  truthy result = true →
  automations db !! id req = None →
  let r := run_automation db req env in
  reply r = Streamed (EvStatus Running "Starting automation..."
                      :: log_events (console_calls (script req))) LeftOpen ∧
  automations (db_after r) = automations db ∧
  logs (db_after r) = logs db ∧
  outputs (db_after r) = outputs db.
Proof.
  intros Hsrc Hc Hs Ht Hnone. cbv zeta.
  unfold run_automation. rewrite bool_decide_eq_false_2 by done.
  rewrite Hc, Hs. cbn [negb]. unfold finish_run, store_result, AutomationModel.getById.
  rewrite Ht. cbn [automations AutomationModel.updateStatus with_automations].
  rewrite lookup_alter_eq, Hnone. cbn [fmap option_fmap option_map reply db_after].
  rewrite sent_foldl_logCapture. cbn [sent started app logs outputs automations].
  split_and!; try done.
  cbn. apply map_eq. intros k. rewrite lookup_alter.
  case_decide; [subst; by rewrite Hnone | done].
Qed.

(** C1, at the submission of the sample script (which logs 'hi' and
    returns [{ok:true}]) under an id that no automation has.  The stream
    gets status(running) and the log event, then the handler leaves through
    the [return;] of the guard "Cannot save output: Automation ... does not
    exist": no complete event is written and [res.end()] never runs. *)
Theorem stream_left_open_without_automation_row :
  let r := run_automation Samples.db_fresh (Samples.request "ghost" Samples.script_ok)
             Samples.env_quiet in
  reply r = Streamed [EvStatus Running "Starting automation..."; EvLog "hi"] LeftOpen ∧
  protocol_ok (events_of r) = false ∧
  terminal_success r = None.
Proof. vm_compute. done. Qed.

(** C2, at the same submission.  The script resolved, the run is over,
    and the logs table is as empty as before: no LogEntry was created. *)
Theorem no_log_entry_without_automation_row :
  let r := run_automation Samples.db_fresh (Samples.request "ghost" Samples.script_ok)
             Samples.env_quiet in
  settlement Samples.script_ok = Resolves (RObject no_fields) "{ ok: true }" ∧
  logs Samples.db_fresh = ∅ ∧
  logs (db_after r) = ∅.
Proof. vm_compute. done. Qed.

End RunFacts.

(** ** The client: consuming the stream *)
Module ConsumerFacts.
Import Js Api.

(** Two lemmas on the first element of a list that has a property. *)
Lemma first_split_unique {A} (P : A → Prop) (b1 b2 a1 a2 : list A) (f1 f2 : A) :
  b1 ++ f1 :: a1 = b2 ++ f2 :: a2 →
  Forall (fun x => ¬ P x) b1 → P f1 → Forall (fun x => ¬ P x) b2 → P f2 →
  b1 = b2 ∧ f1 = f2 ∧ a1 = a2.
Proof.
  revert b2. induction b1 as [|x b1 IH]; intros [|y b2] Heq H1 Hf1 H2 Hf2;
    cbn in Heq; simplify_eq.
  - done.
  - by apply Forall_cons in H2 as [? _].
  - by apply Forall_cons in H1 as [? _].
  - apply Forall_cons in H1 as [_ H1]. apply Forall_cons in H2 as [_ H2].
    destruct (IH b2) as (-> & -> & ->); done.
Qed.

Lemma first_after_prefix {A} (P : A → Prop) (fs rest b a : list A) (f : A) :
  fs ++ rest = b ++ f :: a →
  Forall (fun x => ¬ P x) fs → P f →
  ∃ b', b = fs ++ b' ∧ rest = b' ++ f :: a.
Proof.
  revert b. induction fs as [|x fs IH]; intros b Heq Hfs Hf; cbn in Heq.
  - by exists b.
  - apply Forall_cons in Hfs as [Hx Hfs]. destruct b as [|y b]; cbn in Heq.
    + injection Heq as -> _. done.
    + injection Heq as -> Heq.
      destruct (IH b) as (b' & -> & ->); [done | done | done |]. by exists b'.
Qed.

Section WithDecoder.
Variable decode : string → option SseData.

(** A frame that is skipped or logged: the loop goes on behind it. *)
Ltac behind_frame IH H f :=
  destruct (IH _ H) as (b0 & f0 & a0 & ok0 & out0 & err0 & -> & Hb0 & Hf0 & ->);
  exists (f :: b0), f0, a0, ok0, out0, err0; split_and!; [done | | done | done];
  constructor; [intros (? & ? & ? & ?); congruence | done].

(** The loop over the frames of a chunk resolves with the first complete
    frame and looks at none after it. *)
Lemma dispatch_first_complete (frames : list string) (shown shown' : string)
    (o : RunOutcome) :
  dispatch decode frames shown = (Some o, shown') →
  ∃ before f after ok out err,
    frames = before ++ f :: after ∧
    Forall (fun g => ¬ is_complete_frame decode g) before ∧
    decode f = Some (DComplete ok out err) ∧
    o = verdict ok out err.
Proof.
  revert shown. induction frames as [|f frames IH]; intros shown; cbn [dispatch]; [done|].
  destruct (decode f) as [[m|ok out err|]|] eqn:E; intros H.
  - behind_frame IH H f.
  - injection H as <- <-. exists [], f, frames, ok, out, err. split_and!; done.
  - behind_frame IH H f.
  - behind_frame IH H f.
Qed.

Lemma dispatch_none (frames : list string) (shown shown' : string) :
  dispatch decode frames shown = (None, shown') →
  Forall (fun g => ¬ is_complete_frame decode g) frames.
Proof.
  revert shown. induction frames as [|f frames IH]; intros shown; cbn [dispatch]; [done|].
  destruct (decode f) as [[m|ok out err|]|] eqn:E; [| done | |];
    intros H; (constructor; [intros (? & ? & ? & ?); congruence | by eapply IH]).
Qed.

(** Over the whole stream: the promise is fulfilled by the first complete
    frame the loop sees, with the verdict of that frame. *)
Lemma processChunks_first_complete (cs : list (Z * string)) (e : Ending)
    (buffer shown : string) (t : Z) (o : RunOutcome) :
  settled (processChunks decode cs e buffer shown) = SettledAt t (Fulfilled o) →
  ∃ before f after ok out err,
    all_frames cs buffer = before ++ f :: after ∧
    Forall (fun g => ¬ is_complete_frame decode g) before ∧
    decode f = Some (DComplete ok out err) ∧
    o = verdict ok out err.
Proof.
  revert buffer shown.
  induction cs as [|[t' text] cs IH]; intros buffer shown; cbn [processChunks all_frames].
  - by destruct e.
  - destruct (split_frames "" (buffer +:+ text)) as [frames tail].
    destruct (dispatch decode frames shown) as [[o'|] shown'] eqn:Ed.
    + cbn. intros [= <- <-].
      destruct (dispatch_first_complete _ _ _ _ Ed)
        as (b & f & a & ok & out & err & -> & Hb & Hf & ->).
      exists b, f, (a ++ all_frames cs tail), ok, out, err.
      split_and!; [by rewrite <- app_assoc | done | done | done].
    + intros H. destruct (IH _ _ H) as (b & f & a & ok & out & err & Hfr & Hb & Hf & ->).
      exists (frames ++ b), f, a, ok, out, err.
      split_and!; [by rewrite Hfr, <- app_assoc | | done | done].
      apply Forall_app. split; [by eapply dispatch_none | done].
Qed.

(** And it is fulfilled whenever the stream carries a complete frame. *)
Lemma processChunks_complete_fulfils (cs : list (Z * string)) (e : Ending)
    (buffer shown : string) (before after : list string) (f : string)
    (ok : bool) (out err : string) :
  all_frames cs buffer = before ++ f :: after →
  Forall (fun g => ¬ is_complete_frame decode g) before →
  decode f = Some (DComplete ok out err) →
  ∃ t, settled (processChunks decode cs e buffer shown)
       = SettledAt t (Fulfilled (verdict ok out err)).
Proof.
  intros Hfr Hb Hf.
  assert (Hc : is_complete_frame decode f) by (by exists ok, out, err).
  revert buffer shown before Hfr Hb.
  induction cs as [|[t' text] cs IH]; intros buffer shown before;
    cbn [processChunks all_frames].
  - by destruct before.
  - destruct (split_frames "" (buffer +:+ text)) as [frames tail].
    destruct (dispatch decode frames shown) as [[o'|] shown'] eqn:Ed; intros Hfr Hb.
    + destruct (dispatch_first_complete _ _ _ _ Ed)
        as (b' & f' & a' & ok' & out' & err' & -> & Hb' & Hf' & ->).
      rewrite <- app_assoc in Hfr. cbn in Hfr.
      destruct (first_split_unique (is_complete_frame decode) _ _ _ _ _ _ Hfr)
        as (_ & -> & _); [done | by eexists _, _, _ | done | done |].
      rewrite Hf in Hf'. injection Hf' as <- <- <-. by exists t'.
    + destruct (first_after_prefix (is_complete_frame decode) _ _ _ _ _ Hfr)
        as (b' & -> & Hrest); [by eapply dispatch_none | done |].
      apply Forall_app in Hb as [_ Hb]. by eapply IH.
Qed.

(** [reader.cancel()] runs only in the branch that has just decoded a
    complete frame, and the promise is fulfilled only there. *)
Lemma processChunks_cancel_iff_fulfilled (cs : list (Z * string)) (e : Ending)
    (buffer shown : string) :
  let c := processChunks decode cs e buffer shown in
  cancelled c = true ↔ ∃ t o, settled c = SettledAt t (Fulfilled o).
Proof.
  cbv zeta. revert buffer shown.
  induction cs as [|[t text] cs IH]; intros buffer shown; cbn [processChunks].
  - destruct e; cbn; split; try done; by intros (? & ? & ?).
  - destruct (split_frames "" (buffer +:+ text)) as [frames tail].
    destruct (dispatch decode frames shown) as [[o|] shown']; [|apply IH].
    cbn. split; [eauto | done].
Qed.

(** C8, as the code has it.  The completion promise is fulfilled by the
    first complete frame of the stream, with the verdict of that frame, and
    by nothing after it.  If it is fulfilled before 120 000 ms have passed,
    the caller gets that verdict.  If the 120 s timer fires first (the
    promise settles later, or never), the race rejects with the timeout
    error, the inner catch falls back to the simulated run of the browser,
    and the caller gets that simulation's result: success, status completed.
    The client sends nothing to the server on a timeout: the reader is
    cancelled only once a complete frame was decoded. *)
Theorem run_consumer_completion_and_timeout
    (w : Wire) (id transcript : string) :
  let c := processChunks decode (chunks w) (ending w) "" "" in
  let answer := runAutomationById decode id (EventStream w) transcript in
  (∀ o,
     (∃ t, settled c = SettledAt t (Fulfilled o)) ↔
     ∃ before f after ok out err,
       all_frames (chunks w) "" = before ++ f :: after ∧
       Forall (fun g => ¬ is_complete_frame decode g) before ∧
       decode f = Some (DComplete ok out err) ∧ o = verdict ok out err) ∧
  (∀ t o, settled c = SettledAt t (Fulfilled o) → t < TIMEOUT_MS →
     data_success answer = success o ∧ data_output answer = output o) ∧
  (settled c = Never ∨ (∃ t o, settled c = SettledAt t o ∧ TIMEOUT_MS <= t) →
     ask_server decode (EventStream w) = Rejected TIMEOUT_MESSAGE ∧
     data_success answer = true ∧ data_output answer = transcript ∧
     store_status answer = Completed) ∧
  (reader_cancelled decode (EventStream w) = true →
     ∃ t o, settled c = SettledAt t (Fulfilled o)) ∧
  TIMEOUT_MS = 120000 ∧
  api_success answer = true.
Proof.
  cbv zeta. split_and!; [| | | |done|done].
  - intros o. split.
    + intros [t Ht]. by eapply processChunks_first_complete.
    + intros (b & f & a & ok & out & err & Hfr & Hb & Hf & ->).
      by eapply processChunks_complete_fulfils.
  - intros t o Hc Ht. unfold runAutomationById, run_result, ask_server, race.
    rewrite Hc. rewrite (proj2 (Z.ltb_lt _ _) Ht). done.
  - intros H. unfold runAutomationById, run_result, ask_server, race.
    destruct H as [-> | (t & o & -> & Ht)]; [done|].
    rewrite (proj2 (Z.ltb_ge _ _) Ht). done.
  - apply processChunks_cancel_iff_fulfilled.
Qed.

End WithDecoder.

(** The sample stream whose complete event arrives after 130 s: the
    caller has long been given the simulated success. *)
Lemma run_consumer_completion_and_timeout_witness :
  ask_server Samples.decode (EventStream Samples.slow_wire) = Rejected TIMEOUT_MESSAGE ∧
  data_success (runAutomationById Samples.decode "a1" (EventStream Samples.slow_wire)
                  "simulated run") = true ∧
  data_output (runAutomationById Samples.decode "a1" (EventStream Samples.slow_wire)
                 "simulated run") = "simulated run" ∧
  store_status (runAutomationById Samples.decode "a1" (EventStream Samples.slow_wire)
                  "simulated run") = Completed.
Proof.
  apply (run_consumer_completion_and_timeout Samples.decode Samples.slow_wire
           "a1" "simulated run").
  right. exists 130000, (Fulfilled {| success := true; output := "hi" |}).
  split; [vm_compute; reflexivity | vm_compute; discriminate].
Defined.

(** C8, counterexample to the claim as stated.  The server never answers
    after opening the stream; the timer fires, and what the caller gets is
    not a failure: success=true and status completed, from the simulated
    run. *)
Lemma timeout_surfaces_as_simulated_success :
  let silent := EventStream {| chunks := []; ending := Stalled |} in
  let answer := runAutomationById Samples.decode "a1" silent "simulated run" in
  ask_server Samples.decode silent = Rejected TIMEOUT_MESSAGE ∧
  api_success answer = true ∧ data_success answer = true ∧
  store_status answer = Completed.
Proof. vm_compute. done. Qed.

End ConsumerFacts.

(** ** The client: the output store *)
Module OutputStoreFacts.
Import Js OutputStore.

(** *** fetchAPI *)

(** fetchAPI never rejects. *)
Lemma fetchAPI_fulfils (cache : gmap string Api.CacheEntry) (now : Z) (endpoint : string)
    (is_get : bool) (t : Api.Transport) :
  ∃ v, (Api.fetchAPI cache now endpoint is_get t).1 = Fulfilled v.
Proof.
  unfold Api.fetchAPI. repeat case_match; cbn; eauto.
Qed.

(** A request that is not a GET and fails resolves with the fallback. *)
Lemma fetchAPI_failure (cache : gmap string Api.CacheEntry) (now : Z) (endpoint : string)
    (t : Api.Transport) (message : string) :
  Api.attempt endpoint t = inl message →
  (Api.fetchAPI cache now endpoint false t).1 = Fulfilled (Api.fallback endpoint message).
Proof. intros H. unfold Api.fetchAPI. by rewrite H. Qed.

(** The endpoint of a DELETE is none of the endpoints with a fallback of
    their own. *)
Lemma fallback_delete_endpoint (id0 message : string) :
  Api.fallback ("/outputs/" +:+ id0) message =
    JObj [("success", JBool false);
          ("error", JStr (if bool_decide (message = "") then "Unknown API error"
                          else message));
          ("isErrorResponse", JBool true)].
Proof.
  unfold Api.fallback.
  repeat case_bool_decide; cbn in *; try discriminate; done.
Qed.

(** *** deleteOutputFile *)

Lemma recalculate_lists (now : Z) (st : State) :
  outputFiles (recalculate now st) = outputFiles st ∧
  priorityOutputFiles (recalculate now st) = priorityOutputFiles st ∧
  parsedDataCache (recalculate now st) = parsedDataCache st.
Proof. unfold recalculate. repeat case_match; done. Qed.

Lemma set_outputFiles_lists (now : Z) (fs : list OutputFile) (st : State) :
  outputFiles (set_outputFiles now fs st) = fs ∧
  priorityOutputFiles (set_outputFiles now fs st) = priorityOutputFiles st ∧
  parsedDataCache (set_outputFiles now fs st) = parsedDataCache st.
Proof.
  unfold set_outputFiles.
  by destruct (recalculate_lists now
    {| outputFiles := fs; priorityOutputFiles := priorityOutputFiles st;
       isLoadingOutputs := isLoadingOutputs st; isPriorityLoaded := isPriorityLoaded st;
       hasMoreOutputs := hasMoreOutputs st; currentPage := currentPage st;
       totalOutputCount := totalOutputCount st; parsedDataCache := parsedDataCache st;
       cache_data := cache_data st; cache_timestamp := cache_timestamp st;
       outputsByType := outputsByType st |}) as (-> & -> & ->).
Qed.

Lemma set_priorityOutputFiles_lists (now : Z) (fs : list OutputFile) (st : State) :
  outputFiles (set_priorityOutputFiles now fs st) = outputFiles st ∧
  priorityOutputFiles (set_priorityOutputFiles now fs st) = fs ∧
  parsedDataCache (set_priorityOutputFiles now fs st) = parsedDataCache st.
Proof.
  unfold set_priorityOutputFiles.
  by destruct (recalculate_lists now
    {| outputFiles := outputFiles st; priorityOutputFiles := fs;
       isLoadingOutputs := isLoadingOutputs st; isPriorityLoaded := isPriorityLoaded st;
       hasMoreOutputs := hasMoreOutputs st; currentPage := currentPage st;
       totalOutputCount := totalOutputCount st; parsedDataCache := parsedDataCache st;
       cache_data := cache_data st; cache_timestamp := cache_timestamp st;
       outputsByType := outputsByType st |}) as (-> & -> & ->).
Qed.

Lemma remove_locally_lists (now : Z) (id0 : string) (st : State) :
  outputFiles (remove_locally now id0 st) = filter (fun f => id f ≠ id0) (outputFiles st) ∧
  priorityOutputFiles (remove_locally now id0 st) =
    filter (fun f => id f ≠ id0) (priorityOutputFiles st) ∧
  parsedDataCache (remove_locally now id0 st) = parsedDataCache st ∖ {[id0]} ∧
  cache_data (remove_locally now id0 st) = None.
Proof.
  unfold remove_locally, invalidate.
  cbn [outputFiles priorityOutputFiles parsedDataCache cache_data].
  set (fs := filter _ (outputFiles st)).
  destruct (set_outputFiles_lists now fs st) as (Ho & Hp & Hc).
  rewrite Hp.
  set (ps := filter _ (priorityOutputFiles st)).
  destruct (set_priorityOutputFiles_lists now ps (set_outputFiles now fs st))
    as (Ho' & Hp' & Hc').
  rewrite Ho', Hp', Hc', Ho, Hc. done.
Qed.

(** The fallback of fetchAPI, endpoint by endpoint: an empty array for
    exactly four endpoints, the default settings for /settings, and the
    error object for every other endpoint. *)
Lemma fallback_exact (endpoint message : string) :
  Api.fallback endpoint message =
    if bool_decide (endpoint ∈ ["/logs"; "/logs-direct"; "/outputs"; "/outputs-direct"])
    then JArr []
    else if bool_decide (endpoint = "/settings") then Api.MOCK_SETTINGS
    else JObj [("success", JBool false);
               ("error", JStr (if bool_decide (message = "") then "Unknown API error"
                               else message));
               ("isErrorResponse", JBool true)].
Proof.
  unfold Api.fallback.
  repeat case_bool_decide; cbn [orb]; try done; set_solver.
Qed.

(** Whatever the server or the network does, deleteOutputFile leaves both
    lists without the id and drops its parsed data: the optimistic removal
    is never rolled back. *)
Lemma deleteOutputFile_keeps_removal (now later : Z) (id0 : string) (t : Api.Transport)
    (st : State) :
  let st' := (deleteOutputFile now later id0 t st).1 in
  outputFiles st' = filter (fun f => id f ≠ id0) (outputFiles st) ∧
  priorityOutputFiles st' = filter (fun f => id f ≠ id0) (priorityOutputFiles st) ∧
  id0 ∉ parsedDataCache st'.
Proof.
  cbv zeta.
  destruct (remove_locally_lists now id0 st) as (Ho & Hp & Hc & _).
  unfold deleteOutputFile.
  destruct (fetchAPI_fulfils ∅ later ("/outputs/" +:+ id0) false t) as [v ->].
  unfold outputsByType_kind. cbn [call_update has_update fst].
  set (st1 := remove_locally now id0 st) in *.
  destruct (set_outputFiles_lists later (outputFiles st1) st1) as (Ho1 & Hp1 & Hc1).
  destruct (set_priorityOutputFiles_lists later
              (priorityOutputFiles (set_outputFiles later (outputFiles st1) st1))
              (set_outputFiles later (outputFiles st1) st1)) as (Ho2 & Hp2 & Hc2).
  rewrite Ho2, Hp2, Hc2, Ho1, Hp1, Hc1, Ho, Hp, Hc. split_and!; [done | done |].
  set_solver.
Qed.

(** The value deleteOutputFile resolves to does not depend on the answer:
    the call of [update] on the derived store raises on every path that
    reaches it. *)
Lemma deleteOutputFile_never_true (now later : Z) (id0 : string) (t : Api.Transport)
    (st : State) :
  (deleteOutputFile now later id0 t st).2 = false.
Proof.
  unfold deleteOutputFile.
  by destruct (Api.fetchAPI ∅ later ("/outputs/" +:+ id0) false t).1.
Qed.

(** C10, at a DELETE that the server answers with 200 and
    [{success: true, data: {id}}].  fetchAPI resolves with that object, for
    which the test at the end of the [try] block answers [true], and both
    lists have lost the file.  But before the test the function calls
    [outputsByType.update(value => value)] on a store made by [derived],
    which has [subscribe] only: the TypeError is caught by the [catch] of
    the function, and deleteOutputFile resolves to [false]. *)
Theorem delete_resolves_false_after_successful_delete :
  let reply := Samples.deleted_reply "9" in
  let body := JObj [("success", JBool true); ("data", JObj [("id", JStr "9")])] in
  let r := deleteOutputFile 1500 1600 "9" reply Samples.store_priority in
  (Api.fetchAPI ∅ 1600 "/outputs/9" false reply).1 = Fulfilled body ∧
  looks_deleted body = true ∧
  outputsByType_kind = Derived ∧
  call_update outputsByType_kind = inl "TypeError: update is not a function" ∧
  priorityOutputFiles Samples.store_priority = [Samples.file "9" "screenshot" 900] ∧
  priorityOutputFiles r.1 = [] ∧
  outputFiles r.1 = [] ∧
  r.2 = false.
Proof. vm_compute. done. Qed.

(** *** The grouping cache *)

(** After the local removal of a delete, and after a reset, the cache is
    empty, and the next run of the derived callback groups the lists as they
    are. *)
Lemma recalculate_after_invalidate (now : Z) (st : State) :
  cache_data st = None →
  outputsByType (recalculate now st) =
    group_outputs (outputFiles st) (priorityOutputFiles st).
Proof. intros H. unfold recalculate. by rewrite H. Qed.

Lemma remove_locally_invalidates (now : Z) (id0 : string) (st : State) :
  cache_data (remove_locally now id0 st) = None.
Proof. apply remove_locally_lists. Qed.

Lemma resetOutputPagination_invalidates (now : Z) (st : State) :
  cache_data (resetOutputPagination now st) = None ∧
  outputFiles (resetOutputPagination now st) = [] ∧
  priorityOutputFiles (resetOutputPagination now st) = [].
Proof.
  unfold resetOutputPagination, invalidate.
  cbn [outputFiles priorityOutputFiles cache_data].
  destruct (set_priorityOutputFiles_lists now [] (set_outputFiles now [] st))
    as (Ho' & Hp' & _).
  destruct (set_outputFiles_lists now [] st) as (Ho & _ & _).
  rewrite Ho', Hp', Ho. done.
Qed.

(** C9, at a page that arrives half a second after the grouping was
    cached.  The priority slice (file 9) was grouped and cached at instant
    1000; at 1500 loadMoreOutputs appends file 8 to [outputFiles].  The
    append does not touch [outputsByTypeCache]: the derived callback answers
    from the cache, and the grouped view, also when it is read again at
    1600, is the grouping of the list before the change, without file 8. *)
Theorem loadMore_append_keeps_stale_grouping :
  let before := Samples.store_priority in
  let after := loadMore_arrived 1500 (Wrapped [Samples.file "8" "screenshot" 800] 2) before in
  let stale := [("screenshot", [Samples.file "9" "screenshot" 900])] in
  outputFiles before = [] ∧
  outputFiles after = [Samples.file "8" "screenshot" 800] ∧
  outputsByType before = stale ∧
  cache_data after = Some stale ∧
  cache_timestamp after = 1000 ∧
  outputsByType after = stale ∧
  outputsByType (recalculate 1600 after) = stale ∧
  group_outputs (outputFiles after) (priorityOutputFiles after) =
    [("screenshot", [Samples.file "9" "screenshot" 900;
                     Samples.file "8" "screenshot" 800])].
Proof. vm_compute. done. Qed.

End OutputStoreFacts.

(** * More properties *)

(** ** The store: single rows *)
Module StoreFacts.
Import OutputModel.

(** X1.  [OutputModel.delete(id)] removes that row and nothing else: the
    id is no longer found, every other output, the automations and the logs
    are as before, the result is [{ id }] exactly when the row was there, and
    a second delete of the same id is a no-op that returns [null], which the
    DELETE handler answers with 404. *)
Theorem delete_output_removes_exactly_that_row (db : Database) (id : string) :
  let r := OutputModel.delete db id in
  getById r.1 id = None ∧
  (∀ k, k ≠ id → getById r.1 k = getById db k) ∧
  automations r.1 = automations db ∧
  logs r.1 = logs db ∧
  r.2 = match getById db id with Some _ => Some id | None => None end ∧
  OutputModel.delete r.1 id = (r.1, None) ∧
  (Endpoints.delete_output db id).2 =
    match getById db id with
    | Some _ => Endpoints.Ok200
    | None => Endpoints.NotFound404
    end ∧
  (Endpoints.delete_output r.1 id).2 = Endpoints.NotFound404.
Proof.
  cbv zeta.
  destruct (OutputModelFacts.delete_lookup db id) as (Ha & Hl & Ho).
  assert (Hgone : getById (OutputModel.delete db id).1 id = None).
  { unfold getById at 1. rewrite Ho. by rewrite decide_True. }
  assert (Hagain : OutputModel.delete (OutputModel.delete db id).1 id
                   = ((OutputModel.delete db id).1, None)).
  { unfold OutputModel.delete at 1. by rewrite Hgone. }
  split_and!; try done.
  - intros k Hk. unfold getById. rewrite Ho. by rewrite decide_False.
  - unfold OutputModel.delete. by destruct (getById db id).
  - unfold Endpoints.delete_output, OutputModel.delete. by destruct (getById db id).
  - unfold Endpoints.delete_output. by rewrite Hagain.
Qed.

(** X2.  [OutputModel.saveOutput] stores under the id
    [Date.now().toString()].  When the engine does not fail, the id is free
    and an automation has [automationId], it returns the row, [getById] of
    the id then gives exactly the data, name and type handed in, every
    earlier output is unchanged and the table has one row more.  In every
    other case it returns [null] and the database is untouched.  It never
    changes automations or logs. *)
Theorem saveOutput_round_trip (db : Database) (fault : bool) (now_id now_ts : Z)
    (automationId : string) (data : ArtifactData) (name type : string) :
  let r := saveOutput db fault now_id now_ts automationId data name type in
  let id := id_of_ms now_id in
  let row := {| o_automationId := automationId; o_name := name; o_type := type;
                o_data := data; o_timestamp := now_ts |} in
  let accepted := fault = false ∧ getById db id = None ∧
                  is_Some (AutomationModel.getById db automationId) in
  (accepted →
     r.2 = Some (id, row) ∧ getById r.1 id = Some row ∧
     (∀ k, k ≠ id → getById r.1 k = getById db k) ∧
     size (outputs r.1) = S (size (outputs db))) ∧
  (¬ accepted → r = (db, None)) ∧
  automations r.1 = automations db ∧
  logs r.1 = logs db.
Proof.
  cbv zeta. unfold saveOutput, create, getById, AutomationModel.getById.
  destruct fault.
  { split_and!; try done. by intros (? & _). }
  destruct (decide (is_Some (outputs db !! id_of_ms now_id))) as [Hin|Hfree].
  { split_and!; try done. intros (_ & Hnone & _). rewrite Hnone in Hin. by destruct Hin. }
  cbn [o_automationId].
  destruct (decide (is_Some (automations db !! automationId))) as [Hfk|Hfk].
  - cbn. split_and!; try done.
    + intros _. split_and!; [done | apply lookup_insert_eq | |].
      * intros k Hk. by apply lookup_insert_ne.
      * apply map_size_insert_None. by apply eq_None_not_Some.
    + intros Hn. exfalso. apply Hn. split_and!; [done | by apply eq_None_not_Some | done].
  - split_and!; try done. by intros (_ & _ & ?).
Qed.

(** What the sweep leaves, as one equation on the outputs table. *)
Lemma sweep_state (db : Database) (cutoff : string) :
  let r := sweep db cutoff in
  automations r.1 = automations db ∧
  logs r.1 = logs db ∧
  outputs r.1 = filter (fun o => ¬ doomed cutoff o) (outputs db) ∧
  deleted r.2 = Z.of_nat (size (filter (doomed cutoff) (outputs db))).
Proof.
  cbv zeta. unfold sweep.
  set (ids := foldl set_add [] _).
  pose proof (OutputModelFacts.foldl_delete_and_count ids db 0) as Hloop.
  cbv zeta in Hloop.
  destruct (foldl delete_and_count (db, 0) ids) as [db' n] eqn:E.
  cbn [fst snd deleted] in *. destruct Hloop as (Ha & Hl & Ho & Hn).
  split_and!; [done | done | |].
  - apply map_eq. intros k. rewrite Ho.
    destruct (outputs db !! k) as [row|] eqn:Hk.
    + destruct (decide (k ∈ ids)) as [Hin|Hnin].
      * apply OutputModelFacts.elem_of_outputIdsToDelete in Hin as (row' & Hrow' & Hd).
        assert (row' = row) as -> by congruence.
        symmetry. apply map_lookup_filter_None. right. intros row' Hrow''.
        assert (row' = row) as -> by congruence. cbn. tauto.
      * symmetry. apply map_lookup_filter_Some. split; [done|]. cbn. intros Hd.
        apply Hnin, OutputModelFacts.elem_of_outputIdsToDelete. eauto.
    + case_decide; symmetry; apply map_lookup_filter_None; by left.
  - rewrite Hn. subst ids. rewrite OutputModelFacts.length_outputIdsToDelete. lia.
Qed.

Lemma sweep_twice (db : Database) (cutoff : string) :
  sweep (sweep db cutoff).1 cutoff =
    ((sweep db cutoff).1,
     {| deleted := 0; oldOutputsRemoved := 0; nonScreenshotsRemoved := 0 |}).
Proof.
  destruct (sweep_state db cutoff) as (Ha & Hl & Ho & _).
  set (db1 := (sweep db cutoff).1) in *.
  assert (Hnone : ∀ (P : Output → Prop) `{!∀ o, Decision (P o)},
             (∀ o, P o → doomed cutoff o) → filter P (map_to_list (outputs db1)) = []).
  { intros P ? HP. apply nil_length_inv.
    rewrite OutputModelFacts.length_filter_map_to_list, Ho.
    apply map_size_empty_iff, map_eq. intros k. rewrite lookup_empty.
    apply map_lookup_filter_None. right. intros row Hrow HPk.
    apply map_lookup_filter_Some in Hrow as [_ Hnd]. cbn in Hnd. by apply Hnd, HP. }
  unfold sweep at 1.
  rewrite (Hnone (is_old cutoff) _) by (intros o; by left).
  rewrite (Hnone not_screenshot _) by (intros o; by right).
  done.
Qed.

(** X3.  The retention sweep only touches the outputs table, and it is
    idempotent: a second sweep at the same instant, in the same zone and
    with the same window finds nothing to delete, reports three zeros and
    leaves the database as the first sweep left it.  A sweep that raises
    (the cutoff is no date) raises on every store. *)
Theorem cleanupOldOutputs_idempotent (zone : Zone) (db : Database) (now days : Z) :
  match cleanupOldOutputs zone db now days with
  | inr r =>
      automations r.1 = automations db ∧
      logs r.1 = logs db ∧
      outputs r.1 ⊆ outputs db ∧
      cleanupOldOutputs zone r.1 now days =
        inr (r.1, {| deleted := 0; oldOutputsRemoved := 0; nonScreenshotsRemoved := 0 |})
  | inl e => ∀ db', cleanupOldOutputs zone db' now days = inl e
  end.
Proof.
  unfold cleanupOldOutputs.
  destruct (cutoffTimestamp zone now days) as [e|cutoff]; [done|].
  destruct (sweep_state db cutoff) as (Ha & Hl & Ho & _).
  split_and!; [done | done | rewrite Ho; apply map_filter_subseteq |].
  by rewrite sweep_twice.
Qed.

End StoreFacts.

(** ** The store: queries and pages *)
Module QueryFacts.
Import OutputModel.

#[global] Instance newer_log_first_total : Total LogQueries.newer_first.
Proof. intros a b. unfold LogQueries.newer_first. lia. Qed.

#[global] Instance newer_log_first_trans : Transitive LogQueries.newer_first.
Proof. intros a b c. unfold LogQueries.newer_first. lia. Qed.

(** A [SELECT ... WHERE ... ORDER BY] over a table: sorted, without
    repeats, and holding exactly the rows that match. *)
Lemma select_ordered {A} (R : relation (string * A)) `{!RelDecision R}
    `{!Total R} `{!Transitive R}
    (P : string * A → Prop) `{!∀ x, Decision (P x)} (m : gmap string A) :
  let l := merge_sort R (filter P (map_to_list m)) in
  StronglySorted R l ∧ NoDup l ∧ ∀ kv, kv ∈ l ↔ m !! kv.1 = Some kv.2 ∧ P kv.
Proof.
  cbv zeta. split_and!.
  - apply StronglySorted_merge_sort; assumption.
  - rewrite merge_sort_Permutation. apply NoDup_filter, NoDup_map_to_list.
  - intros kv. rewrite merge_sort_Permutation, list_elem_of_filter, elem_of_map_to_list'.
    tauto.
Qed.

(** X4.  The four filtered queries of the models, [getByAutomationId] and
    [getByType] of OutputModel and [getAll] and [getByAutomationId] of
    LogModel, return exactly the stored rows that match, each once, newest
    first. *)
Theorem filtered_queries_exact_and_newest_first (db : Database) (key : string) :
  (let l := OutputQueries.getByAutomationId db key in
   StronglySorted newer_first l ∧ NoDup l ∧
   ∀ o, o ∈ l ↔ outputs db !! o.1 = Some o.2 ∧ o_automationId o.2 = key) ∧
  (let l := OutputQueries.getByType db key in
   StronglySorted newer_first l ∧ NoDup l ∧
   ∀ o, o ∈ l ↔ outputs db !! o.1 = Some o.2 ∧ o_type o.2 = key) ∧
  (let l := LogQueries.getAll db in
   StronglySorted LogQueries.newer_first l ∧ NoDup l ∧
   ∀ e, e ∈ l ↔ logs db !! e.1 = Some e.2) ∧
  (let l := LogQueries.getByAutomationId db key in
   StronglySorted LogQueries.newer_first l ∧ NoDup l ∧
   ∀ e, e ∈ l ↔ logs db !! e.1 = Some e.2 ∧ l_automationId e.2 = key).
Proof.
  split_and!.
  - apply (select_ordered newer_first (fun kv => o_automationId kv.2 = key)).
  - apply (select_ordered newer_first (fun kv => o_type kv.2 = key)).
  - cbv zeta. unfold LogQueries.getAll. split_and!.
    + apply StronglySorted_merge_sort; apply _.
    + rewrite merge_sort_Permutation. apply NoDup_map_to_list.
    + intros e. by rewrite merge_sort_Permutation, elem_of_map_to_list'.
  - apply (select_ordered LogQueries.newer_first (fun kv => l_automationId kv.2 = key)).
Qed.

(** The pages [1 .. n] with one limit and one skip are the window of
    [n * limit] rows that starts [skip] rows into the ordered table. *)
Lemma pages_window (db : Database) (limit skip : Z) (n : nat) :
  0 <= limit → 0 <= skip →
  OutputQueries.pages db limit skip n =
    take (Z.to_nat (Z.of_nat n * limit)) (drop (Z.to_nat skip) (ordered db)).
Proof.
  intros Hl Hs. unfold OutputQueries.pages.
  induction n as [|n IH].
  - cbn. by rewrite take_0.
  - replace (Z.of_nat (S n)) with (Z.of_nat n + 1) by lia.
    rewrite seqZ_app by lia. rewrite fmap_app, concat_app, IH.
    rewrite (seqZ_cons (1 + Z.of_nat n) 1) by lia.
    replace (Z.pred 1) with 0 by lia. rewrite seqZ_nil by lia.
    cbn [fmap list_fmap concat]. rewrite app_nil_r.
    rewrite ListingFacts.getAll_window by lia.
    replace (Z.to_nat ((1 + Z.of_nat n - 1) * limit + skip))
      with (Z.to_nat skip + Z.to_nat (Z.of_nat n * limit))%nat by lia.
    rewrite <- drop_drop.
    replace (Z.to_nat ((Z.of_nat n + 1) * limit))
      with (Z.to_nat (Z.of_nat n * limit) + Z.to_nat limit)%nat by lia.
    apply take_take_drop.
Qed.

(** X5.  Fetching the priority slice (page 1 with limit [P], no skip) and
    then the pages [1 .. n] with limit [L] and skip [P] gives, in order and
    without a repeat, the first [P + n * L] rows of the table newest first:
    the skip makes the pages start where the slice ended.  Once
    [P + n * L] reaches the total, that is every stored output. *)
Theorem priority_slice_then_pages (db : Database) (P L : Z) (n : nat) :
  0 <= P → 0 <= L →
  let loaded := files (getAll db 1 P 0) ++ OutputQueries.pages db L P n in
  loaded = take (Z.to_nat (P + Z.of_nat n * L)) (ordered db) ∧
  NoDup loaded ∧
  (total (getAll db 1 P 0) <= P + Z.of_nat n * L → loaded ≡ₚ map_to_list (outputs db)).
Proof.
  intros HP HL. cbv zeta.
  assert (Heq : files (getAll db 1 P 0) ++ OutputQueries.pages db L P n =
                take (Z.to_nat (P + Z.of_nat n * L)) (ordered db)).
  { rewrite pages_window by lia. rewrite ListingFacts.getAll_window by lia.
    replace (Z.to_nat ((1 - 1) * P + 0)) with 0%nat by lia. cbn [drop].
    replace (Z.to_nat (P + Z.of_nat n * L))
      with (Z.to_nat P + Z.to_nat (Z.of_nat n * L))%nat by lia.
    apply take_take_drop. }
  rewrite Heq. split_and!; [done | |].
  - eapply sublist_NoDup; [|apply sublist_take].
    unfold ordered. rewrite merge_sort_Permutation. apply NoDup_map_to_list.
  - cbn [total getAll]. intros Hall. rewrite take_ge.
    + unfold ordered. apply merge_sort_Permutation.
    + unfold ordered. rewrite merge_sort_Permutation, length_map_to_list. lia.
Qed.

(** Three pages of one row each after a slice of one row, on the three
    sample outputs: everything is loaded. *)
Lemma priority_slice_then_pages_witness :
  files (getAll Samples.db_three 1 1 0) ++ OutputQueries.pages Samples.db_three 1 1 3
    = take 4 (ordered Samples.db_three).
Proof.
  apply (priority_slice_then_pages Samples.db_three 1 1 3); lia.
Defined.

End QueryFacts.

(** ** The store: integrity and what a run may change *)
Module IntegrityFacts.
Import Server.

Lemma only_adds_refl (id : string) (db : Database) : only_adds id 0 0 db db.
Proof. unfold only_adds. split_and!; try done; lia. Qed.

Lemma only_adds_trans (id : string) (nl1 no1 nl2 no2 : nat) (db1 db2 db3 : Database) :
  only_adds id nl1 no1 db1 db2 → only_adds id nl2 no2 db2 db3 →
  only_adds id (nl1 + nl2) (no1 + no2) db1 db3.
Proof.
  intros (Hl1 & Ho1 & Hsl1 & Hso1 & Ha1 & Hn1) (Hl2 & Ho2 & Hsl2 & Hso2 & Ha2 & Hn2).
  unfold only_adds. split_and!.
  - by etrans.
  - by etrans.
  - lia.
  - lia.
  - intros k Hk. by rewrite Ha2, Ha1.
  - by rewrite Hn2, Hn1.
Qed.

Lemma only_adds_weaken (id : string) (nl no nl' no' : nat) (db db' : Database) :
  (nl ≤ nl')%nat → (no ≤ no')%nat → only_adds id nl no db db' → only_adds id nl' no' db db'.
Proof.
  intros ? ? (Hl & Ho & Hsl & Hso & Ha & Hn). unfold only_adds. split_and!; try done; lia.
Qed.

Lemma updateStatus_only_adds (db : Database) (id : string) (s : Status) :
  only_adds id 0 0 db (AutomationModel.updateStatus db id s).
Proof.
  unfold only_adds. cbn. split_and!; try done; try lia.
  - intros k Hk. by apply lookup_alter_ne.
  - rewrite lookup_alter_eq. by destruct (automations db !! id).
Qed.

Lemma create_log_only_adds (db db' : Database) (id : string) (fault : bool) (k : string)
    (row : LogRow) :
  LogModel.create db fault k row = inr db' → only_adds id 1 0 db db'.
Proof.
  unfold LogModel.create. destruct fault; [done|].
  case_decide as Hk; [done|]. case_decide; [|done]. intros [= <-].
  apply eq_None_not_Some in Hk.
  unfold only_adds. cbn. split_and!; try done; try lia.
  - by apply insert_subseteq.
  - rewrite map_size_insert_None by done. lia.
Qed.

Lemma saveOutput_only_adds (db : Database) (id : string) (fault : bool) (now_id now_ts : Z)
    (aid : string) (data : ArtifactData) (name type : string) :
  only_adds id 0 1 db (OutputModel.saveOutput db fault now_id now_ts aid data name type).1.
Proof.
  unfold OutputModel.saveOutput, OutputModel.create. destruct fault.
  { apply (only_adds_weaken id 0 0); [lia | lia | apply only_adds_refl]. }
  case_decide as Hk.
  { apply (only_adds_weaken id 0 0); [lia | lia | apply only_adds_refl]. }
  case_decide.
  - apply eq_None_not_Some in Hk.
    unfold only_adds. cbn. split_and!; try done; try lia.
    + by apply insert_subseteq.
    + rewrite map_size_insert_None by done. lia.
  - apply (only_adds_weaken id 0 0); [lia | lia | apply only_adds_refl].
Qed.

Lemma fail_run_only_adds (db : Database) (id : string) (env : Env) (st : Capture)
    (message : string) :
  only_adds id 1 0 db (db_after (fail_run db id env st message)).
Proof.
  unfold fail_run.
  pose proof (updateStatus_only_adds db id Failed) as Hu.
  destruct (AutomationModel.getById _ id).
  - destruct (LogModel.create _ _ _ _) as [e|db2] eqn:E; cbn [db_after].
    + by apply (only_adds_weaken id 0 0); [lia | lia |].
    + apply (only_adds_trans id 0 0 1 0 _ _ _ Hu). by eapply create_log_only_adds.
  - by apply (only_adds_weaken id 0 0); [lia | lia |].
Qed.

Lemma complete_run_only_adds (db : Database) (id : string) (env : Env) (st : Capture)
    (result : JsResult) (json : string) :
  only_adds id 1 0 db (db_after (complete_run db id env st result json)).
Proof.
  unfold complete_run.
  pose proof (updateStatus_only_adds db id Completed) as Hu.
  destruct (AutomationModel.getById _ id).
  - destruct (LogModel.create _ _ _ _) as [e|db3] eqn:E; cbn [db_after].
    + apply (only_adds_trans id 0 0 1 0 _ _ _ Hu), fail_run_only_adds.
    + apply (only_adds_trans id 0 0 1 0 _ _ _ Hu). by eapply create_log_only_adds.
  - apply (only_adds_trans id 0 0 1 0 _ _ _ Hu), fail_run_only_adds.
Qed.



Lemma not_complete_None (evs : list Event) :
  match last evs with Some (EvComplete _) => False | _ => True end →
  match last evs with Some (EvComplete c) => Some (complete_success c) | _ => None end = None.
Proof. destruct (last evs) as [[]|]; done. Qed.

Lemma fail_run_verdict (db0 db : Database) (id : string) (env : Env)
    (calls : list (list string)) (message : string) :
  logs db = logs db0 →
  a_name <$> automations db !! id = a_name <$> automations db0 !! id →
  let r := fail_run db id env (foldl logCapture started calls) message in
  match reply r with
  | Streamed _ Ended => ended_with db0 id false r
  | _ => terminal_success r = None ∧ logs (db_after r) = logs db0 ∧
         final_status r id ≠ Some Completed
  end.
Proof.
  intros Hl Hn. cbv zeta.
  pose proof (RunFacts.last_sent_not_complete calls) as Hlast.
  apply not_complete_None in Hlast.
  unfold fail_run, AutomationModel.getById, AutomationModel.updateStatus, with_automations.
  cbn [automations logs outputs]. rewrite lookup_alter_eq.
  destruct (automations db !! id) as [a|] eqn:Ha; cbn [fmap option_fmap option_map].
  - unfold LogModel.create. cbn [automations logs outputs l_automationId].
    rewrite lookup_alter_eq, Ha. cbn [fmap option_fmap option_map].
    assert (Hfs : ∀ e, final_status
              {| reply := e;
                 db_after := {| automations := alter (fun a => {| a_name := a_name a;
                                                                  a_status := Failed |}) id
                                                     (automations db);
                                logs := logs db; outputs := outputs db |} |} id
              ≠ Some Completed).
    { intros e. unfold final_status. cbn. by rewrite lookup_alter_eq, Ha. }
    destruct (failure_fault env); cbn [reply].
    { split_and!; [done | done | apply Hfs]. }
    case_decide as Hk; cbn [reply].
    { split_and!; [done | done | apply Hfs]. }
    rewrite decide_True by done. cbn [reply].
    unfold ended_with. split_and!.
    + unfold events_of. cbn [reply]. apply RunFacts.protocol_ok_complete.
    + unfold terminal_success, events_of. cbn [reply]. by rewrite last_snoc.
    + unfold final_status. cbn. by rewrite lookup_alter_eq, Ha.
    + eexists _, _. cbn [db_after logs with_logs]. split_and!.
      * rewrite <- Hl. by apply eq_None_not_Some.
      * by rewrite Hl.
      * done.
      * done.
      * cbn. by rewrite <- Hn.
  - cbn [reply db_after logs]. split_and!; [done | done |].
    unfold final_status. cbn. by rewrite lookup_alter_eq, Ha.
Qed.

Lemma complete_run_verdict (db0 db : Database) (id : string) (env : Env)
    (calls : list (list string)) (result : JsResult) (json : string) :
  logs db = logs db0 →
  a_name <$> automations db !! id = a_name <$> automations db0 !! id →
  let r := complete_run db id env (foldl logCapture started calls) result json in
  match reply r with
  | Streamed _ Ended => ∃ b, ended_with db0 id b r
  | _ => terminal_success r = None ∧ logs (db_after r) = logs db0 ∧
         final_status r id ≠ Some Completed
  end.
Proof.
  intros Hl Hn. cbv zeta.
  set (db2 := AutomationModel.updateStatus db id Completed).
  assert (Hl2 : logs db2 = logs db0) by done.
  assert (Hn2 : a_name <$> automations db2 !! id = a_name <$> automations db0 !! id).
  { rewrite <- Hn. unfold db2. cbn. rewrite lookup_alter_eq.
    by destruct (automations db !! id). }
  assert (Hfail : ∀ m,
    match reply (fail_run db2 id env (foldl logCapture started calls) m) with
    | Streamed _ Ended =>
        ∃ b, ended_with db0 id b (fail_run db2 id env (foldl logCapture started calls) m)
    | _ => terminal_success (fail_run db2 id env (foldl logCapture started calls) m) = None ∧
           logs (db_after (fail_run db2 id env (foldl logCapture started calls) m)) = logs db0 ∧
           final_status (fail_run db2 id env (foldl logCapture started calls) m) id
             ≠ Some Completed
    end).
  { intros m. pose proof (fail_run_verdict db0 db2 id env calls m Hl2 Hn2) as H.
    cbv zeta in H. destruct (reply _) as [|evs []]; eauto. }
  unfold complete_run. fold db2.
  destruct (AutomationModel.getById db2 id) as [a|] eqn:Ha; [|apply Hfail].
  destruct (LogModel.create _ _ _ _) as [e|db3] eqn:E; [apply Hfail|].
  cbn [reply]. exists true.
  unfold LogModel.create in E. destruct (log_fault env); [done|].
  case_decide as Hk; [done|]. case_decide; [|done]. injection E as <-.
  unfold AutomationModel.getById in Ha.
  unfold ended_with. split_and!.
  - unfold events_of. cbn [reply]. apply RunFacts.protocol_ok_complete.
  - unfold terminal_success, events_of. cbn [reply]. by rewrite last_snoc.
  - unfold final_status. cbn [db_after with_logs automations].
    unfold db2 in Ha |- *. cbn in Ha |- *. rewrite lookup_alter_eq in Ha |- *.
    by destruct (automations db !! id).
  - eexists _, _. cbn [db_after logs with_logs]. split_and!.
    + rewrite <- Hl2. by apply eq_None_not_Some.
    + rewrite <- Hl2. reflexivity.
    + done.
    + done.
    + cbn [l_automationName]. rewrite <- Hn2, Ha. done.
Qed.

(** X7.  The stream of a run is ended exactly when the run wrote its log
    entry.  If the handler ended the stream, the stream is
    [status · log* · complete], the automation is 'completed' when the
    complete event says success and 'failed' when it does not, and the logs
    gained exactly one entry, under a fresh id, for this automation, under
    its stored name and with the same status.  In every other case (400,
    setup error, stream left open) there is no complete event and no log
    entry was written, and the automation is not 'completed' unless the
    handler wrote nothing at all. *)
Theorem stream_ended_iff_log_entry_written (db : Database) (req : RunRequest) (env : Env) :
  let r := run_automation db req env in
  match reply r with
  | Streamed _ Ended => ∃ b, ended_with db (id req) b r
  | _ => not_ended db (id req) r
  end.
Proof.
  cbv zeta. unfold run_automation. case_bool_decide; [by cbn|].
  destruct (compiles (script req)); cbn [negb]; [|by cbn].
  set (db1 := AutomationModel.updateStatus db (id req) Running).
  set (calls := console_calls (script req)).
  assert (Hl1 : logs db1 = logs db) by done.
  assert (Hn1 : a_name <$> automations db1 !! id req = a_name <$> automations db !! id req).
  { unfold db1. cbn. rewrite lookup_alter_eq. by destruct (automations db !! id req). }
  pose proof (RunFacts.last_sent_not_complete calls) as Hlast.
  apply not_complete_None in Hlast.
  destruct (settlement (script req)) as [result json|message|].
  - unfold finish_run, store_result.
    assert (Hgo : ∀ d, logs d = logs db1 → automations d = automations db1 →
      match reply (complete_run d (id req) env (foldl logCapture started calls) result json)
      with
      | Streamed _ Ended =>
          ∃ b, ended_with db (id req) b
                 (complete_run d (id req) env (foldl logCapture started calls) result json)
      | _ => not_ended db (id req)
               (complete_run d (id req) env (foldl logCapture started calls) result json)
      end).
    { intros d Hld Had.
      pose proof (complete_run_verdict db d (id req) env calls result json) as Hv.
      cbv zeta in Hv. rewrite Hld, Had in Hv. specialize (Hv Hl1 Hn1).
      destruct (reply _) as [|evs []]; [| done | |];
        destruct Hv as (? & ? & ?); by split_and!. }
    destruct (truthy result).
    + destruct (AutomationModel.getById db1 (id req)) as [a|] eqn:Ha.
      * destruct (RunFacts.save_screenshot_same_core db1 (id req) env (fields result) a)
          as [Hsa Hsl].
        by apply Hgo.
      * cbn [reply]. split_and!; [done | done |].
        unfold final_status. cbn [db_after].
        unfold AutomationModel.getById in Ha. by rewrite Ha.
    + by apply Hgo.
  - pose proof (fail_run_verdict db db1 (id req) env calls message Hl1 Hn1) as Hv.
    cbv zeta in Hv. fold calls.
    destruct (reply _) as [|evs []]; [| eauto | |];
      destruct Hv as (? & ? & ?); by split_and!.
  - cbn [reply]. split_and!; [done | done |].
    unfold final_status. cbn. rewrite lookup_alter_eq.
    by destruct (automations db !! id req).
Qed.

End IntegrityFacts.

(** ** Referential integrity *)
Module ReferenceFacts.
Import Server.

Lemma refs_ok_shrink (db db' : Database) :
  (∀ k, is_Some (automations db !! k) → is_Some (automations db' !! k)) →
  outputs db' ⊆ outputs db → logs db' ⊆ logs db →
  refs_ok db → refs_ok db'.
Proof.
  intros Ha Ho Hl [HO HL]. split.
  - intros k row Hk. apply Ha, (HO k). by eapply lookup_weaken.
  - intros k row Hk. apply Ha, (HL k). by eapply lookup_weaken.
Qed.

Lemma refs_ok_updateStatus (db : Database) (id : string) (s : Status) :
  refs_ok db → refs_ok (AutomationModel.updateStatus db id s).
Proof.
  apply refs_ok_shrink; [|done|done].
  intros k [a Hk]. cbn. destruct (decide (k = id)) as [->|Hne].
  - rewrite lookup_alter_eq, Hk. by eexists.
  - rewrite lookup_alter_ne by done. by eexists.
Qed.

Lemma refs_ok_create_log (db db' : Database) (fault : bool) (k : string) (row : LogRow) :
  LogModel.create db fault k row = inr db' → refs_ok db → refs_ok db'.
Proof.
  unfold LogModel.create. destruct fault; [done|].
  case_decide; [done|]. case_decide; [|done]. intros [= <-] [HO HL].
  split; [done|]. cbn. by apply map_Forall_insert_2.
Qed.

Lemma refs_ok_saveOutput (db : Database) (fault : bool) (now_id now_ts : Z)
    (aid : string) (data : ArtifactData) (name type : string) :
  refs_ok db →
  refs_ok (OutputModel.saveOutput db fault now_id now_ts aid data name type).1.
Proof.
  intros [HO HL]. unfold OutputModel.saveOutput, OutputModel.create.
  destruct fault; [done|]. case_decide; [done|]. case_decide; [|done].
  split; [|done]. cbn. by apply map_Forall_insert_2.
Qed.

Lemma refs_ok_fail_run (db : Database) (id : string) (env : Env) (st : Capture)
    (message : string) :
  refs_ok db → refs_ok (db_after (fail_run db id env st message)).
Proof.
  intros Hok. apply (refs_ok_updateStatus db id Failed) in Hok.
  unfold fail_run. destruct (AutomationModel.getById _ id); [|done].
  destruct (LogModel.create _ _ _ _) eqn:E; [done|].
  by eapply refs_ok_create_log.
Qed.

Lemma refs_ok_complete_run (db : Database) (id : string) (env : Env) (st : Capture)
    (result : JsResult) (json : string) :
  refs_ok db → refs_ok (db_after (complete_run db id env st result json)).
Proof.
  intros Hok. apply (refs_ok_updateStatus db id Completed) in Hok.
  unfold complete_run. destruct (AutomationModel.getById _ id).
  - destruct (LogModel.create _ _ _ _) eqn:E.
    + by apply refs_ok_fail_run.
    + by eapply refs_ok_create_log.
  - by apply refs_ok_fail_run.
Qed.

Lemma refs_ok_run (db : Database) (req : RunRequest) (env : Env) :
  refs_ok db → refs_ok (db_after (run_automation db req env)).
Proof.
  intros Hok. unfold run_automation. case_bool_decide; [done|].
  destruct (compiles (script req)); cbn [negb]; [|done].
  apply (refs_ok_updateStatus db (id req) Running) in Hok.
  destruct (settlement (script req)) as [result json|message|].
  - unfold finish_run, store_result. destruct (truthy result).
    + destruct (AutomationModel.getById _ (id req)); [|done].
      apply refs_ok_complete_run. unfold save_screenshot.
      destruct (shot_truthy _); [|done]. by apply refs_ok_saveOutput.
    + by apply refs_ok_complete_run.
  - by apply refs_ok_fail_run.
  - done.
Qed.

Lemma refs_ok_delete_automation (db : Database) (id : string) :
  refs_ok db → refs_ok (AutomationRows.delete db id).1.
Proof.
  intros [HO HL]. unfold AutomationRows.delete.
  destruct (AutomationModel.getById db id); [|done]. split; cbn.
  - intros k row [Hk Hne]%map_lookup_filter_Some. cbn in Hne.
    rewrite lookup_delete_ne by done. by apply (HO k).
  - intros k row [Hk Hne]%map_lookup_filter_Some. cbn in Hne.
    rewrite lookup_delete_ne by done. by apply (HL k).
Qed.

(** X8.  Referential integrity is an invariant of the store: when every
    output and every log entry names an automation that exists, the same
    holds after a run of the run handler (whichever write fails), after
    saveOutput, after the deletion of an output, after the clean-up of old
    outputs (in whatever zone), after the deletion of an automation (which
    takes its logs and outputs with it), after the deletion of a log entry
    and after the logs are cleared. *)
Theorem writes_keep_references (db : Database) (req : RunRequest) (env : Env)
    (fault : bool) (now_id now_ts now days : Z) (id : string) (data : ArtifactData)
    (name type : string) (zone : OutputModel.Zone) :
  refs_ok db →
  refs_ok (db_after (run_automation db req env)) ∧
  refs_ok (OutputModel.saveOutput db fault now_id now_ts id data name type).1 ∧
  refs_ok (OutputModel.delete db id).1 ∧
  refs_ok (match OutputModel.cleanupOldOutputs zone db now days with
           | inr r => r.1
           | inl _ => db
           end) ∧
  refs_ok (AutomationRows.delete db id).1 ∧
  refs_ok (LogQueries.delete db id).1 ∧
  refs_ok (LogQueries.clearAll db).
Proof.
  intros Hok. split_and!.
  - by apply refs_ok_run.
  - by apply refs_ok_saveOutput.
  - unfold OutputModel.delete. destruct (OutputModel.getById db id); [|done].
    revert Hok. apply refs_ok_shrink; [done | apply delete_subseteq | done].
  - unfold OutputModel.cleanupOldOutputs.
    destruct (OutputModel.cutoffTimestamp zone now days) as [e|cutoff]; [exact Hok|].
    destruct (StoreFacts.sweep_state db cutoff) as (Ha & Hl & Ho & _).
    revert Hok. apply refs_ok_shrink.
    + by rewrite Ha.
    + rewrite Ho. apply map_filter_subseteq.
    + by rewrite Hl.
  - by apply refs_ok_delete_automation.
  - unfold LogQueries.delete. destruct (LogQueries.getById db id); [|done].
    revert Hok. apply refs_ok_shrink; [done | done | apply delete_subseteq].
  - revert Hok. apply refs_ok_shrink; [done | done | apply map_empty_subseteq].
Qed.

Lemma writes_keep_references_witness :
  refs_ok Samples.db_busy ∧
  refs_ok (db_after (run_automation Samples.db_busy (Samples.request "a1" Samples.script_shot)
                       Samples.env_slow)) ∧
  refs_ok (AutomationRows.delete Samples.db_busy "a1").1.
Proof.
  assert (H : refs_ok Samples.db_busy).
  { apply (bool_decide_unpack _). vm_compute. exact I. }
  split; [exact H|].
  pose proof (writes_keep_references Samples.db_busy
                (Samples.request "a1" Samples.script_shot) Samples.env_slow
                false 0 0 0 0 "a1" (JsonText "") "" "" Samples.utc H)
    as (H1 & _ & _ & _ & H5 & _).
  split; [exact H1 | exact H5].
Defined.

(** X9.  Deleting an automation removes that automation and, with it,
    exactly the log entries and the outputs that name it; every other
    automation, log entry and output is as it was.  The handler answers 200
    when the automation existed and 404 when it did not (and then nothing
    changes); afterwards no log entry and no output is found for the id,
    and a second deletion answers 404. *)
Theorem delete_automation_cascades (db : Database) (id : string) :
  let r := AutomationRows.delete db id in
  let existed := is_Some (automations db !! id) in
  (existed → r.2 = Some id ∧ (Endpoints.delete_automation db id).2 = Endpoints.Ok200) ∧
  (¬ existed → r = (db, None) ∧ Endpoints.delete_automation db id = (db, Endpoints.NotFound404)) ∧
  automations r.1 !! id = None ∧
  (∀ k, k ≠ id → automations r.1 !! k = automations db !! k) ∧
  (∀ k row, logs r.1 !! k = Some row ↔
            logs db !! k = Some row ∧ (existed → l_automationId row ≠ id)) ∧
  (∀ k row, outputs r.1 !! k = Some row ↔
            outputs db !! k = Some row ∧ (existed → o_automationId row ≠ id)) ∧
  (existed → LogQueries.getByAutomationId r.1 id = [] ∧
             OutputQueries.getByAutomationId r.1 id = []) ∧
  Endpoints.delete_automation r.1 id = (r.1, Endpoints.NotFound404).
Proof.
  cbv zeta. unfold Endpoints.delete_automation, AutomationRows.delete, AutomationModel.getById.
  destruct (automations db !! id) as [a|] eqn:Ha; cbn [fst snd automations logs outputs].
  - rewrite lookup_delete_eq. split_and!.
    + done.
    + intros []. by eexists.
    + done.
    + intros k Hk. by apply lookup_delete_ne.
    + intros k row. rewrite map_lookup_filter_Some. cbn. naive_solver.
    + intros k row. rewrite map_lookup_filter_Some. cbn. naive_solver.
    + intros _. unfold LogQueries.getByAutomationId, OutputQueries.getByAutomationId.
      cbn [logs outputs]. split.
      * destruct (filter _ (map_to_list _)) as [|x l] eqn:E; [done|].
        assert (Hx : x ∈ x :: l) by left. rewrite <- E in Hx.
        apply list_elem_of_filter in Hx as [Hx1 Hx2].
        destruct x as [k row]. apply elem_of_map_to_list in Hx2.
        apply map_lookup_filter_Some in Hx2 as [_ Hx2]. done.
      * destruct (filter _ (map_to_list _)) as [|x l] eqn:E; [done|].
        assert (Hx : x ∈ x :: l) by left. rewrite <- E in Hx.
        apply list_elem_of_filter in Hx as [Hx1 Hx2].
        destruct x as [k row]. apply elem_of_map_to_list in Hx2.
        apply map_lookup_filter_Some in Hx2 as [_ Hx2]. done.
    + done.
  - rewrite Ha. split_and!.
    + by intros [? ?].
    + done.
    + done.
    + done.
    + intros k row. split; [|naive_solver]. intros ?. split; [done|]. by intros [? ?].
    + intros k row. split; [|naive_solver]. intros ?. split; [done|]. by intros [? ?].
    + by intros [? ?].
    + done.
Qed.

End ReferenceFacts.

(** ** Texts *)
Module StringFacts.

Lemma app_String (c : ascii) (s t : string) : String c s +:+ t = String c (s +:+ t).
Proof. reflexivity. Qed.

Lemma app_empty (t : string) : "" +:+ t = t.
Proof. reflexivity. Qed.

Lemma app_empty_r (s : string) : s +:+ "" = s.
Proof. induction s as [|c s IH]; [done|]. by rewrite app_String, IH. Qed.

Lemma app_assoc_string (s t u : string) : (s +:+ t) +:+ u = s +:+ (t +:+ u).
Proof. induction s as [|c s IH]; [done|]. by rewrite !app_String, IH. Qed.

Lemma app_length_le (pre cap : string) :
  (String.length cap ≤ String.length (pre +:+ cap))%nat.
Proof.
  induction pre as [|c pre IH]; [by rewrite app_empty|].
  rewrite app_String. cbn [String.length]. lia.
Qed.

Lemma concat_empty_cons (x : string) (l : list string) :
  String.concat "" (x :: l) = x +:+ String.concat "" l.
Proof. destruct l; cbn [String.concat]; [by rewrite app_empty_r | done]. Qed.

(** Induction that looks two characters ahead. *)
Lemma string_ind2 (P : string → Prop) :
  P "" → (∀ c, P (String c "")) →
  (∀ c c' r, P r → P (String c' r) → P (String c (String c' r))) →
  ∀ s, P s.
Proof.
  intros H0 H1 H2 s.
  assert (H : P s ∧ ∀ c, P (String c s)); [|by destruct H].
  induction s as [|c' r [IHr IHc]]; [by split|].
  split; [apply IHc|]. intros c. apply H2; [done | apply IHc].
Qed.

End StringFacts.

(** ** The filename patterns *)
Module TextFacts.
Import Server StringFacts.

Lemma name_png_spec (s cap : string) :
  Text.name_png s = Some cap →
  Text.all_in_name_class cap = true ∧
  String.prefix cap s = true ∧
  ∃ stem, stem ≠ "" ∧ cap = stem +:+ ".png".
Proof.
  revert cap. induction s as [|c rest IH]; intros cap; cbn [Text.name_png]; [done|].
  destruct (Text.in_name_class c) eqn:Hc; [|done].
  destruct (Text.name_png rest) as [cap'|] eqn:E.
  - intros [= <-]. destruct (IH cap' eq_refl) as (Hall & Hpre & stem & Hstem & ->).
    split_and!.
    + cbn [Text.all_in_name_class]. by rewrite Hc, Hall.
    + cbn [String.prefix]. by destruct (ascii_dec c c).
    + exists (String c stem). done.
  - destruct (String.prefix ".png" rest) eqn:Hp; [|done]. intros [= <-]. split_and!.
    + cbn [Text.all_in_name_class]. rewrite Hc. reflexivity.
    + cbn [String.prefix]. by destruct (ascii_dec c c).
    + exists (String c ""). done.
Qed.

Lemma lazy_then_name_png_spec (s cap : string) :
  Text.lazy_then_name_png s = Some cap →
  Text.all_in_name_class cap = true ∧ ∃ stem, stem ≠ "" ∧ cap = stem +:+ ".png".
Proof.
  induction s as [|c rest IH]; cbn [Text.lazy_then_name_png].
  - cbn. done.
  - destruct (Text.name_png (String c rest)) as [cap'|] eqn:E.
    + intros [= <-]. apply name_png_spec in E. naive_solver.
    + destruct (Text.is_line_terminator c); [done | exact IH].
Qed.

Lemma match_screenshot_log_spec (s cap : string) :
  Text.match_screenshot_log s = Some cap →
  Text.all_in_name_class cap = true ∧ ∃ stem, stem ≠ "" ∧ cap = stem +:+ ".png".
Proof.
  induction s as [|c rest IH]; cbn [Text.match_screenshot_log].
  - destruct (String.prefix _ _); [|done].
    destruct (Text.lazy_then_name_png _) eqn:E; [|done].
    intros [= <-]. by apply lazy_then_name_png_spec in E.
  - destruct (if String.prefix Text.SHOT_MARKER (String c rest) then _ else _) eqn:E.
    + intros [= <-]. destruct (String.prefix _ _); [|done].
      by apply lazy_then_name_png_spec in E.
    + exact IH.
Qed.

Lemma last_hint_spec (calls : list (list string)) (f : string) :
  last_hint calls = Some f →
  Text.all_in_name_class f = true ∧ ∃ stem, stem ≠ "" ∧ f = stem +:+ ".png".
Proof.
  unfold last_hint. intros Hl.
  assert (Hin : f ∈ omap (fun args => scrape (Text.join " " args)) calls).
  { apply last_Some in Hl as [l' ->]. set_solver. }
  apply list_elem_of_omap in Hin as (args & _ & Hs).
  unfold scrape in Hs. destruct (Text.includes _ _); [|done].
  by apply match_screenshot_log_spec in Hs.
Qed.


Lemma match_last_segment_spec (s cap : string) :
  Text.match_last_segment s = Some cap →
  cap ≠ "" ∧ Text.all_in_name_class cap = true ∧
  (∃ pre, s = pre +:+ cap) ∧
  ∀ pre' cap', s = pre' +:+ cap' → Text.all_in_name_class cap' = true →
               (String.length cap' ≤ String.length cap)%nat.
Proof.
  revert cap. induction s as [|c rest IH]; intros cap; cbn [Text.match_last_segment]; [done|].
  destruct (Text.all_in_name_class (String c rest)) eqn:Hall.
  - intros [= <-]. split_and!; [done | done | by exists "" |].
    intros pre' cap' -> _. apply app_length_le.
  - intros Hm. destruct (IH cap Hm) as (Hne & Hc & [pre ->] & Hmax).
    split_and!; [done | done | by exists (String c pre) |].
    intros pre' cap' Heq Hc'. destruct pre' as [|c' pre'].
    + rewrite app_empty in Heq. subst cap'. congruence.
    + rewrite app_String in Heq. injection Heq as -> Heq. by eapply Hmax.
Qed.

Lemma all_in_name_class_last (pre : string) (c : ascii) :
  Text.all_in_name_class (pre +:+ String c "") = true → Text.in_name_class c = true.
Proof.
  induction pre as [|p pre IH].
  - rewrite app_empty. cbn [Text.all_in_name_class]. by rewrite andb_true_r.
  - rewrite app_String. cbn [Text.all_in_name_class].
    intros [_ H]%andb_true_iff. by apply IH.
Qed.

Lemma match_last_segment_None (s : string) :
  Text.match_last_segment s = None ↔
  s = "" ∨ ∃ pre c, s = pre +:+ String c "" ∧ Text.in_name_class c = false.
Proof.
  induction s as [|c rest IH]; cbn [Text.match_last_segment].
  - split; [by left | done].
  - destruct (Text.all_in_name_class (String c rest)) eqn:Hall.
    + split; [done|]. intros [|(pre & c' & Heq & Hc')]; [done|].
      rewrite Heq in Hall. apply all_in_name_class_last in Hall. congruence.
    + rewrite IH. split.
      * intros [->|(pre & c' & -> & Hc')].
        -- right. exists "", c. split; [done|]. cbn [Text.all_in_name_class] in Hall.
           by rewrite andb_true_r in Hall.
        -- right. by exists (String c pre), c'.
      * intros [|(pre & c' & Heq & Hc')]; [done|]. destruct pre as [|p pre].
        -- rewrite app_empty in Heq. injection Heq as -> ->. by left.
        -- rewrite app_String in Heq. injection Heq as -> ->. right. by exists pre, c'.
Qed.

(** X10.  What [path.match(/([^\/\\]+)$/)] extracts is the file name of the
    path: the longest run of characters without a slash or backslash that
    reaches the end of the text; it is never empty, and there is none
    exactly when the path is empty or ends with a separator. *)
Theorem match_last_segment_is_the_basename (path : string) :
  match Text.match_last_segment path with
  | Some seg =>
      seg ≠ "" ∧ Text.all_in_name_class seg = true ∧
      (∃ pre, path = pre +:+ seg) ∧
      ∀ pre' seg', path = pre' +:+ seg' → Text.all_in_name_class seg' = true →
                   (String.length seg' ≤ String.length seg)%nat
  | None =>
      path = "" ∨ ∃ pre c, path = pre +:+ String c "" ∧ Text.in_name_class c = false
  end.
Proof.
  destruct (Text.match_last_segment path) as [seg|] eqn:E.
  - by apply match_last_segment_spec.
  - by apply match_last_segment_None.
Qed.

Lemma fail_run_no_filename (db : Database) (id : string) (env : Env)
    (calls : list (list string)) (m : string) :
  reported_filename (fail_run db id env (foldl logCapture started calls) m) = None.
Proof.
  unfold reported_filename, events_of.
  destruct (RunFacts.fail_run_cases db id env (foldl logCapture started calls) m)
    as [(m' & d' & ->) | (d' & ->)]; cbn [reply].
  - pose proof (RunFacts.last_sent_not_complete calls) as Hl.
    by destruct (last _) as [[]|].
  - by rewrite last_snoc.
Qed.

Lemma reported_filename_final (db : Database) (req : RunRequest) (env : Env) (f : string) :
  reported_filename (run_automation db req env) = Some f →
  ∃ result, final_filename (foldl logCapture started (console_calls (script req))) result
            = Some f.
Proof.
  unfold run_automation. case_bool_decide; [done|].
  destruct (compiles (script req)); cbn [negb]; [|done].
  pose proof (RunFacts.last_sent_not_complete (console_calls (script req))) as Hl.
  destruct (settlement (script req)) as [result json|message|].
  - unfold finish_run. destruct (store_result _ _ _ _) as [db2|].
    + unfold complete_run. destruct (AutomationModel.getById _ _).
      * destruct (LogModel.create _ _ _ _).
        -- by rewrite fail_run_no_filename.
        -- unfold reported_filename, events_of. cbn [reply]. rewrite last_snoc.
           intros Hf. by exists result.
      * by rewrite fail_run_no_filename.
    + unfold reported_filename, events_of. cbn [reply]. by destruct (last _) as [[]|].
  - by rewrite fail_run_no_filename.
  - unfold reported_filename, events_of. cbn [reply]. by destruct (last _) as [[]|].
Qed.

(** X11.  The filename a run reports in its complete event is a bare file
    name, whatever the script logged or returned: it is not empty and holds
    neither a slash nor a backslash; and when it comes from a log line it
    ends in ".png", after at least one other character. *)
Theorem reported_filename_is_a_bare_name (db : Database) (req : RunRequest) (env : Env)
    (f : string) :
  reported_filename (run_automation db req env) = Some f →
  f ≠ "" ∧ Text.all_in_name_class f = true ∧
  (is_Some (last_hint (console_calls (script req))) →
   ∃ stem, stem ≠ "" ∧ f = stem +:+ ".png").
Proof.
  intros Hf. apply reported_filename_final in Hf as [result Hf].
  unfold final_filename in Hf. rewrite RunFacts.hint_foldl_logCapture in Hf.
  cbn [hint started] in Hf.
  destruct (last_hint _) as [g|] eqn:Hh.
  - injection Hf as ->. apply last_hint_spec in Hh as (Hall & stem & Hstem & ->).
    split_and!; [by destruct stem | done | by eauto].
  - destruct (_ && _); [|done].
    apply match_last_segment_spec in Hf as (Hne & Hall & _).
    split_and!; [done | done | by intros [? ?]].
Qed.

Lemma reported_filename_is_a_bare_name_witness :
  reported_filename (run_automation Samples.db_fresh
                       (Samples.request "a1" Samples.script_shot) Samples.env_quiet)
    = Some "a.png" ∧
  "a.png" ≠ "" ∧ Text.all_in_name_class "a.png" = true.
Proof.
  split; [reflexivity|].
  destruct (reported_filename_is_a_bare_name Samples.db_fresh
              (Samples.request "a1" Samples.script_shot) Samples.env_quiet "a.png" eq_refl)
    as (H1 & H2 & _).
  split; [exact H1 | exact H2].
Defined.

End TextFacts.

(** ** The event stream between server and client *)
Module StreamFacts.
Import Api Framing StringFacts.

Lemma no_blank_line_tail (c : ascii) (s : string) :
  no_blank_line (String c s) = true → no_blank_line s = true.
Proof.
  cbn [no_blank_line]. destruct s as [|c' r]; [done|].
  by intros [_ H]%andb_true_iff.
Qed.

Lemma no_blank_line_app_r (x y : string) :
  no_blank_line (x +:+ y) = true → no_blank_line y = true.
Proof.
  induction x as [|c x IH]; [done|]. rewrite app_String.
  intros H%no_blank_line_tail. by apply IH.
Qed.

Lemma no_blank_line_pair (x : string) (c c' : ascii) (y : string) :
  no_blank_line (x +:+ String c (String c' y)) = true → is_lf c && is_lf c' = false.
Proof.
  intros H%no_blank_line_app_r. cbn [no_blank_line] in H.
  apply andb_true_iff in H as [H _]. by apply negb_true_iff in H.
Qed.

Lemma no_blank_line_snoc (x : string) (c c' : ascii) :
  no_blank_line (x +:+ String c "") = true → is_lf c && is_lf c' = false →
  no_blank_line ((x +:+ String c "") +:+ String c' "") = true.
Proof.
  intros Hx Hc. induction x as [|d x IH].
  - cbv [String.append]. cbn [no_blank_line]. by rewrite Hc.
  - destruct x as [|e x].
    + cbv [String.append] in Hx |- *. cbn [no_blank_line] in Hx |- *.
      rewrite Hc. cbn [negb andb]. by rewrite andb_true_r in Hx |- *.
    + change (no_blank_line (String d (String e ((x +:+ String c "") +:+ String c' ""))) = true).
      change (no_blank_line (String d (String e (x +:+ String c ""))) = true) in Hx.
      cbn [no_blank_line] in Hx |- *.
      apply andb_true_iff in Hx as [Hde Hx]. rewrite Hde. cbn [andb].
      apply IH. exact Hx.
Qed.

(** Scanning on from a frame under way is scanning it afresh, as long
    as the part already read, with the next character, holds no
    separator. *)
Lemma split_frames_rescan (cur pre b : string) :
  no_blank_line ((pre +:+ cur) +:+ first_char b) = true →
  split_frames pre (cur +:+ b) = split_frames (pre +:+ cur) b.
Proof.
  revert pre. induction cur as [|c cur IH]; intros pre H.
  - by rewrite app_empty, app_empty_r.
  - rewrite app_String. cbn [split_frames].
    assert (Hassoc : pre +:+ String c cur = (pre +:+ String c "") +:+ cur).
    { by rewrite app_assoc_string, app_String, app_empty. }
    destruct cur as [|c' cur'].
    + rewrite app_empty. destruct b as [|c' b'].
      * done.
      * cbn [first_char] in H. rewrite app_assoc_string, app_String, app_empty in H.
        apply no_blank_line_pair in H. by rewrite H.
    + rewrite app_String.
      rewrite app_assoc_string, !app_String in H.
      pose proof (no_blank_line_pair _ _ _ _ H) as Hcc. rewrite Hcc.
      rewrite <- app_String. rewrite IH.
      * by rewrite Hassoc.
      * rewrite <- Hassoc. by rewrite app_assoc_string, !app_String.
Qed.

(** What is left after the last separator holds no separator. *)
Lemma split_frames_tail_calm (s : string) :
  ∀ cur, no_blank_line (cur +:+ first_char s) = true →
         no_blank_line (split_frames cur s).2 = true.
Proof.
  induction s as [|c|c c' r IHr IHc] using string_ind2; intros cur H.
  - cbn. by rewrite app_empty_r in H.
  - done.
  - cbn [first_char] in H.
    change (split_frames cur (String c (String c' r)))
      with (if is_lf c && is_lf c'
            then let '(frames, tail) := split_frames "" r in (cur :: frames, tail)
            else split_frames (cur +:+ String c "") (String c' r)).
    destruct (is_lf c && is_lf c') eqn:Hcc.
    + specialize (IHr ""). destruct (split_frames "" r) as [frames tail]. cbn [snd] in *.
      apply IHr. rewrite app_empty. by destruct r.
    + apply IHc. cbn [first_char]. by apply no_blank_line_snoc.
Qed.

(** Splitting a text is splitting its first part, then what that left
    together with the rest. *)
Lemma split_frames_app (a : string) :
  ∀ cur b, no_blank_line (cur +:+ first_char (a +:+ b)) = true →
    split_frames cur (a +:+ b) =
      ((split_frames cur a).1 ++ (split_frames "" ((split_frames cur a).2 +:+ b)).1,
       (split_frames "" ((split_frames cur a).2 +:+ b)).2).
Proof.
  induction a as [|c|c c' r IHr IHc] using string_ind2; intros cur b H.
  - rewrite app_empty in H |- *. cbn [split_frames fst snd app].
    rewrite (split_frames_rescan cur "" b) by (by rewrite app_empty).
    rewrite app_empty. by destruct (split_frames cur b).
  - rewrite app_String, app_empty in H |- *. cbn [first_char] in H.
    change (split_frames cur (String c "")) with (([] : list string), cur +:+ String c "").
    cbn [fst snd app].
    rewrite app_assoc_string, app_String, app_empty.
    rewrite (split_frames_rescan cur "" (String c b)) by (by rewrite app_empty).
    rewrite app_empty. by destruct (split_frames cur _).
  - rewrite !app_String in H |- *. cbn [first_char] in H.
    change (split_frames cur (String c (String c' (r +:+ b))))
      with (if is_lf c && is_lf c'
            then let '(frames, tail) := split_frames "" (r +:+ b) in (cur :: frames, tail)
            else split_frames (cur +:+ String c "") (String c' (r +:+ b))).
    change (split_frames cur (String c (String c' r)))
      with (if is_lf c && is_lf c'
            then let '(frames, tail) := split_frames "" r in (cur :: frames, tail)
            else split_frames (cur +:+ String c "") (String c' r)).
    destruct (is_lf c && is_lf c') eqn:Hcc.
    + rewrite (IHr "" b) by (rewrite app_empty; by destruct (r +:+ b)).
      by destruct (split_frames "" r) as [frames tail].
    + rewrite <- app_String. apply IHc.
      rewrite app_String. cbn [first_char]. by apply no_blank_line_snoc.
Qed.

Lemma all_frames_buffer (cs : list (Z * string)) :
  ∀ buffer, no_blank_line buffer = true →
    all_frames cs buffer = (split_frames "" (buffer +:+ chunk_text cs)).1.
Proof.
  induction cs as [|[t text] cs IH]; intros buffer Hb.
  - cbn [all_frames chunk_text fmap list_fmap String.concat].
    rewrite (split_frames_rescan buffer "" "")
      by (by rewrite app_empty, app_empty_r).
    done.
  - cbn [all_frames]. unfold chunk_text. cbn [fmap list_fmap snd].
    rewrite concat_empty_cons. fold (chunk_text cs).
    rewrite <- app_assoc_string.
    rewrite (split_frames_app (buffer +:+ text) "" (chunk_text cs))
      by (rewrite app_empty; by destruct ((buffer +:+ text) +:+ chunk_text cs)).
    pose proof (split_frames_tail_calm (buffer +:+ text) "") as Ht.
    destruct (split_frames "" (buffer +:+ text)) as [frames tail]. cbn [fst snd] in *.
    rewrite IH; [done|]. apply Ht. rewrite app_empty. by destruct (buffer +:+ text).
Qed.

(** X12.  The frames the reading loop of the client sees do not depend on
    how the transport cuts the body into chunks: they are the frames of the
    whole text, each one once and in order, and what the buffer holds at the
    end is what follows the last separator.  Two adjacent line feeds that
    arrive in different chunks are still one separator. *)
Theorem frames_do_not_depend_on_chunking (cs cs' : list (Z * string)) :
  all_frames cs "" = (split_frames "" (chunk_text cs)).1 ∧
  (chunk_text cs = chunk_text cs' → all_frames cs "" = all_frames cs' "").
Proof.
  assert (H : ∀ l, all_frames l "" = (split_frames "" (chunk_text l)).1).
  { intros l. by rewrite (all_frames_buffer l ""). }
  split; [apply H|]. intros Heq. by rewrite !H, Heq.
Qed.

Lemma split_frames_payload (x : string) :
  ∀ cur s, no_lf x = true →
    split_frames cur (x +:+ Text.nl +:+ Text.nl +:+ s) =
      ((cur +:+ x) :: (split_frames "" s).1, (split_frames "" s).2).
Proof.
  induction x as [|c x IH]; intros cur s Hx.
  - rewrite app_empty, app_empty_r.
    change (Text.nl +:+ Text.nl +:+ s)
      with (String (ascii_of_nat 10) (String (ascii_of_nat 10) s)).
    cbn [split_frames].
    destruct (is_lf _ && is_lf _) eqn:E; [|vm_compute in E; discriminate E].
    by destruct (split_frames "" s).
  - cbn [no_lf] in Hx. apply andb_true_iff in Hx as [Hc Hx]. apply negb_true_iff in Hc.
    rewrite app_String. cbn [split_frames].
    destruct (x +:+ Text.nl +:+ Text.nl +:+ s) as [|c' r] eqn:E.
    { destruct x; discriminate E. }
    rewrite Hc. cbn [andb]. rewrite <- E, IH by done.
    by rewrite app_assoc_string, app_String, app_empty.
Qed.

Lemma split_frames_wire (payloads : list string) :
  Forall (fun p => no_lf p = true) payloads →
  split_frames "" (wire payloads) = ((fun p => "data: " +:+ p) <$> payloads, "").
Proof.
  unfold wire. induction 1 as [|p ps Hp Hps IH]; [done|].
  cbn [fmap list_fmap]. rewrite concat_empty_cons. unfold frame at 1.
  rewrite <- (app_assoc_string "data: " p), app_assoc_string.
  rewrite (app_assoc_string Text.nl Text.nl).
  rewrite split_frames_payload.
  - fold (fmap (M:=list) frame ps). rewrite IH. by rewrite app_empty.
  - change (no_lf ("data: " +:+ p)) with (no_lf p). done.
Qed.

(** X13.  Every event the server writes reaches the loop of the client
    exactly once and in order, whatever the chunking: when the chunks
    received are, together, the text that sendEvent wrote for a sequence of
    payloads without a line feed (JSON.stringify escapes line feeds), the
    frames seen are ["data: " + payload], one for each event, and nothing is
    left in the buffer. *)
Theorem server_events_arrive_once_in_order (payloads : list string)
    (cs : list (Z * string)) :
  Forall (fun p => no_lf p = true) payloads →
  chunk_text cs = wire payloads →
  all_frames cs "" = (fun p => "data: " +:+ p) <$> payloads ∧
  (split_frames "" (chunk_text cs)).2 = "".
Proof.
  intros Hp Hcs. rewrite (all_frames_buffer cs "") by done.
  rewrite app_empty, Hcs, split_frames_wire by done. done.
Qed.

(** Two events cut into three chunks, the separator of the first one
    across a chunk boundary. *)
Lemma server_events_arrive_once_in_order_witness :
  all_frames [(10, "data: {a}" +:+ Text.nl); (20, Text.nl +:+ "data: "); (30, "{b}" +:+ Text.nl +:+ Text.nl)] ""
  = ["data: {a}"; "data: {b}"].
Proof.
  refine (proj1 (server_events_arrive_once_in_order ["{a}"; "{b}"] _ _ _)).
  - repeat constructor.
  - reflexivity.
Defined.

End StreamFacts.

(** ** The cache of fetchAPI *)
Module CacheFacts.
Import Js Api ApiCache.

(** What a request that goes to the network resolves to. *)
Lemma fetchAPI_network (cache : gmap string CacheEntry) (now : Z) (endpoint : string)
    (is_get : bool) (t : Transport) :
  (is_get = true → ∀ e, cache !! endpoint = Some e → CACHE_EXPIRY <= now - timestamp e) →
  (fetchAPI cache now endpoint is_get t).1 =
    Fulfilled (match attempt endpoint t with
               | inr d => d
               | inl message => fallback endpoint message
               end).
Proof.
  intros Hstale. unfold fetchAPI. destruct is_get.
  - destruct (cache !! endpoint) as [e|] eqn:E.
    + specialize (Hstale eq_refl e eq_refl).
      destruct (now - timestamp e <? CACHE_EXPIRY) eqn:Hlt; [lia|].
      by destruct (attempt endpoint t).
    + by destruct (attempt endpoint t).
  - by destruct (attempt endpoint t).
Qed.

(** X14.  The cache of fetchAPI.  A GET that had to fetch, because the
    cache held no entry for the endpoint or one that had expired, and got a
    value remembers it under the instant of the fetch: a second GET of the
    same endpoint less than CACHE_EXPIRY (30 s) later resolves with the
    same value whatever the network does then, and leaves the cache as it
    is; from CACHE_EXPIRY on the second GET goes to the network again.  A
    request that fails is not remembered, no request changes the entry of
    another endpoint, and a request that is not a GET neither reads nor
    writes the cache. *)
Theorem fetchAPI_remembers_fetched_values (cache : gmap string CacheEntry) (now now' : Z)
    (endpoint : string) (is_get : bool) (t t' : Transport) :
  let r := fetchAPI cache now endpoint is_get t in
  (∀ d, is_get = true →
        (∀ e, cache !! endpoint = Some e → CACHE_EXPIRY <= now - timestamp e) →
        attempt endpoint t = inr d →
        r.1 = Fulfilled d ∧
        r.2 !! endpoint = Some {| data := d; timestamp := now |} ∧
        (now' - now < CACHE_EXPIRY →
         fetchAPI r.2 now' endpoint true t' = (Fulfilled d, r.2)) ∧
        (CACHE_EXPIRY <= now' - now →
         (fetchAPI r.2 now' endpoint true t').1 =
           Fulfilled (match attempt endpoint t' with
                      | inr d' => d'
                      | inl message => fallback endpoint message
                      end))) ∧
  (∀ message, attempt endpoint t = inl message → r.2 = cache) ∧
  (∀ k, k ≠ endpoint → r.2 !! k = cache !! k) ∧
  (is_get = false →
   r.2 = cache ∧ r.1 = (fetchAPI ∅ now endpoint false t).1).
Proof.
  cbv zeta. split_and!.
  - intros d -> Hstale Hd.
    assert (Hr : fetchAPI cache now endpoint true t =
                 (Fulfilled d, <[endpoint := {| data := d; timestamp := now |}]> cache)).
    { unfold fetchAPI. destruct (cache !! endpoint) as [e|] eqn:E.
      - specialize (Hstale e eq_refl).
        rewrite (proj2 (Z.ltb_ge _ _) Hstale). by rewrite Hd.
      - by rewrite Hd. }
    rewrite Hr. cbn [fst snd]. split_and!.
    + done.
    + by rewrite lookup_insert_eq.
    + intros Hlt. unfold fetchAPI. rewrite lookup_insert_eq. cbn [timestamp data].
      by rewrite (proj2 (Z.ltb_lt _ _) Hlt).
    + intros Hge. apply fetchAPI_network. intros _ e.
      rewrite lookup_insert_eq. intros [= <-]. done.
  - intros message Hm. unfold fetchAPI. rewrite Hm.
    destruct is_get; [|done]. destruct (cache !! endpoint) as [e|]; [|done].
    by destruct (_ <? _).
  - intros k Hk. unfold fetchAPI.
    destruct is_get.
    + destruct (cache !! endpoint) as [e|].
      * destruct (_ <? _); [done|]. destruct (attempt endpoint t); [done|].
        cbn [snd]. by rewrite lookup_insert_ne.
      * destruct (attempt endpoint t); [done|]. cbn [snd]. by rewrite lookup_insert_ne.
    + by destruct (attempt endpoint t).
  - intros ->. unfold fetchAPI. by destruct (attempt endpoint t).
Qed.

(** X15.  clearOutputsCache forgets exactly the endpoints whose text
    contains 'output' or 'Output': after it, a GET of such an endpoint goes
    to the network whatever was cached, while the entry of every other
    endpoint is still there and still answers while it is fresh. *)
Theorem clearOutputsCache_forces_refetch (cache : gmap string CacheEntry) (now : Z)
    (endpoint : string) (t : Transport) :
  let cleared := clearOutputsCache cache in
  (about_outputs endpoint →
   cleared !! endpoint = None ∧
   (fetchAPI cleared now endpoint true t).1 =
     Fulfilled (match attempt endpoint t with
                | inr d => d
                | inl message => fallback endpoint message
                end)) ∧
  (¬ about_outputs endpoint →
   cleared !! endpoint = cache !! endpoint ∧
   (fetchAPI cleared now endpoint true t).1 = (fetchAPI cache now endpoint true t).1) ∧
  cleared ⊆ cache ∧
  clearOutputsCache cleared = cleared.
Proof.
  cbv zeta. unfold clearOutputsCache. split_and!.
  - intros Ho.
    assert (Hnone : filter (fun kv : string * CacheEntry => ¬ about_outputs kv.1) cache
                    !! endpoint = None).
    { apply map_lookup_filter_None. right. intros e _ Hn. by apply Hn. }
    split; [done|]. apply fetchAPI_network. intros _ e. by rewrite Hnone.
  - intros Hn.
    assert (Hsame : filter (fun kv : string * CacheEntry => ¬ about_outputs kv.1) cache
                    !! endpoint = cache !! endpoint).
    { destruct (cache !! endpoint) as [e|] eqn:E.
      - by apply map_lookup_filter_Some.
      - apply map_lookup_filter_None. by left. }
    split; [done|]. unfold fetchAPI. rewrite Hsame.
    destruct (cache !! endpoint) as [e|]; [destruct (_ <? _); [done|]|];
      by destruct (attempt endpoint t).
  - apply map_filter_subseteq.
  - apply map_eq. intros k.
    destruct (filter _ cache !! k) as [e|] eqn:E.
    + apply map_lookup_filter_Some. split; [done|].
      by apply map_lookup_filter_Some in E as [_ ?].
    + apply map_lookup_filter_None. by left.
Qed.

End CacheFacts.

(** ** The grouped view of the output store *)
Module GroupingFacts.
Import Js OutputStore.

#[global] Instance latest_first_total : Total latest_first.
Proof. intros a b. unfold latest_first. lia. Qed.

#[global] Instance latest_first_trans : Transitive latest_first.
Proof. intros a b c. unfold latest_first. lia. Qed.

Lemma push_keys (g : Grouping) (f : OutputFile) (k : string) :
  k ∈ (push g f).*1 ↔ k ∈ g.*1 ∨ k = type_key f.
Proof.
  induction g as [|[k' fs] g IH]; cbn [push].
  - cbn. set_solver.
  - case_bool_decide; cbn [fmap list_fmap fst]; set_solver.
Qed.

Lemma push_grouping (g : Grouping) (l : list OutputFile) (f : OutputFile) :
  grouping_of g l → grouping_of (push g f) (l ++ [f]).
Proof.
  intros (Hnd & Hall & Hperm). split_and!.
  - clear Hall Hperm. induction g as [|[k fs] g IH]; cbn [push].
    + cbn. apply NoDup_singleton.
    + cbn [fmap list_fmap fst] in Hnd. apply NoDup_cons in Hnd as [Hk Hnd].
      case_bool_decide; cbn [fmap list_fmap fst]; apply NoDup_cons.
      * done.
      * split; [|by apply IH]. rewrite push_keys. intros [|]; [done | by subst].
  - clear Hnd Hperm. induction g as [|[k fs] g IH]; cbn [push].
    + repeat constructor; done.
    + apply Forall_cons in Hall as [[Hne Hfs] Hall].
      case_bool_decide; constructor; cbn [fst snd] in *.
      * split; [by destruct fs|]. apply Forall_app. split; [done|].
        by repeat constructor.
      * done.
      * done.
      * by apply IH.
  - rewrite <- Hperm. clear. induction g as [|[k fs] g IH]; cbn [push]; [done|].
    case_bool_decide; cbn [fmap list_fmap snd concat].
    + by rewrite <- !app_assoc, (Permutation_app_comm [f]).
    + by rewrite IH, app_assoc.
Qed.

Lemma foldl_push_grouping (fs : list OutputFile) :
  ∀ g l, grouping_of g l → grouping_of (foldl push g fs) (l ++ fs).
Proof.
  induction fs as [|f fs IH]; intros g l Hg; cbn [foldl].
  - by rewrite app_nil_r.
  - replace (l ++ f :: fs) with ((l ++ [f]) ++ fs) by (by rewrite <- app_assoc).
    by apply IH, push_grouping.
Qed.

Lemma sorted_grouping (g : Grouping) (l : list OutputFile) :
  grouping_of g l →
  grouping_of ((fun kv : string * list OutputFile =>
                  (kv.1, merge_sort latest_first kv.2)) <$> g) l.
Proof.
  intros (Hnd & Hall & Hperm). split_and!.
  - rewrite <- list_fmap_compose. exact Hnd.
  - apply Forall_fmap. eapply Forall_impl; [exact Hall|].
    intros [k fs] [Hne Hfs]. cbn [fst snd] in *. split.
    + intros Hnil. apply Hne. apply Permutation_nil.
      by rewrite <- Hnil, merge_sort_Permutation.
    + by rewrite merge_sort_Permutation.
  - rewrite <- Hperm. clear. induction g as [|[k fs] g IH]; [done|].
    cbn [fmap list_fmap snd concat] in *. by rewrite IH, merge_sort_Permutation.
Qed.

Lemma group_outputs_grouping (files priority : list OutputFile) :
  grouping_of (group_outputs files priority) (shown_files files priority).
Proof.
  unfold group_outputs, shown_files. apply sorted_grouping.
  apply foldl_push_grouping.
  apply (foldl_push_grouping priority [] []).
  split_and!; [constructor | constructor | done].
Qed.

Lemma elem_of_concat {A} (x : A) (ls : list (list A)) :
  x ∈ concat ls ↔ ∃ l, x ∈ l ∧ l ∈ ls.
Proof.
  induction ls as [|l ls IH]; cbn [concat]; [set_solver|].
  rewrite elem_of_app, IH. set_solver.
Qed.

Lemma grouping_elem (g : Grouping) (l : list OutputFile) (f : OutputFile) :
  grouping_of g l → (f ∈ l ↔ ∃ fs, (type_key f, fs) ∈ g ∧ f ∈ fs).
Proof.
  intros (_ & Hall & Hperm). rewrite <- Hperm. rewrite elem_of_concat. split.
  - intros (fs & Hf & Hfs). apply list_elem_of_fmap in Hfs as ([k fs'] & -> & Hin).
    rewrite Forall_forall in Hall. destruct (Hall _ Hin) as [_ Hkey].
    rewrite Forall_forall in Hkey. cbn [fst snd] in *.
    rewrite (Hkey f Hf). by exists fs'.
  - intros (fs & Hin & Hf). exists fs. split; [done|].
    apply list_elem_of_fmap. by exists (type_key f, fs).
Qed.

#[global] Instance index_le_total : Total index_le.
Proof. intros a b. unfold index_le. lia. Qed.

#[global] Instance index_le_trans : Transitive index_le.
Proof. intros a b c. unfold index_le. lia. Qed.

Lemma own_keys_order_shape (g : Grouping) :
  ∃ indexed named,
    own_keys_order g = indexed ++ named ∧
    Forall (fun kv : string * list OutputFile => is_Some (index_of kv.1)) indexed ∧
    StronglySorted index_le indexed ∧
    named = filter (fun kv : string * list OutputFile => ¬ is_Some (index_of kv.1)) g.
Proof.
  unfold own_keys_order. eexists _, _. split_and!.
  - reflexivity.
  - rewrite Forall_forall. intros kv Hin. rewrite merge_sort_Permutation in Hin.
    by apply list_elem_of_filter in Hin as [? _].
  - apply StronglySorted_merge_sort; apply _.
  - reflexivity.
Qed.

Lemma filter_complement {A} (P : A → Prop) `{!∀ x, Decision (P x)} (l : list A) :
  filter P l ++ filter (fun x => ¬ P x) l ≡ₚ l.
Proof.
  induction l as [|x l IH]; [done|]. rewrite !filter_cons.
  destruct (decide (P x)).
  - rewrite decide_False by tauto. cbn. by rewrite IH.
  - rewrite decide_True by done. rewrite <- Permutation_middle. by rewrite IH.
Qed.

Lemma own_keys_order_perm (g : Grouping) : own_keys_order g ≡ₚ g.
Proof.
  unfold own_keys_order. rewrite merge_sort_Permutation. apply filter_complement.
Qed.

Lemma concat_perm {A} (l l' : list (list A)) : l ≡ₚ l' → concat l ≡ₚ concat l'.
Proof.
  induction 1 as [|x l l' _ IH|x y l|l l' l'' _ IH1 _ IH2]; cbn [concat].
  - done.
  - by rewrite IH.
  - rewrite !app_assoc. by rewrite (Permutation_app_comm y x).
  - by etrans.
Qed.

Lemma grouping_of_perm (g g' : Grouping) (l : list OutputFile) :
  g' ≡ₚ g → grouping_of g l → grouping_of g' l.
Proof.
  intros Hp (Hnd & Hall & Hperm). split_and!.
  - by rewrite Hp.
  - by rewrite Hp.
  - rewrite <- Hperm. apply concat_perm. by rewrite Hp.
Qed.

Lemma grouped_push_all_spec (fs : list OutputFile) :
  ∀ g, match grouped_push_all g fs with
       | inl _ => ∃ f, f ∈ fs ∧ type_key f ∈ OBJECT_PROTOTYPE_KEYS
       | inr g' => (∀ f, f ∈ fs → type_key f ∉ OBJECT_PROTOTYPE_KEYS) ∧ g' = foldl push g fs
       end.
Proof.
  induction fs as [|f fs IH]; intros g; cbn [grouped_push_all foldl].
  - split; [|done]. intros f Hf. by apply elem_of_nil in Hf.
  - unfold grouped_push. case_bool_decide as Hk.
    + exists f. split; [left | done].
    + specialize (IH (push g f)). destruct (grouped_push_all (push g f) fs) as [e|g'].
      * destruct IH as (f' & Hf' & Hk'). exists f'. split; [by right | done].
      * destruct IH as [Hall ->]. split; [|done].
        intros f' [->|Hf']%elem_of_cons; [done | by apply Hall].
Qed.

(** The callback on the object: it raises exactly when a file it shows
    has a type that names a member of [Object.prototype]; otherwise it
    returns the groups of [group_outputs], listed in the order of the keys
    of the object. *)
Lemma group_object_spec (files priority : list OutputFile) :
  match group_object files priority with
  | inl _ => ∃ f, f ∈ shown_files files priority ∧ type_key f ∈ OBJECT_PROTOTYPE_KEYS
  | inr g =>
      (∀ f, f ∈ shown_files files priority → type_key f ∉ OBJECT_PROTOTYPE_KEYS) ∧
      g = own_keys_order (group_outputs files priority)
  end.
Proof.
  unfold group_object, shown_files, group_outputs.
  pose proof (grouped_push_all_spec priority []) as H1.
  destruct (grouped_push_all [] priority) as [e|g1].
  - destruct H1 as (f & Hf & Hk). exists f. split; [|done]. apply elem_of_app. by left.
  - destruct H1 as [Hall1 ->]. cbv zeta.
    set (rest := take 50 (filter _ files)).
    pose proof (grouped_push_all_spec rest (foldl push [] priority)) as H2.
    destruct (grouped_push_all (foldl push [] priority) rest) as [e|g2].
    + destruct H2 as (f & Hf & Hk). exists f. split; [|done]. apply elem_of_app. by right.
    + destruct H2 as [Hall2 ->]. split; [|done].
      intros f [Hf|Hf]%elem_of_app; [by apply Hall1 | by apply Hall2].
Qed.

Lemma grouping_keys (g : Grouping) (l : list OutputFile) (k : string) (fs : list OutputFile) :
  grouping_of g l → (k, fs) ∈ g → ∃ f, f ∈ l ∧ type_key f = k.
Proof.
  intros (_ & Hall & Hperm) Hin. rewrite Forall_forall in Hall.
  destruct (Hall _ Hin) as [Hne Hkey]. cbn [fst snd] in *.
  destruct fs as [|f fs]; [done|]. exists f. split.
  - rewrite <- Hperm. apply elem_of_concat. exists (f :: fs). split; [left|].
    apply list_elem_of_fmap. by exists (k, f :: fs).
  - by apply Forall_cons in Hkey as [? _].
Qed.

Lemma group_object_error (files priority : list OutputFile) (e : string) :
  group_object files priority = inl e → e = PUSH_TYPE_ERROR.
Proof.
  assert (H : ∀ fs g, grouped_push_all g fs = inl e → e = PUSH_TYPE_ERROR).
  { induction fs as [|f fs IH]; intros g; cbn [grouped_push_all]; [done|].
    unfold grouped_push. case_bool_decide; [by intros [= <-] | apply IH]. }
  unfold group_object. destruct (grouped_push_all [] priority) as [e1|g1] eqn:E1.
  - intros [= <-]. by eapply H.
  - cbv zeta. destruct (grouped_push_all g1 _) as [e2|g2] eqn:E2; [|done].
    intros [= <-]. by eapply H.
Qed.

(** On files of ordinary types the callback returns the grouping of
    [group_outputs], in the same order. *)
Lemma group_object_ordinary (files priority : list OutputFile) :
  Forall ordinary_type (shown_files files priority) →
  group_object files priority = inr (group_outputs files priority).
Proof.
  intros Hord. rewrite Forall_forall in Hord.
  pose proof (group_object_spec files priority) as Hs.
  destruct (group_object files priority) as [e|g].
  - destruct Hs as (f & Hf & Hk). by destruct (Hord f Hf).
  - destruct Hs as [_ ->]. f_equal. unfold own_keys_order.
    assert (Hnone : Forall (fun kv : string * list OutputFile => ¬ is_Some (index_of kv.1))
                           (group_outputs files priority)).
    { apply Forall_forall. intros [k fs] Hin. cbn [fst].
      destruct (grouping_keys _ _ k fs (group_outputs_grouping files priority) Hin)
        as (f & Hf & <-).
      destruct (Hord f Hf) as [_ ->]. by intros [? ?]. }
    assert (H1 : filter (fun kv : string * list OutputFile => is_Some (index_of kv.1))
                        (group_outputs files priority) = []).
    { clear - Hnone. induction Hnone as [|kv g Hkv _ IH]; [done|].
      by rewrite filter_cons, decide_False. }
    assert (H2 : filter (fun kv : string * list OutputFile => ¬ is_Some (index_of kv.1))
                        (group_outputs files priority) = group_outputs files priority).
    { clear - Hnone. induction Hnone as [|kv g Hkv _ IH]; [done|].
      by rewrite filter_cons, decide_True, IH. }
    rewrite H1, H2. done.
Qed.

(** The order of the keys on a sample: "7" and "10" are array indices and
    come first, by value; "07" is no array index (not canonical), nor is
    "4294967295" (past the largest index), and they stay where they were
    made, with "b" and 'other'.  A file of type "constructor" or
    "__proto__" makes the callback raise. *)
Lemma group_object_key_order :
  index_of "0" = Some 0%N ∧ index_of "07" = None ∧
  index_of "4294967294" = Some 4294967294%N ∧ index_of "4294967295" = None ∧
  index_of "" = None ∧ index_of "1e3" = None ∧
  match group_object [Samples.file "6" "4294967295" 6]
                     [Samples.file "1" "b" 1; Samples.file "2" "10" 2;
                      Samples.file "3" "7" 3; Samples.file "4" "" 4;
                      Samples.file "5" "07" 5; Samples.file "7" "10" 7] with
  | inr g => g.*1 = ["7"; "10"; "b"; "other"; "07"; "4294967295"]
  | inl _ => False
  end ∧
  group_object [] [Samples.file "1" "constructor" 1] = inl PUSH_TYPE_ERROR ∧
  group_object [Samples.file "1" "__proto__" 1] [] = inl PUSH_TYPE_ERROR ∧
  group_object [Samples.file "1" "toString" 1] [Samples.file "2" "screenshot" 2]
    = inl PUSH_TYPE_ERROR.
Proof. vm_compute. done. Qed.

(** X16.  The grouped view, as the callback of [outputsByType] computes it
    on a plain object.  The callback raises a TypeError exactly when a file
    it shows (a priority file, or one of the first 50 other files that are
    not among them) has a type that names a member of [Object.prototype].
    Otherwise the view is a partition of the shown files: the keys of the
    groups are distinct, no group is empty, every file sits in the group of
    its type ('other' when it has none) and in no other, each group is in
    timestamp-descending order, and the groups hold exactly the shown files,
    none lost and none twice.  The groups are listed as the keys of the
    object are: the groups whose type is an array index first, by
    ascending index, then the others in the order in which their first
    file was shown. *)
Theorem grouped_view_partitions_shown_files (files priority : list OutputFile) :
  match group_object files priority with
  | inl e =>
      e = "TypeError: grouped[type].push is not a function" ∧
      ∃ f, f ∈ shown_files files priority ∧
           type_key f ∈
             ["constructor"; "__proto__"; "hasOwnProperty"; "isPrototypeOf";
              "propertyIsEnumerable"; "toLocaleString"; "toString"; "valueOf";
              "__defineGetter__"; "__defineSetter__"; "__lookupGetter__";
              "__lookupSetter__"]
  | inr g =>
      (∀ f, f ∈ shown_files files priority →
            type_key f ∉
              ["constructor"; "__proto__"; "hasOwnProperty"; "isPrototypeOf";
               "propertyIsEnumerable"; "toLocaleString"; "toString"; "valueOf";
               "__defineGetter__"; "__defineSetter__"; "__lookupGetter__";
               "__lookupSetter__"]) ∧
      g ≡ₚ group_outputs files priority ∧
      NoDup g.*1 ∧
      (∀ k fs, (k, fs) ∈ g →
               fs ≠ [] ∧ StronglySorted latest_first fs ∧ ∀ f, f ∈ fs → type_key f = k) ∧
      concat g.*2 ≡ₚ shown_files files priority ∧
      (∀ f, f ∈ shown_files files priority ↔ ∃ fs, (type_key f, fs) ∈ g ∧ f ∈ fs) ∧
      (length (concat g.*2) ≤ length priority + 50)%nat ∧
      (∃ indexed named,
         g = indexed ++ named ∧
         Forall (fun kv : string * list OutputFile => is_Some (index_of kv.1)) indexed ∧
         StronglySorted index_le indexed ∧
         named = filter (fun kv : string * list OutputFile => ¬ is_Some (index_of kv.1))
                        (group_outputs files priority))
  end.
Proof.
  pose proof (group_object_spec files priority) as Hs.
  pose proof (group_object_error files priority) as He.
  destruct (group_object files priority) as [e|g]; [split; [by apply He | exact Hs]|].
  destruct Hs as [Hsafe ->].
  pose proof (own_keys_order_perm (group_outputs files priority)) as Hp.
  pose proof (grouping_of_perm _ _ _ Hp (group_outputs_grouping files priority)) as Hg.
  pose proof Hg as (Hnd & Hall & Hperm). split_and!.
  - done.
  - done.
  - done.
  - intros k fs Hin. rewrite Forall_forall in Hall.
    destruct (Hall _ Hin) as [Hne Hkey]. cbn [fst snd] in *. split_and!.
    + done.
    + rewrite Hp in Hin. unfold group_outputs in Hin.
      apply list_elem_of_fmap in Hin as ([k' fs'] & [= -> ->] & _).
      apply StronglySorted_merge_sort; apply _.
    + by rewrite Forall_forall in Hkey.
  - done.
  - intros f. by apply grouping_elem.
  - rewrite Hperm. unfold shown_files. rewrite length_app, length_take. lia.
  - apply own_keys_order_shape.
Qed.

Lemma regroup_after_removal (later : Z) (st1 : State) :
  cache_data st1 = None →
  let st2 := set_outputFiles later (outputFiles st1) st1 in
  let st3 := set_priorityOutputFiles later (priorityOutputFiles st2) st2 in
  outputsByType st3 = group_outputs (outputFiles st1) (priorityOutputFiles st1) ∧
  cache_data st3 = Some (outputsByType st3).
Proof.
  destruct st1 as [fs ps l p h c n pc cd ct g]. cbn [cache_data]. intros ->.
  cbv zeta. unfold set_outputFiles, set_priorityOutputFiles, recalculate.
  cbn [cache_data outputFiles priorityOutputFiles outputsByType cache_timestamp].
  rewrite Z.sub_diag. change (0 <? CACHE_TTL) with true.
  cbn [cache_data outputFiles priorityOutputFiles outputsByType cache_timestamp].
  split; reflexivity.
Qed.

Lemma deleteOutputFile_state (now later : Z) (id0 : string) (t : Api.Transport)
    (st : State) :
  (deleteOutputFile now later id0 t st).1 =
    set_priorityOutputFiles later
      (priorityOutputFiles
         (set_outputFiles later (outputFiles (remove_locally now id0 st))
            (remove_locally now id0 st)))
      (set_outputFiles later (outputFiles (remove_locally now id0 st))
         (remove_locally now id0 st)).
Proof.
  unfold deleteOutputFile.
  destruct (OutputStoreFacts.fetchAPI_fulfils ∅ later ("/outputs/" +:+ id0) false t)
    as [v Hv].
  rewrite Hv. reflexivity.
Qed.

Lemma shown_files_subset (files priority : list OutputFile) (f : OutputFile) :
  f ∈ shown_files files priority → f ∈ priority ∨ f ∈ files.
Proof.
  unfold shown_files. intros [Hf|Hf]%elem_of_app; [by left | right].
  apply elem_of_take in Hf as (i & Hi & _). apply list_elem_of_lookup_2 in Hi.
  by apply list_elem_of_filter in Hi as [_ ?].
Qed.



End GroupingFacts.

(** ** The log store of the client *)
Module LogsStoreFacts.
Import LogsStore StringFacts.

Lemma length_app_string (s t : string) :
  String.length (s +:+ t) = (String.length s + String.length t)%nat.
Proof.
  induction s as [|c s IH]; [done|]. rewrite app_String. cbn [String.length]. by rewrite IH.
Qed.

Lemma length_substring_0 (n : nat) (s : string) :
  String.length (String.substring 0 n s) = (n `min` String.length s)%nat.
Proof.
  revert s. induction n as [|n IH]; intros [|c s]; cbn [String.substring String.length];
    [done | done | done |]. by rewrite IH.
Qed.

Lemma substring_0_app (n m : nat) (s t : string) :
  (n ≤ m)%nat → (n ≤ String.length s)%nat →
  String.substring 0 n (String.substring 0 m s +:+ t) = String.substring 0 n s.
Proof.
  revert m s. induction n as [|n IH]; intros m s Hm Hs.
  - by destruct s, (String.substring 0 m _ +:+ t).
  - destruct m as [|m]; [lia|]. destruct s as [|c s]; cbn [String.length] in Hs; [lia|].
    cbn [String.substring]. rewrite app_String. cbn [String.substring].
    rewrite IH by lia. done.
Qed.

Lemma js_length_prefix (n : Z) (s : string) :
  0 <= n → js_length (js_prefix n s) = n `min` js_length s.
Proof. intros Hn. unfold js_length, js_prefix. rewrite length_substring_0. lia. Qed.

Lemma js_length_app (s t : string) : js_length (s +:+ t) = js_length s + js_length t.
Proof. unfold js_length. rewrite length_app_string. lia. Qed.

Lemma js_prefix_app (n m : Z) (s t : string) :
  0 <= n <= m → n <= js_length s →
  js_prefix n (js_prefix m s +:+ t) = js_prefix n s.
Proof.
  unfold js_length, js_prefix. intros Hn Hs. apply substring_0_app; lia.
Qed.

(** X18.  A log entry made by addLogEntry is put in front of the list and
    is the entry that is posted; its output is the output of the automation
    when that has at most 10000 characters, and never more than 10000
    characters and the notice.  Cutting the text for storage does not show
    in the list: what getTruncatedLogOutput gives for the stored entry is
    what it would give for the full text, the text itself up to 5000
    characters and its first 5000 characters and the notice beyond, so never
    more than 5000 characters and the notice. *)
Theorem stored_log_displays_like_the_full_text (now_id now_ts : Z)
    (automation : ClientAutomations.Automation) (st : Status) (logs : list LogEntry)
    (text : string) :
  ClientAutomations.output automation = Some text → text ≠ "" →
  ∃ e, addLogEntry now_id now_ts automation st logs = (e :: logs, Some e) ∧
       id e = id_of_ms now_id ∧
       automationId e = ClientAutomations.id automation ∧
       status e = st ∧
       (js_length text <= MAX_STORED_LENGTH → output e = text) ∧
       js_length (output e) <= MAX_STORED_LENGTH + js_length STORAGE_NOTICE ∧
       getTruncatedLogOutput e =
         (if bool_decide (MAX_LOG_LENGTH < js_length text)
          then js_prefix MAX_LOG_LENGTH text +:+ DISPLAY_NOTICE
          else text) ∧
       js_length (getTruncatedLogOutput e) <= MAX_LOG_LENGTH + js_length DISPLAY_NOTICE.
Proof.
  intros Ho Hne. unfold addLogEntry. rewrite Ho, bool_decide_eq_false_2 by done.
  eexists. split; [reflexivity|]. cbn [id automationId status output].
  assert (Hnotice : 0 <= js_length STORAGE_NOTICE) by (unfold js_length; lia).
  assert (Hdisplay : 0 <= js_length DISPLAY_NOTICE) by (unfold js_length; lia).
  assert (Hlen : 0 <= js_length text) by (unfold js_length; lia).
  split_and!; [done | done | done | | | |].
  - intros Hshort. by rewrite bool_decide_eq_false_2 by lia.
  - destruct (decide (MAX_STORED_LENGTH < js_length text)) as [Hlong|Hshort].
    + rewrite bool_decide_eq_true_2 by done.
      rewrite js_length_app, js_length_prefix by (unfold MAX_STORED_LENGTH; lia). lia.
    + rewrite bool_decide_eq_false_2 by done. lia.
  - unfold getTruncatedLogOutput. cbn [output].
    destruct (decide (MAX_STORED_LENGTH < js_length text)) as [Hlong|Hshort].
    + rewrite (bool_decide_eq_true_2 (MAX_STORED_LENGTH < js_length text)) by done.
      assert (Hstored : js_length (js_prefix MAX_STORED_LENGTH text +:+ STORAGE_NOTICE)
                        = MAX_STORED_LENGTH + js_length STORAGE_NOTICE).
      { rewrite js_length_app, js_length_prefix by (unfold MAX_STORED_LENGTH; lia). lia. }
      rewrite bool_decide_eq_false_2.
      2:{ intros Heq. rewrite Heq in Hstored. unfold MAX_STORED_LENGTH in Hstored.
          change (js_length "") with 0 in Hstored. lia. }
      rewrite bool_decide_eq_true_2
        by (rewrite Hstored; unfold MAX_LOG_LENGTH, MAX_STORED_LENGTH; lia).
      rewrite bool_decide_eq_true_2
        by (unfold MAX_LOG_LENGTH, MAX_STORED_LENGTH in *; lia).
      rewrite js_prefix_app; [done | unfold MAX_LOG_LENGTH, MAX_STORED_LENGTH; lia |].
      unfold MAX_LOG_LENGTH, MAX_STORED_LENGTH in *. lia.
    + rewrite (bool_decide_eq_false_2 (MAX_STORED_LENGTH < js_length text)) by done.
      by rewrite (bool_decide_eq_false_2 (text = "")) by done.
  - unfold getTruncatedLogOutput. cbn [output].
    set (stored := if bool_decide (MAX_STORED_LENGTH < js_length text)
                   then js_prefix MAX_STORED_LENGTH text +:+ STORAGE_NOTICE else text).
    destruct (bool_decide (stored = "")).
    { change (js_length "") with 0. unfold MAX_LOG_LENGTH. lia. }
    destruct (decide (MAX_LOG_LENGTH < js_length stored)) as [Hl|Hl].
    + rewrite bool_decide_eq_true_2 by done.
      rewrite js_length_app, js_length_prefix by (unfold MAX_LOG_LENGTH; lia). lia.
    + rewrite bool_decide_eq_false_2 by done. lia.
Qed.

Lemma stored_log_displays_like_the_full_text_witness :
  ∃ e, addLogEntry 7000 7000
         {| ClientAutomations.id := "a1"; ClientAutomations.name := "Wikipedia search";
            ClientAutomations.description := ""; ClientAutomations.script := "";
            ClientAutomations.status := Completed; ClientAutomations.createdAt := 0;
            ClientAutomations.updatedAt := 0; ClientAutomations.output := Some "done" |}
         Completed [] = ([e], Some e) ∧
       getTruncatedLogOutput e = "done".
Proof.
  destruct (stored_log_displays_like_the_full_text 7000 7000
              {| ClientAutomations.id := "a1"; ClientAutomations.name := "Wikipedia search";
                 ClientAutomations.description := ""; ClientAutomations.script := "";
                 ClientAutomations.status := Completed; ClientAutomations.createdAt := 0;
                 ClientAutomations.updatedAt := 0; ClientAutomations.output := Some "done" |}
              Completed [] "done" eq_refl ltac:(discriminate))
    as (e & H1 & _ & _ & _ & _ & _ & H7 & _).
  exists e. split; [exact H1 | exact H7].
Defined.

End LogsStoreFacts.

(** ** The automations of the client *)
Module ClientAutomationFacts.
Import ClientAutomations.

Lemma find_Some_id (items : list Automation) (id0 : string) (a : Automation) :
  find items id0 = Some a → id a = id0 ∧ a ∈ items.
Proof.
  induction items as [|b items IH]; cbn [find]; [done|].
  case_bool_decide.
  - intros [= <-]. split; [done | left].
  - intros [? ?]%IH. split; [done | by right].
Qed.

Lemma find_None (items : list Automation) (id0 : string) :
  find items id0 = None ↔ ∀ a, a ∈ items → id a ≠ id0.
Proof.
  induction items as [|b items IH]; cbn [find].
  - split; [|done]. intros _ a Ha. by apply elem_of_nil in Ha.
  - case_bool_decide as Hb.
    + split; [done|]. intros Hall. by destruct (Hall b (list_elem_of_here _ _)).
    + rewrite IH. split.
      * intros Hall a [->|Ha]%elem_of_cons; [done | by apply Hall].
      * intros Hall a Ha. apply Hall. by right.
Qed.

Lemma find_filter_ne (items : list Automation) (id0 k : string) :
  k ≠ id0 → find (filter (fun a => id a ≠ id0) items) k = find items k.
Proof.
  intros Hk. induction items as [|b items IH]; [done|].
  rewrite filter_cons. cbn [find]. case_decide as Hb.
  - cbn [find]. by rewrite IH.
  - rewrite IH. rewrite bool_decide_eq_false_2; [done|]. by rewrite Hb.
Qed.

Lemma length_filter_lt (items : list Automation) (id0 : string) :
  (length (filter (fun a => id a ≠ id0) items) < length items)%nat ↔
  is_Some (find items id0).
Proof.
  induction items as [|b items IH]; cbn [find length].
  - rewrite filter_nil. cbn. split; [lia | by intros [? ?]].
  - rewrite filter_cons. pose proof (length_filter (fun a => id a ≠ id0) items) as Hle.
    case_decide as Hb.
    + rewrite bool_decide_eq_false_2 by done. cbn [length]. rewrite <- IH. lia.
    + rewrite bool_decide_eq_true_2 by done.
      split; [by eexists | lia].
Qed.

(** X19.  deleteAutomation removes every automation with the id and only
    those: afterwards the id is not found, every other id is found as
    before, and the list is a sublist of the old one.  It answers success
    exactly when the id was there, and 'Automation not found' otherwise, in
    which case the list is as it was; a second deletion always answers
    'Automation not found'. *)
Theorem deleteAutomation_removes_the_id (items : list Automation) (id0 : string) :
  let r := deleteAutomation items id0 in
  getAutomationById r.1 id0 = inl "Automation not found" ∧
  (∀ k, k ≠ id0 → getAutomationById r.1 k = getAutomationById items k) ∧
  sublist r.1 items ∧
  r.2 = match find items id0 with
        | Some _ => inr id0
        | None => inl "Automation not found"
        end ∧
  (find items id0 = None → r.1 = items) ∧
  deleteAutomation r.1 id0 = (r.1, inl "Automation not found").
Proof.
  cbv zeta.
  assert (Hgone : find (filter (fun a => id a ≠ id0) items) id0 = None).
  { apply find_None. intros a Ha. by apply list_elem_of_filter in Ha as [? _]. }
  assert (Hfst : (deleteAutomation items id0).1 = filter (fun a => id a ≠ id0) items).
  { unfold deleteAutomation. by case_bool_decide. }
  rewrite Hfst. split_and!.
  - unfold getAutomationById. by rewrite Hgone.
  - intros k Hk. unfold getAutomationById. by rewrite find_filter_ne.
  - apply sublist_filter.
  - unfold deleteAutomation. pose proof (length_filter_lt items id0) as Hlt.
    case_bool_decide as Hb; cbn [snd].
    + apply Hlt in Hb as [a ->]. done.
    + destruct (find items id0); [|done]. exfalso. apply Hb, Hlt. by eexists.
  - intros Hnone. rewrite find_None in Hnone.
    clear Hgone Hfst. induction items as [|b items IH]; [done|].
    rewrite filter_cons, decide_True by (apply Hnone; left).
    f_equal. apply IH. intros a Ha. apply Hnone. by right.
  - unfold deleteAutomation. rewrite bool_decide_eq_false_2; [|].
    + f_equal. rewrite list_filter_filter. apply list_filter_iff. naive_solver.
    + rewrite length_filter_lt, Hgone. by intros [? ?].
Qed.

Lemma find_app_fresh (items : list Automation) (a : Automation) (k : string) :
  find (items ++ [a]) k =
    match find items k with
    | Some b => Some b
    | None => if bool_decide (id a = k) then Some a else None
    end.
Proof.
  induction items as [|b items IH]; [done|]. cbn [app find].
  destruct (bool_decide (id b = k)); [done | exact IH].
Qed.

Lemma replace_first_length (items : list Automation) (id0 : string) (u : Updates) (now : Z) :
  length (replace_first items id0 u now) = length items.
Proof.
  induction items as [|b items IH]; [done|]. cbn [replace_first].
  case_bool_decide; cbn [length]; [done | by rewrite IH].
Qed.

Lemma find_replace_first_same (items : list Automation) (id0 : string) (u : Updates)
    (now : Z) (a : Automation) :
  find items id0 = Some a → id (merge a u now) = id0 →
  find (replace_first items id0 u now) id0 = Some (merge a u now).
Proof.
  intros Hf Hid. induction items as [|b items IH]; [done|].
  cbn [find replace_first] in *. case_bool_decide as Hb.
  - injection Hf as ->. cbn [find]. by rewrite bool_decide_eq_true_2.
  - cbn [find]. rewrite bool_decide_eq_false_2 by done. by apply IH.
Qed.

Lemma find_replace_first_other (items : list Automation) (id0 k : string) (u : Updates)
    (now : Z) (a : Automation) :
  find items id0 = Some a → k ≠ id0 → k ≠ id (merge a u now) →
  find (replace_first items id0 u now) k = find items k.
Proof.
  intros Hf Hk Hk'. induction items as [|b items IH]; [done|].
  cbn [find replace_first] in *. case_bool_decide as Hb.
  - injection Hf as ->. cbn [find].
    rewrite bool_decide_eq_false_2 by done.
    by rewrite (bool_decide_eq_false_2 (id a = k)) by congruence.
  - cbn [find]. by rewrite IH.
Qed.

(** X20.  createAutomation and updateAutomation on the list of the client.
    A created automation goes to the end of the list with the given id and
    both dates at the instant of creation; it is what a lookup of that id
    then finds when the id was not in use, and no other lookup changes.
    updateAutomation answers 'Automation not found' and leaves the list
    alone when the id is unknown; otherwise it rewrites the first automation
    with the id in place, the given fields over the old ones and updatedAt
    at the instant of the update, the list keeps its length, a lookup of the
    id finds the rewritten automation as long as the update does not change
    the id, and the lookups of the ids that are neither the old nor the new
    one are as before. *)
Theorem create_and_update_round_trip (items : list Automation) (uuid id0 : string)
    (now : Z) (d : Draft) (u : Updates) :
  let c := createAutomation items uuid now d in
  let r := updateAutomation items id0 u now in
  (∃ a, c = (items ++ [a], inr a) ∧ id a = uuid ∧ createdAt a = now ∧ updatedAt a = now ∧
        name a = d_name d ∧ script a = d_script d ∧ status a = d_status d ∧
        (find items uuid = None → getAutomationById c.1 uuid = inr a) ∧
        (∀ k, k ≠ uuid → getAutomationById c.1 k = getAutomationById items k)) ∧
  length r.1 = length items ∧
  (find items id0 = None → r = (items, inl "Automation not found")) ∧
  (∀ a, find items id0 = Some a →
        r.2 = inr (merge a u now) ∧
        updatedAt (merge a u now) = now ∧
        (u_name u = None → name (merge a u now) = name a) ∧
        (∀ n, u_name u = Some n → name (merge a u now) = n) ∧
        (id (merge a u now) = id0 → getAutomationById r.1 id0 = inr (merge a u now)) ∧
        (∀ k, k ≠ id0 → k ≠ id (merge a u now) →
              getAutomationById r.1 k = getAutomationById items k)).
Proof.
  cbv zeta. split_and!.
  - unfold createAutomation. cbn [fst]. eexists. split; [reflexivity|].
    cbn [id createdAt updatedAt name script status].
    split_and!; try done.
    + intros Hfresh. unfold getAutomationById. rewrite find_app_fresh, Hfresh.
      cbn [id]. by rewrite bool_decide_eq_true_2.
    + intros k Hk. unfold getAutomationById. rewrite find_app_fresh.
      destruct (find items k); [done|]. cbn [id]. by rewrite bool_decide_eq_false_2.
  - unfold updateAutomation. destruct (find items id0); cbn [fst]; [|done].
    apply replace_first_length.
  - intros Hnone. unfold updateAutomation. by rewrite Hnone.
  - intros a Ha. unfold updateAutomation. rewrite Ha. cbn [fst snd].
    split_and!.
    + done.
    + done.
    + intros Hn. cbn. by rewrite Hn.
    + intros n Hn. cbn. by rewrite Hn.
    + intros Hid. unfold getAutomationById.
      by rewrite (find_replace_first_same items id0 u now a).
    + intros k Hk Hk'. unfold getAutomationById.
      by rewrite (find_replace_first_other items id0 k u now a).
Qed.

End ClientAutomationFacts.

(** ** The listing handler *)
Module PagingFacts.
Import OutputModel.

(** X21.  Without [skip] the handler of GET /api/outputs reports the pages
    rightly: for a page number and a limit of at least 1, [hasMore] is true
    exactly when the next page holds a row, [total] is the number of stored
    outputs, and [count] is the number of rows of the page, never above the
    limit. *)
Theorem hasMore_exact_without_skip (db : Database) (page limit : Z) :
  1 <= page → 1 <= limit →
  let r := Server.get_outputs db (Some page) (Some limit) None in
  let next := Server.get_outputs db (Some (page + 1)) (Some limit) None in
  (Server.hasMore r = true ↔ Server.files next ≠ []) ∧
  Server.total r = Z.of_nat (size (outputs db)) ∧
  Server.count r = Z.of_nat (length (Server.files r)) ∧
  Server.count r <= limit.
Proof.
  intros Hp Hl. cbv zeta. unfold Server.get_outputs, Server.or_default.
  rewrite !(proj2 (Z.eqb_neq _ 0)) by lia.
  cbn [Server.files Server.hasMore Server.total Server.count].
  rewrite !ListingFacts.getAll_window by lia.
  assert (Hlen : length (ordered db) = size (outputs db)).
  { unfold ordered. by rewrite merge_sort_Permutation, length_map_to_list. }
  split_and!.
  - cbn [getAll OutputModel.page OutputModel.limit OutputModel.total]. rewrite Z.ltb_lt.
    replace ((page + 1 - 1) * limit + 0) with (page * limit) by lia.
    split.
    + intros Hlt Hnil. apply (f_equal length) in Hnil.
      rewrite length_take, length_drop in Hnil. cbn [length] in Hnil. lia.
    + intros Hne. destruct (decide (page * limit < Z.of_nat (size (outputs db))));
        [done|]. exfalso. apply Hne.
      rewrite drop_ge by lia. by rewrite take_nil.
  - done.
  - done.
  - rewrite length_take. lia.
Qed.

Lemma hasMore_exact_without_skip_witness :
  Server.hasMore (Server.get_outputs Samples.db_three (Some 1) (Some 2) None) = true ∧
  Server.hasMore (Server.get_outputs Samples.db_three (Some 2) (Some 2) None) = false.
Proof.
  split.
  - apply (proj1 (hasMore_exact_without_skip Samples.db_three 1 2 ltac:(lia) ltac:(lia))).
    vm_compute. discriminate.
  - destruct (Server.hasMore _) eqn:E; [|reflexivity]. exfalso.
    apply (proj1 (proj1 (hasMore_exact_without_skip Samples.db_three 2 2
                           ltac:(lia) ltac:(lia)))) in E.
    apply E. vm_compute. reflexivity.
Defined.

End PagingFacts.
